(** * Chain synchronizer of catapult-server

    A shallow embedding of [src/catapult/chain/ChainSynchronizer.cpp]:
    the bookkeeping of unprocessed elements, the range aggregator, the
    block pull loop and one round of the default chain synchronizer,
    followed by the properties established about them.

    Conventions of the embedding.
    - [size_t] and [uint64_t] values are integers in [Z]; every C++
      operation that can wrap is written with its reduction modulo [2^64]
      ([size_t] is taken to be 64 bits wide).
    - The spin lock of [UnprocessedElements] makes each of its methods
      atomic; a method is a function on the state of the object.
    - A future is modelled by what it resolves to: a value or an
      exception.  Continuations run when their future is resolved, so one
      round of the synchronizer is a sequential computation over the
      world state.  [operator_call] is the round during which no
      completion callback of the pipeline fires; in
      [operator_call_interleaved] completion callbacks run between the
      accesses of the round to the shared object.
    - External collaborators (remote apis, consumers, suppliers) are
      functions of the history of calls made so far, so that they may
      answer differently at different times; each call is appended to
      the history. *)

From Stdlib Require Import String ZArith List Bool Lia.
Import ListNotations.
Local Open Scope Z_scope.

(* ================================================================= *)
(** ** Machine integers *)

Definition uint64_t (z : Z) : Z := z mod 2 ^ 64.

Definition size_t (z : Z) : Z := z mod 2 ^ 64.

(** [Height] is a [uint64_t] base value. *)
Definition Height := Z.

Definition Height_add (a b : Height) : Height := uint64_t (a + b).

(* ================================================================= *)
(** ** Exceptions, outcomes and futures *)

(** The exception classes the synchronizer distinguishes:
    [catch (const catapult_runtime_error&)] catches the first one only. *)
Inductive exception : Type :=
| catapult_runtime_error (what : string)
| catapult_invalid_argument (what : string) (value : Z)
| other_exception (what : string).

(** What evaluating a piece of C++ code leads to. [Undefined] is
    behaviour the language leaves undefined; [OutOfFuel] is produced by
    the pull loop only, when the bound on its iterations is reached. *)
Inductive Outcome (A : Type) : Type :=
| Returns (a : A)
| Throws (e : exception)
| Undefined
| OutOfFuel.

Arguments Returns {A} a.
Arguments Throws {A} e.
Arguments Undefined {A}.
Arguments OutOfFuel {A}.

Definition bind {A B : Type} (c : Outcome A) (k : A -> Outcome B) : Outcome B :=
  match c with
  | Returns a => k a
  | Throws e => Throws e
  | Undefined => Undefined
  | OutOfFuel => OutOfFuel
  end.

Notation "x <- c ;; k" := (bind c (fun x => k))
  (at level 61, c at next level, right associativity).

(** [try { body } catch (const catapult_runtime_error& e) { handler }] *)
Definition try_catch_runtime_error {A : Type}
  (body : Outcome A) (handler : string -> Outcome A) : Outcome A :=
  match body with
  | Throws (catapult_runtime_error what) => handler what
  | other => other
  end.

(** A resolved [thread::future]. *)
Inductive future (A : Type) : Type :=
| ready (value : A)
| failed (e : exception).

Arguments ready {A} value.
Arguments failed {A} e.

Definition make_ready_future {A : Type} (value : A) : future A := ready value.

(** [future.get()] returns the value or rethrows the stored exception. *)
Definition get {A : Type} (f : future A) : Outcome A :=
  match f with
  | ready value => Returns value
  | failed e => Throws e
  end.

(* ================================================================= *)
(** ** Blocks, ranges and the types of the collaborators *)

Module model.

(** Modelled from the spec: [model::Block] and [model::BlockRange] are
    declared in headers that are not embedded here.  A block is observed through
    its height and its size in bytes; a range is an ordered sequence of
    blocks that carries a count ([size]) and a total size in bytes, and
    [MergeRanges] joins ranges preserving order. *)
Record Block : Type := { Height : Z; Size : Z }.

Definition BlockRange : Type := list Block.

Definition empty (range : BlockRange) : bool :=
  match range with
  | [] => true
  | _ :: _ => false
  end.

Definition size (range : BlockRange) : Z := size_t (Z.of_nat (List.length range)).

Definition sumSizes (range : BlockRange) : Z :=
  fold_right (fun block acc => Size block + acc) 0 range.

Definition totalSize (range : BlockRange) : Z := size_t (sumSizes range).

(** [--range.cend()]: the last block, if there is one. *)
Fixpoint back (range : BlockRange) : option Block :=
  match range with
  | [] => None
  | [block] => Some block
  | _ :: rest => back rest
  end.

Definition MergeRanges (ranges : list BlockRange) : BlockRange := concat ranges.

(** Transactions are opaque to the synchronizer: they are only forwarded. *)
Definition Transaction : Type := Z.

Definition TransactionRange : Type := list Transaction.

Definition ShortHashRange : Type := list Z.

End model.

Module disruptor.

Definition DisruptorElementId : Type := Z.

(** Modelled from the spec: the completion status is [Normal] or
    [Aborted]; the enumeration is declared in the disruptor headers,
    which are not embedded here. *)
Inductive CompletionStatus : Type := Normal | Aborted.

Definition CompletionStatus_eqb (a b : CompletionStatus) : bool :=
  match a, b with
  | Normal, Normal => true
  | Aborted, Aborted => true
  | _, _ => false
  end.

End disruptor.

(** The second argument of a completion callback. *)
Record ConsumerCompletionResult : Type :=
  { CompletionStatus : disruptor.CompletionStatus }.

Inductive NodeInteractionResult : Type := Success | Neutral | Failure.

(** Modelled from the spec: [ChainComparisonCode] is declared in
    CompareChains.h, which is not embedded here.  The three codes the
    synchronizer names and [Remote_Is_Forked] are constructors; every
    further code is [Other_Code] with its numeric value. *)
Inductive ChainComparisonCode : Type :=
| Remote_Reported_Equal_Chain_Score
| Remote_Reported_Lower_Chain_Score
| Remote_Is_Not_Synced
| Remote_Is_Forked
| Other_Code (raw : Z).

Record CompareChainsResult : Type :=
  { Code : ChainComparisonCode;
    CommonBlockHeight : Height;
    ForkDepth : Z }.

Record CompareChainsOptions : Type :=
  { MaxBlocksToAnalyze : Z;
    MaxBlocksToRewrite : Z }.

Record BlocksFromOptions : Type :=
  { NumBlocksLimit : Z;
    NumBytesLimit : Z }.

Record ChainSynchronizerConfiguration : Type :=
  { MaxBlocksPerSyncAttempt : Z;
    MaxChainBytesPerSyncAttempt : Z;
    MaxRollbackBlocks : Z }.

(** The completion callback handed to the block range consumer is always
    the same closure,
    [[pThis = shared_from_this()](auto id, auto result) {
       pThis->remove(id, result.CompletionStatus); }],
    represented by its code pointer. *)
Inductive CompletionCallback : Type := RemoveOnCompletion.

(** Calls made to the collaborators, in the order they are made. *)
Inductive Event : Type :=
| CompareChains_called (options : CompareChainsOptions)
| blocksFrom_called (height : Height) (options : BlocksFromOptions)
| unconfirmedTransactions_called (knownShortHashes : model.ShortHashRange)
| transactionRangeConsumer_called (range : model.TransactionRange)
| blockRangeConsumer_called (range : model.BlockRange) (callback : CompletionCallback).

Definition History : Type := list Event.

(** The block range consumer returns the id of the new disruptor element. *)
Definition CompletionAwareBlockRangeConsumerFunc : Type :=
  History -> model.BlockRange -> disruptor.DisruptorElementId.

Definition ShortHashesSupplier : Type := History -> model.ShortHashRange.

Record ChainApi : Type :=
  { blocksFrom : History -> Height -> BlocksFromOptions -> future model.BlockRange }.

Record TransactionApi : Type :=
  { unconfirmedTransactions :
      History -> model.ShortHashRange -> future model.TransactionRange }.

Record RemoteApi : Type :=
  { pChainApi : ChainApi;
    pTransactionApi : TransactionApi }.

(* ================================================================= *)
(** ** UnprocessedElements *)

Record ElementInfo : Type :=
  { Id : disruptor.DisruptorElementId;
    EndHeight : Height;
    NumBytes : Z }.

Module UnprocessedElements.

(** [m_elements] is a [std::queue]: its front is the head of the list and
    [emplace] appends at the end. *)
Record t : Type :=
  { m_blockRangeConsumer : CompletionAwareBlockRangeConsumerFunc;
    m_elements : list ElementInfo;
    m_maxSize : Z;
    m_numBytes : Z;
    m_hasPendingSync : bool;
    m_dirty : bool }.

Definition make (blockRangeConsumer : CompletionAwareBlockRangeConsumerFunc)
  (maxSize : Z) : t :=
  {| m_blockRangeConsumer := blockRangeConsumer;
     m_elements := [];
     m_maxSize := maxSize;
     m_numBytes := 0;
     m_hasPendingSync := false;
     m_dirty := false |}.

Definition set_elements (elements : list ElementInfo) (this : t) : t :=
  {| m_blockRangeConsumer := m_blockRangeConsumer this;
     m_elements := elements;
     m_maxSize := m_maxSize this;
     m_numBytes := m_numBytes this;
     m_hasPendingSync := m_hasPendingSync this;
     m_dirty := m_dirty this |}.

Definition set_numBytes (numBytes : Z) (this : t) : t :=
  {| m_blockRangeConsumer := m_blockRangeConsumer this;
     m_elements := m_elements this;
     m_maxSize := m_maxSize this;
     m_numBytes := numBytes;
     m_hasPendingSync := m_hasPendingSync this;
     m_dirty := m_dirty this |}.

Definition set_hasPendingSync (hasPendingSync : bool) (this : t) : t :=
  {| m_blockRangeConsumer := m_blockRangeConsumer this;
     m_elements := m_elements this;
     m_maxSize := m_maxSize this;
     m_numBytes := m_numBytes this;
     m_hasPendingSync := hasPendingSync;
     m_dirty := m_dirty this |}.

Definition set_dirty (dirty : bool) (this : t) : t :=
  {| m_blockRangeConsumer := m_blockRangeConsumer this;
     m_elements := m_elements this;
     m_maxSize := m_maxSize this;
     m_numBytes := m_numBytes this;
     m_hasPendingSync := m_hasPendingSync this;
     m_dirty := dirty |}.

(** [std::queue::front], which the C++ code calls unchecked. *)
Definition front (elements : list ElementInfo) : option ElementInfo :=
  match elements with
  | [] => None
  | info :: _ => Some info
  end.

Definition pop (elements : list ElementInfo) : list ElementInfo := tl elements.

(** [std::queue::back], called after an emptiness test. *)
Fixpoint back (elements : list ElementInfo) : option ElementInfo :=
  match elements with
  | [] => None
  | [info] => Some info
  | _ :: rest => back rest
  end.

Definition numBytes (this : t) : Z := m_numBytes this.

Definition empty (this : t) : bool := 0 =? numBytes this.

Definition shouldStartSync (this : t) : bool * t :=
  if (m_maxSize this <=? m_numBytes this) || m_hasPendingSync this || m_dirty this
  then (false, this)
  else (true, set_hasPendingSync true this).

Definition maxHeight (this : t) : Height :=
  match back (m_elements this) with
  | None => 0
  | Some info => EndHeight info
  end.

Definition hasPendingOperation (this : t) : bool :=
  negb (0 =? m_numBytes this) || m_hasPendingSync this.

Definition add (range : model.BlockRange) (this : t) (history : History)
  : Outcome (bool * (t * History)) :=
  if m_dirty this then Returns (false, (this, history))
  else
    match model.back range with
    | None => Undefined
    | Some last =>
        let endHeight := model.Height last in
        let bufferSize := model.totalSize range in
        let newId := m_blockRangeConsumer this history range in
        let history' := history ++ [blockRangeConsumer_called range RemoveOnCompletion] in
        let info := {| Id := newId; EndHeight := endHeight; NumBytes := bufferSize |} in
        let this1 := set_numBytes (size_t (m_numBytes this + NumBytes info)) this in
        let this2 := set_elements (m_elements this1 ++ [info]) this1 in
        Returns (true, (this2, history'))
    end.

Definition remove (id : disruptor.DisruptorElementId)
  (status : disruptor.CompletionStatus) (this : t) : Outcome t :=
  match front (m_elements this) with
  | None => Undefined
  | Some info =>
      if negb (Id info =? id)
      then Throws (catapult_invalid_argument "unexpected element id"%string id)
      else
        let this1 := set_numBytes (size_t (m_numBytes this - NumBytes info)) this in
        let this2 := set_elements (pop (m_elements this1)) this1 in
        Returns (set_dirty
                   (hasPendingOperation this2
                    && negb (disruptor.CompletionStatus_eqb disruptor.Normal status))
                   this2)
  end.

Definition clearPendingSync (this : t) : t :=
  let this1 := set_hasPendingSync false this in
  if m_dirty this1 then set_dirty (hasPendingOperation this1) this1 else this1.

(** Running the completion callback the consumer was given. *)
Definition invoke (callback : CompletionCallback)
  (id : disruptor.DisruptorElementId) (result : ConsumerCompletionResult)
  (this : t) : Outcome t :=
  match callback with
  | RemoveOnCompletion => remove id (CompletionStatus result) this
  end.

End UnprocessedElements.

(* ================================================================= *)
(** ** The synchronizer's verdict table and the range aggregator *)

Definition ToNodeInteractionResult (code : ChainComparisonCode) : NodeInteractionResult :=
  match code with
  | Remote_Reported_Equal_Chain_Score
  | Remote_Reported_Lower_Chain_Score => Neutral
  | _ => Failure
  end.

Module RangeAggregator.

Record t : Type :=
  { m_numBlocks : Z;
    m_ranges : list model.BlockRange }.

(** [std::make_shared<RangeAggregator>()] value-initializes the object:
    the counter starts at zero and the vector is empty. *)
Definition make : t := {| m_numBlocks := 0; m_ranges := [] |}.

Definition add (range : model.BlockRange) (this : t) : t :=
  {| m_numBlocks := size_t (m_numBlocks this + model.size range);
     m_ranges := m_ranges this ++ [range] |}.

Definition merge (this : t) : model.BlockRange := model.MergeRanges (m_ranges this).

Definition empty (this : t) : bool := 0 =? m_numBlocks this.

Definition numBlocks (this : t) : Z := m_numBlocks this.

End RangeAggregator.

(* ================================================================= *)
(** ** The world a sync round runs in *)

(** The shared [UnprocessedElements] object and the calls made so far. *)
Record World : Type :=
  { unprocessedElements : UnprocessedElements.t;
    history : History }.

Definition set_unprocessedElements (elements : UnprocessedElements.t) (w : World) : World :=
  {| unprocessedElements := elements; history := history w |}.

Definition record (event : Event) (w : World) : World :=
  {| unprocessedElements := unprocessedElements w; history := history w ++ [event] |}.

Definition NodeInteractionFuture : Type := future NodeInteractionResult.

(** Modelled from the spec: [thread::compose] (FutureUtils.h, not
    embedded here) runs [createNextFuture] on the completed start
    future and resolves like the future it returns; an exception thrown
    by [createNextFuture] becomes the exception of the composed future. *)
Definition compose {A B : Type} (start : Outcome (future A * World))
  (createNextFuture : future A -> World -> Outcome (future B * World))
  : Outcome (future B * World) :=
  match start with
  | Returns (startFuture, w) =>
      match createNextFuture startFuture w with
      | Throws e => Returns (failed e, w)
      | other => other
      end
  | Throws e => Throws e
  | Undefined => Undefined
  | OutOfFuel => OutOfFuel
  end.

(** Modelled from the spec: [future::then] resolves with the value the
    continuation returns, or with the exception it throws. *)
Definition then_ {A B : Type} (start : future A * World)
  (continuation : future A -> World -> Outcome (B * World))
  : Outcome (future B * World) :=
  let (startFuture, w) := start in
  match continuation startFuture w with
  | Returns (value, w') => Returns (ready value, w')
  | Throws e => Returns (failed e, w)
  | Undefined => Undefined
  | OutOfFuel => OutOfFuel
  end.

(* ================================================================= *)
(** ** Pulling blocks *)

Definition FutureSupplier : Type := Height -> World -> future model.BlockRange * World.

Definition CreateFutureSupplier (remoteApi : RemoteApi) (options : BlocksFromOptions)
  : FutureSupplier :=
  fun height w =>
    (blocksFrom (pChainApi remoteApi) (history w) height options,
     record (blocksFrom_called height options) w).

Definition unprocessedElements_add (range : model.BlockRange) (w : World)
  : Outcome (bool * World) :=
  added <- UnprocessedElements.add range (unprocessedElements w) (history w) ;;
  Returns (fst added,
           {| unprocessedElements := fst (snd added); history := snd (snd added) |}).

Definition CompleteChainBlocksFrom (rangeAggregator : RangeAggregator.t) (w : World)
  : Outcome (NodeInteractionFuture * World) :=
  if RangeAggregator.empty rangeAggregator
  then Returns (make_ready_future Neutral, w)
  else
    let mergedRange := RangeAggregator.merge rangeAggregator in
    added <- unprocessedElements_add mergedRange w ;;
    let addResult := if fst added then Success else Neutral in
    Returns (make_ready_future addResult, snd added).

(** The pull loop.  [fuel] bounds the number of requests: the C++
    recursion through continuations has no bound of its own. *)
Fixpoint ChainBlocksFrom (fuel : nat) (futureSupplier : FutureSupplier)
  (height : Height) (forkDepth : Z) (pRangeAggregator : RangeAggregator.t)
  (w : World) : Outcome (NodeInteractionFuture * World) :=
  match fuel with
  | O => OutOfFuel
  | S fuel' =>
      compose (Returns (futureSupplier height w))
        (fun blocksFuture w1 =>
           try_catch_runtime_error
             (range <- get blocksFuture ;;
              if model.empty range
              then CompleteChainBlocksFrom pRangeAggregator w1
              else
                match model.back range with
                | None => Undefined
                | Some last =>
                    let endHeight := model.Height last in
                    let aggregator := RangeAggregator.add range pRangeAggregator in
                    if forkDepth <=? RangeAggregator.numBlocks aggregator
                    then CompleteChainBlocksFrom aggregator w1
                    else
                      let nextHeight := Height_add endHeight 1 in
                      ChainBlocksFrom fuel' futureSupplier nextHeight forkDepth aggregator w1
                end)
             (fun _ => Returns (make_ready_future Failure, w1)))
  end.

(* ================================================================= *)
(** ** DefaultChainSynchronizer *)

(** The members of the synchronizer that do not change.  The shared
    [UnprocessedElements] object is in the [World]; the transaction range
    consumer returns nothing, so its calls only appear in the history. *)
Record DefaultChainSynchronizer : Type :=
  { m_pLocalChainApi : ChainApi;
    m_compareChainOptions : CompareChainsOptions;
    m_blocksFromOptions : BlocksFromOptions;
    m_shortHashesSupplier : ShortHashesSupplier }.

(** [3 * config.MaxChainBytesPerSyncAttempt] is evaluated in the type of
    the configuration field, declared in ChainSynchronizer.h, which is
    not embedded here; [productBits] is the width of that arithmetic. *)
Definition maxUnprocessedBytes (productBits : Z) (config : ChainSynchronizerConfiguration) : Z :=
  (3 * MaxChainBytesPerSyncAttempt config) mod 2 ^ productBits.

Definition DefaultChainSynchronizer_make (pLocalChainApi : ChainApi)
  (config : ChainSynchronizerConfiguration) (shortHashesSupplier : ShortHashesSupplier)
  : DefaultChainSynchronizer :=
  {| m_pLocalChainApi := pLocalChainApi;
     m_compareChainOptions :=
       {| MaxBlocksToAnalyze := MaxBlocksPerSyncAttempt config;
          MaxBlocksToRewrite := MaxRollbackBlocks config |};
     m_blocksFromOptions :=
       {| NumBlocksLimit := MaxRollbackBlocks config;
          NumBytesLimit := MaxChainBytesPerSyncAttempt config |};
     m_shortHashesSupplier := shortHashesSupplier |}.

(** The [UnprocessedElements] object the constructor creates. *)
Definition DefaultChainSynchronizer_unprocessedElements (productBits : Z)
  (config : ChainSynchronizerConfiguration)
  (blockRangeConsumer : CompletionAwareBlockRangeConsumerFunc) : UnprocessedElements.t :=
  UnprocessedElements.make blockRangeConsumer (maxUnprocessedBytes productBits config).

(** [unprocessedElements.clearPendingSync()] on the shared object. *)
Definition clearPendingSync (w : World) : World :=
  set_unprocessedElements
    (UnprocessedElements.clearPendingSync (unprocessedElements w)) w.

Definition CompareChainsFunc : Type :=
  ChainApi -> ChainApi -> CompareChainsOptions -> History -> future CompareChainsResult.

Section Synchronizer.

(** Modelled from the spec: [CompareChains] (CompareChains.cpp, not
    embedded here) is invoked with the local and the remote chain
    api and returns a future [CompareChainsResult]. *)
Variable CompareChains : CompareChainsFunc.

Definition compareChains (this : DefaultChainSynchronizer) (remoteApi : RemoteApi)
  (w : World) : future CompareChainsResult * World :=
  if UnprocessedElements.empty (unprocessedElements w)
  then
    (CompareChains (m_pLocalChainApi this) (pChainApi remoteApi)
       (m_compareChainOptions this) (history w),
     record (CompareChains_called (m_compareChainOptions this)) w)
  else
    let result :=
      {| Code := Remote_Is_Not_Synced;
         CommonBlockHeight := UnprocessedElements.maxHeight (unprocessedElements w);
         ForkDepth := 0 |} in
    (make_ready_future result, w).

Definition syncWithPeer (fuel : nat) (this : DefaultChainSynchronizer)
  (remoteApi : RemoteApi) (compareResult : CompareChainsResult) (w : World)
  : Outcome (NodeInteractionFuture * World) :=
  match Code compareResult with
  | Remote_Reported_Equal_Chain_Score =>
      let knownShortHashes := m_shortHashesSupplier this (history w) in
      then_
        (unconfirmedTransactions (pTransactionApi remoteApi) (history w) knownShortHashes,
         record (unconfirmedTransactions_called knownShortHashes) w)
        (fun transactionsFuture w1 =>
           try_catch_runtime_error
             (range <- get transactionsFuture ;;
              Returns (Neutral, record (transactionRangeConsumer_called range) w1))
             (fun _ => Returns (Failure, w1)))
  | Remote_Is_Not_Synced =>
      let futureSupplier := CreateFutureSupplier remoteApi (m_blocksFromOptions this) in
      let pRangeAggregator := RangeAggregator.make in
      ChainBlocksFrom fuel futureSupplier
        (Height_add (CommonBlockHeight compareResult) 1)
        (ForkDepth compareResult) pRangeAggregator w
  | code => Returns (make_ready_future (ToNodeInteractionResult code), w)
  end.

(** [DefaultChainSynchronizer::operator()]. *)
Definition operator_call (fuel : nat) (this : DefaultChainSynchronizer)
  (remoteApi : RemoteApi) (w : World) : Outcome (NodeInteractionFuture * World) :=
  let (started, elements) := UnprocessedElements.shouldStartSync (unprocessedElements w) in
  let w0 := set_unprocessedElements elements w in
  if negb started
  then Returns (make_ready_future Neutral, w0)
  else
    compose
      (compose (Returns (compareChains this remoteApi w0))
         (fun compareChainsFuture w1 =>
            try_catch_runtime_error
              (compareResult <- get compareChainsFuture ;;
               syncWithPeer fuel this remoteApi compareResult w1)
              (fun _ => Returns (make_ready_future Failure, w1))))
      (fun nodeInteractionFuture w2 => Returns (nodeInteractionFuture, clearPendingSync w2)).

(** The callable [CreateChainSynchronizer] returns. *)
Definition CreateChainSynchronizer (fuel : nat) (pSynchronizer : DefaultChainSynchronizer)
  (remoteApi : RemoteApi) (w : World) : Outcome (NodeInteractionFuture * World) :=
  compose (operator_call fuel pSynchronizer remoteApi w)
    (fun future w' => Returns (future, w')).

End Synchronizer.

(* ================================================================= *)
(** ** Sequences of operations on UnprocessedElements *)

Inductive Operation : Type :=
| Op_shouldStartSync
| Op_add (range : model.BlockRange)
| Op_remove (id : disruptor.DisruptorElementId) (status : disruptor.CompletionStatus)
| Op_clearPendingSync.

Definition applyOperation (op : Operation) (w : World) : Outcome World :=
  match op with
  | Op_shouldStartSync =>
      Returns (set_unprocessedElements
                 (snd (UnprocessedElements.shouldStartSync (unprocessedElements w))) w)
  | Op_add range =>
      added <- unprocessedElements_add range w ;; Returns (snd added)
  | Op_remove id status =>
      elements <- UnprocessedElements.remove id status (unprocessedElements w) ;;
      Returns (set_unprocessedElements elements w)
  | Op_clearPendingSync => Returns (clearPendingSync w)
  end.

Fixpoint run (ops : list Operation) (w : World) : Outcome World :=
  match ops with
  | [] => Returns w
  | op :: rest => w' <- applyOperation op w ;; run rest w'
  end.

(** The world right after the synchronizer is constructed. *)
Definition initialWorld (blockRangeConsumer : CompletionAwareBlockRangeConsumerFunc)
  (maxSize : Z) : World :=
  {| unprocessedElements := UnprocessedElements.make blockRangeConsumer maxSize;
     history := [] |}.

Inductive reachable (w0 : World) : World -> Prop :=
| reachable_start : reachable w0 w0
| reachable_step (w w' : World) (op : Operation) :
    reachable w0 w -> applyOperation op w = Returns w' -> reachable w0 w'.

Definition sumNumBytes (elements : list ElementInfo) : Z :=
  fold_right (fun info acc => NumBytes info + acc) 0 elements.

(** The bookkeeping invariant, in [size_t] arithmetic. *)
Definition bytesAccounted (this : UnprocessedElements.t) : Prop :=
  UnprocessedElements.m_numBytes this
  = size_t (sumNumBytes (UnprocessedElements.m_elements this)).

(** The persistence of the dirty flag as the specification words it: once
    set, the flag stays set across every operation after which an
    operation is still pending. *)
Definition dirtyUntilQuiescence (w0 : World) : Prop :=
  forall (w w' : World) (op : Operation),
    reachable w0 w ->
    UnprocessedElements.m_dirty (unprocessedElements w) = true ->
    applyOperation op w = Returns w' ->
    UnprocessedElements.hasPendingOperation (unprocessedElements w') = true ->
    UnprocessedElements.m_dirty (unprocessedElements w') = true.

Definition isNormalRemove (op : Operation) : bool :=
  match op with
  | Op_remove _ disruptor.Normal => true
  | _ => false
  end.

(* ================================================================= *)
(** ** The protocol between UnprocessedElements and the pipeline *)

(** [inFlight] lists the ids of the ranges handed to the consumer whose
    completion callback has not fired yet. *)
Record Pipeline : Type :=
  { world : World;
    inFlight : list disruptor.DisruptorElementId }.

Fixpoint removeFirst (id : disruptor.DisruptorElementId)
  (ids : list disruptor.DisruptorElementId) : list disruptor.DisruptorElementId :=
  match ids with
  | [] => []
  | id' :: rest => if id' =? id then rest else id' :: removeFirst id rest
  end.

(** A callback fires only for an id in flight, and firing it takes the
    id out of [inFlight]: each callback fires at most once. An
    exception thrown by [remove] escapes to the pipeline and leaves the
    state as it was. *)
Inductive pipelineStep : Pipeline -> Pipeline -> Prop :=
| step_shouldStartSync (p : Pipeline) (w' : World) :
    applyOperation Op_shouldStartSync (world p) = Returns w' ->
    pipelineStep p {| world := w'; inFlight := inFlight p |}
| step_clearPendingSync (p : Pipeline) (w' : World) :
    applyOperation Op_clearPendingSync (world p) = Returns w' ->
    pipelineStep p {| world := w'; inFlight := inFlight p |}
| step_add_handed (p : Pipeline) (range : model.BlockRange) (w' : World) :
    unprocessedElements_add range (world p) = Returns (true, w') ->
    pipelineStep p
      {| world := w';
         inFlight :=
           inFlight p
           ++ [UnprocessedElements.m_blockRangeConsumer
                 (unprocessedElements (world p)) (history (world p)) range] |}
| step_add_refused (p : Pipeline) (range : model.BlockRange) (w' : World) :
    unprocessedElements_add range (world p) = Returns (false, w') ->
    pipelineStep p {| world := w'; inFlight := inFlight p |}
| step_callback_returns (p : Pipeline) (id : disruptor.DisruptorElementId)
    (result : ConsumerCompletionResult) (elements : UnprocessedElements.t) :
    In id (inFlight p) ->
    UnprocessedElements.invoke RemoveOnCompletion id result
      (unprocessedElements (world p)) = Returns elements ->
    pipelineStep p
      {| world := set_unprocessedElements elements (world p);
         inFlight := removeFirst id (inFlight p) |}
| step_callback_throws (p : Pipeline) (id : disruptor.DisruptorElementId)
    (result : ConsumerCompletionResult) (e : exception) :
    In id (inFlight p) ->
    UnprocessedElements.invoke RemoveOnCompletion id result
      (unprocessedElements (world p)) = Throws e ->
    pipelineStep p {| world := world p; inFlight := removeFirst id (inFlight p) |}.

Inductive pipelineReachable (w0 : World) : Pipeline -> Prop :=
| pipeline_start : pipelineReachable w0 {| world := w0; inFlight := [] |}
| pipeline_step (p p' : Pipeline) :
    pipelineReachable w0 p -> pipelineStep p p' -> pipelineReachable w0 p'.

(** Every id in flight has its element in the queue, counted with
    multiplicity. *)
Definition inFlightQueued (p : Pipeline) : Prop :=
  forall id : disruptor.DisruptorElementId,
    (count_occ Z.eq_dec (inFlight p) id
     <= count_occ Z.eq_dec
          (map Id (UnprocessedElements.m_elements (unprocessedElements (world p)))) id)%nat.

(* ================================================================= *)
(** ** The pull algorithm in the words of the specification *)



(* ================================================================= *)
(** ** A concrete environment *)

Module Scenario.

Definition config : ChainSynchronizerConfiguration :=
  {| MaxBlocksPerSyncAttempt := 84;
     MaxChainBytesPerSyncAttempt := 1000;
     MaxRollbackBlocks := 40 |}.

(** A consumer that numbers the elements it is given: 1, 2, 3, ... *)
Definition numberingConsumer : CompletionAwareBlockRangeConsumerFunc :=
  fun history _ =>
    1 + Z.of_nat
          (List.length
             (filter (fun event =>
                        match event with
                        | blockRangeConsumer_called _ _ => true
                        | _ => false
                        end) history)).

(** [count] consecutive blocks of 100 bytes each, starting at [first]. *)
Definition blocks (first : Z) (count : nat) : model.BlockRange :=
  map (fun i => {| model.Height := first + Z.of_nat i; model.Size := 100 |}) (seq 0 count).

(** A peer whose chain ends at height [tip]: it answers a request with
    the blocks from the requested height on, at most [batch] of them. *)
Definition peerChainApi (tip : Z) (batch : nat) : ChainApi :=
  {| blocksFrom := fun _ height _ =>
       ready (blocks height (Nat.min batch (Z.to_nat (tip + 1 - height)))) |}.

Definition peerTransactionApi : TransactionApi :=
  {| unconfirmedTransactions := fun _ _ => ready [7; 8; 9] |}.

Definition peer (tip : Z) (batch : nat) : RemoteApi :=
  {| pChainApi := peerChainApi tip batch; pTransactionApi := peerTransactionApi |}.

(** A peer whose requests all fail. *)
Definition brokenPeer : RemoteApi :=
  {| pChainApi := {| blocksFrom := fun _ _ _ => failed (catapult_runtime_error "io") |};
     pTransactionApi :=
       {| unconfirmedTransactions := fun _ _ => failed (catapult_runtime_error "io") |} |}.

(** A peer that answers the first block request and fails the second. *)
Definition flakyPeer : RemoteApi :=
  {| pChainApi :=
       {| blocksFrom := fun history height _ =>
            if existsb (fun event =>
                          match event with
                          | blocksFrom_called _ _ => true
                          | _ => false
                          end) history
            then failed (catapult_runtime_error "io")
            else ready (blocks height 2) |};
     pTransactionApi := peerTransactionApi |}.

Definition localChainApi : ChainApi := peerChainApi 100 40.

Definition noShortHashes : ShortHashesSupplier := fun _ => [].

Definition synchronizer : DefaultChainSynchronizer :=
  DefaultChainSynchronizer_make localChainApi config noShortHashes.

(** The arithmetic of the configuration is taken to be 32 bits wide. *)
Definition start : World :=
  {| unprocessedElements :=
       DefaultChainSynchronizer_unprocessedElements 32 config numberingConsumer;
     history := [] |}.

Definition verdict (code : ChainComparisonCode) (common : Height) (depth : Z)
  : CompareChainsFunc :=
  fun _ _ _ _ =>
    ready {| Code := code; CommonBlockHeight := common; ForkDepth := depth |}.

Definition comparisonFails : CompareChainsFunc :=
  fun _ _ _ _ => failed (catapult_runtime_error "io").

(** Three ranges are handed off in three rounds; the first completes
    aborted, the second normally, while the third is still in flight. *)
Definition threeInFlight : list Operation :=
  [ Op_shouldStartSync; Op_add (blocks 101 5); Op_clearPendingSync;
    Op_shouldStartSync; Op_add (blocks 106 5); Op_clearPendingSync;
    Op_shouldStartSync; Op_add (blocks 111 5); Op_clearPendingSync ].

(** The world after the range 101..105 is handed to the pipeline. *)
Definition afterHandoff : World :=
  match unprocessedElements_add (blocks 101 5) start with
  | Returns (_, w) => w
  | _ => start
  end.

Definition oneInFlight : Pipeline :=
  {| world := afterHandoff;
     inFlight :=
       [] ++ [UnprocessedElements.m_blockRangeConsumer
                (unprocessedElements start) (history start) (blocks 101 5)] |}.

(** Pulling from height 101 with fork depth 50 from a peer at height 150
    that sends 30 blocks at a time. *)
Definition pullSupplier : FutureSupplier :=
  CreateFutureSupplier (peer 150 30) (m_blocksFromOptions synchronizer).

Definition afterPull : World :=
  match ChainBlocksFrom 2 pullSupplier 101 50 RangeAggregator.make start with
  | Returns (_, w) => w
  | _ => start
  end.

(** The world with the three ranges of [threeInFlight] queued. *)
Definition threeQueued : World :=
  match run threeInFlight start with
  | Returns w => w
  | _ => start
  end.

(** The world right after a round has passed the gate. *)
Definition started : World :=
  match applyOperation Op_shouldStartSync start with
  | Returns w => w
  | _ => start
  end.

(** The world after a round that pulls the blocks 101..105 in one batch. *)
Definition afterRound : World :=
  match operator_call (verdict Remote_Is_Not_Synced 100 5) 3 synchronizer
          (peer 105 40) start with
  | Returns (_, w) => w
  | _ => start
  end.

(** A peer whose requests fail with an exception that is not a
    [catapult_runtime_error]. *)
Definition unexpectedPeer : RemoteApi :=
  {| pChainApi := {| blocksFrom := fun _ _ _ => failed (other_exception "bad_alloc") |};
     pTransactionApi :=
       {| unconfirmedTransactions := fun _ _ => failed (other_exception "bad_alloc") |} |}.

Definition comparisonFailsUnexpectedly : CompareChainsFunc :=
  fun _ _ _ _ => failed (other_exception "bad_alloc").





End Scenario.

(* ================================================================= *)
(** ** Vocabulary of the statements *)

Definition neverThrows {A : Type} (outcome : Outcome A) : Prop :=
  forall e, outcome <> Throws e.

(** The outer continuation of a round: release the gate, keep the result. *)
Definition thenClearPendingSync (outcome : Outcome (NodeInteractionFuture * World))
  : Outcome (NodeInteractionFuture * World) :=
  match outcome with
  | Returns (nodeInteractionFuture, w) => Returns (nodeInteractionFuture, clearPendingSync w)
  | other => other
  end.

(** The ranges an aggregator holds are the replies that were not empty. *)
Definition aggregatorConsistent (aggregator : RangeAggregator.t) : Prop :=
  Forall (fun range => range <> []) (RangeAggregator.m_ranges aggregator)
  /\ (RangeAggregator.m_ranges aggregator = [] ->
      RangeAggregator.m_numBlocks aggregator = 0).


Definition isComparison (event : Event) : bool :=
  match event with
  | CompareChains_called _ => true
  | _ => false
  end.



(** What a clause [catch (const catapult_runtime_error&)] around
    [future.get()] makes of the exception [e] of the future: a
    [catapult_runtime_error] is caught and gives [Failure]; an exception
    of any other class passes and becomes the exception of the future
    under construction. *)
Definition resultOnError (e : exception) : NodeInteractionFuture :=
  match e with
  | catapult_runtime_error _ => ready Failure
  | _ => failed e
  end.



(** The gate as the specification words it: open exactly below three
    times the configured bytes per sync attempt. *)
Definition gateAtThreeTimesMax (config : ChainSynchronizerConfiguration)
  (this : UnprocessedElements.t) : Prop :=
  fst (UnprocessedElements.shouldStartSync this) = true <->
  UnprocessedElements.m_numBytes this < 3 * MaxChainBytesPerSyncAttempt config
  /\ UnprocessedElements.m_hasPendingSync this = false
  /\ UnprocessedElements.m_dirty this = false.

(** The error case of the equal-score branch as the specification words
    it: when the request for unconfirmed transactions fails, the round
    resolves to [Failure]. *)
Definition transactionErrorGivesFailure (CompareChains : CompareChainsFunc) (fuel : nat)
  (this : DefaultChainSynchronizer) (remoteApi : RemoteApi) (w : World) : Prop :=
  let gate := UnprocessedElements.shouldStartSync (unprocessedElements w) in
  let compared :=
    compareChains CompareChains this remoteApi (set_unprocessedElements (snd gate) w) in
  let w1 := snd compared in
  fst gate = true ->
  forall compareResult e,
    fst compared = ready compareResult ->
    Code compareResult = Remote_Reported_Equal_Chain_Score ->
    unconfirmedTransactions (pTransactionApi remoteApi) (history w1)
      (m_shortHashesSupplier this (history w1)) = failed e ->
    exists w', operator_call CompareChains fuel this remoteApi w = Returns (ready Failure, w').


(** The replies of the peer hold fewer than [2^63] blocks each, as any
    range that fits in memory does. *)
Definition repliesBounded (futureSupplier : FutureSupplier) : Prop :=
  forall height w range w1,
    futureSupplier height w = (ready range, w1) ->
    Z.of_nat (List.length range) < 2 ^ 63.

(** What a finished round leaves behind, for the scenarios below. *)
Definition resultOf (outcome : Outcome (NodeInteractionFuture * World))
  : option (NodeInteractionFuture * list ElementInfo * Z * bool * History) :=
  match outcome with
  | Returns (nodeInteractionFuture, w) =>
      Some (nodeInteractionFuture,
            UnprocessedElements.m_elements (unprocessedElements w),
            UnprocessedElements.m_numBytes (unprocessedElements w),
            UnprocessedElements.m_hasPendingSync (unprocessedElements w),
            history w)
  | _ => None
  end.

(* ================================================================= *)
(** ** Vocabulary of the further properties *)

Definition isRequest (event : Event) : bool :=
  match event with
  | blocksFrom_called _ _ => true
  | _ => false
  end.

Definition isConsumerCall (event : Event) : bool :=
  match event with
  | blockRangeConsumer_called _ _ => true
  | _ => false
  end.

(** The ranges the peer returned to the block requests among [events],
    which were made after the calls in [before]. *)
Fixpoint repliesIn (remoteApi : RemoteApi) (before events : History)
  : list model.BlockRange :=
  match events with
  | [] => []
  | event :: rest =>
      match event with
      | blocksFrom_called height options =>
          match blocksFrom (pChainApi remoteApi) before height options with
          | ready range => [range]
          | failed _ => []
          end
      | _ => []
      end ++ repliesIn remoteApi (before ++ [event]) rest
  end.

(** [events] is a chain of block requests: the first asks for
    [expected], each further one for the height after the last block of
    the reply before it, and nothing follows a reply that is empty or
    failed. *)
Fixpoint requestsChained (remoteApi : RemoteApi) (before : History)
  (expected : Height) (events : History) : bool :=
  match events with
  | [] => true
  | event :: rest =>
      match event with
      | blocksFrom_called height options =>
          (height =? expected)
          && match blocksFrom (pChainApi remoteApi) before height options with
             | ready range =>
                 match model.back range with
                 | Some last =>
                     requestsChained remoteApi (before ++ [event])
                       (Height_add (model.Height last) 1) rest
                 | None => match rest with [] => true | _ :: _ => false end
                 end
             | failed _ => match rest with [] => true | _ :: _ => false end
             end
      | _ => false
      end
  end.

(** The aggregator after the ranges of a list were added in order. *)
Definition aggregate (ranges : list model.BlockRange) : RangeAggregator.t :=
  fold_left (fun aggregator range => RangeAggregator.add range aggregator)
    ranges RangeAggregator.make.

(** The pipeline reports the queued elements in queue order, one status
    per element. *)
Fixpoint completeInOrder (statuses : list disruptor.CompletionStatus)
  (this : UnprocessedElements.t) : Outcome UnprocessedElements.t :=
  match statuses with
  | [] => Returns this
  | status :: rest =>
      match UnprocessedElements.front (UnprocessedElements.m_elements this) with
      | None => Returns this
      | Some info =>
          after <- UnprocessedElements.remove (Id info) status this ;;
          completeInOrder rest after
      end
  end.

(** A pipeline that completes its elements in the order it was given
    them: [Pipeline_completeOldest] fires the callback of the oldest
    range in flight, if there is one. *)
Inductive PipelineOperation : Type :=
| Pipeline_shouldStartSync
| Pipeline_clearPendingSync
| Pipeline_add (range : model.BlockRange)
| Pipeline_completeOldest (status : disruptor.CompletionStatus).

Definition pipelineApply (op : PipelineOperation) (p : Pipeline) : Outcome Pipeline :=
  match op with
  | Pipeline_shouldStartSync =>
      w' <- applyOperation Op_shouldStartSync (world p) ;;
      Returns {| world := w'; inFlight := inFlight p |}
  | Pipeline_clearPendingSync =>
      w' <- applyOperation Op_clearPendingSync (world p) ;;
      Returns {| world := w'; inFlight := inFlight p |}
  | Pipeline_add range =>
      added <- unprocessedElements_add range (world p) ;;
      Returns
        {| world := snd added;
           inFlight :=
             if fst added
             then inFlight p
                  ++ [UnprocessedElements.m_blockRangeConsumer
                        (unprocessedElements (world p)) (history (world p)) range]
             else inFlight p |}
  | Pipeline_completeOldest status =>
      match inFlight p with
      | [] => Returns p
      | id :: rest =>
          elements <- UnprocessedElements.invoke RemoveOnCompletion id
                        {| CompletionStatus := status |}
                        (unprocessedElements (world p)) ;;
          Returns {| world := set_unprocessedElements elements (world p);
                     inFlight := rest |}
      end
  end.

Fixpoint pipelineRun (ops : list PipelineOperation) (p : Pipeline) : Outcome Pipeline :=
  match ops with
  | [] => Returns p
  | op :: rest => p' <- pipelineApply op p ;; pipelineRun rest p'
  end.

Definition isAddOfEmptyRange (op : PipelineOperation) : bool :=
  match op with
  | Pipeline_add [] => true
  | _ => false
  end.

(* ================================================================= *)
(** ** A round with completions in between *)

(** The spin lock of [UnprocessedElements] is held for the duration of
    one method, and the pipeline fires the completion callbacks from its
    own threads: between two accesses of a round to the object any
    number of completions may run.  A round accesses the object in
    [shouldStartSync], then in [empty] and [maxHeight] (when the queue
    is not empty), in [add] (when the pull has blocks to hand off) and
    in [clearPendingSync].  An [Interleaving] gives, for each access
    after the first, the statuses of the completions the pipeline
    reports since the access before it, oldest element first.  The
    completions listed for an access the round does not make do not
    run; a schedule in which they run later lists them there. *)
Record Interleaving : Type :=
  { beforeEmpty : list disruptor.CompletionStatus;
    beforeMaxHeight : list disruptor.CompletionStatus;
    beforeAdd : list disruptor.CompletionStatus;
    beforeClearPendingSync : list disruptor.CompletionStatus }.

Definition noCompletions : Interleaving :=
  {| beforeEmpty := [];
     beforeMaxHeight := [];
     beforeAdd := [];
     beforeClearPendingSync := [] |}.

(** The completion callbacks for [statuses] run on the shared object:
    each status completes the oldest queued element under its own id;
    statuses left over once the queue is empty are dropped. *)
Definition completions (statuses : list disruptor.CompletionStatus) (w : World)
  : Outcome World :=
  elements <- completeInOrder statuses (unprocessedElements w) ;;
  Returns (set_unprocessedElements elements w).

Definition isNormal (status : disruptor.CompletionStatus) : bool :=
  disruptor.CompletionStatus_eqb disruptor.Normal status.

Section Interleaved.

Variable CompareChains : CompareChainsFunc.
Variable schedule : Interleaving.

Definition CompleteChainBlocksFrom_interleaved (rangeAggregator : RangeAggregator.t)
  (w : World) : Outcome (NodeInteractionFuture * World) :=
  if RangeAggregator.empty rangeAggregator
  then Returns (make_ready_future Neutral, w)
  else
    let mergedRange := RangeAggregator.merge rangeAggregator in
    w1 <- completions (beforeAdd schedule) w ;;
    added <- unprocessedElements_add mergedRange w1 ;;
    let addResult := if fst added then Success else Neutral in
    Returns (make_ready_future addResult, snd added).

Fixpoint ChainBlocksFrom_interleaved (fuel : nat) (futureSupplier : FutureSupplier)
  (height : Height) (forkDepth : Z) (pRangeAggregator : RangeAggregator.t)
  (w : World) : Outcome (NodeInteractionFuture * World) :=
  match fuel with
  | O => OutOfFuel
  | S fuel' =>
      compose (Returns (futureSupplier height w))
        (fun blocksFuture w1 =>
           try_catch_runtime_error
             (range <- get blocksFuture ;;
              if model.empty range
              then CompleteChainBlocksFrom_interleaved pRangeAggregator w1
              else
                match model.back range with
                | None => Undefined
                | Some last =>
                    let endHeight := model.Height last in
                    let aggregator := RangeAggregator.add range pRangeAggregator in
                    if forkDepth <=? RangeAggregator.numBlocks aggregator
                    then CompleteChainBlocksFrom_interleaved aggregator w1
                    else
                      let nextHeight := Height_add endHeight 1 in
                      ChainBlocksFrom_interleaved fuel' futureSupplier nextHeight
                        forkDepth aggregator w1
                end)
             (fun _ => Returns (make_ready_future Failure, w1)))
  end.

Definition compareChains_interleaved (this : DefaultChainSynchronizer)
  (remoteApi : RemoteApi) (w : World) : Outcome (future CompareChainsResult * World) :=
  w1 <- completions (beforeEmpty schedule) w ;;
  if UnprocessedElements.empty (unprocessedElements w1)
  then
    Returns
      (CompareChains (m_pLocalChainApi this) (pChainApi remoteApi)
         (m_compareChainOptions this) (history w1),
       record (CompareChains_called (m_compareChainOptions this)) w1)
  else
    w2 <- completions (beforeMaxHeight schedule) w1 ;;
    let result :=
      {| Code := Remote_Is_Not_Synced;
         CommonBlockHeight := UnprocessedElements.maxHeight (unprocessedElements w2);
         ForkDepth := 0 |} in
    Returns (make_ready_future result, w2).

Definition syncWithPeer_interleaved (fuel : nat) (this : DefaultChainSynchronizer)
  (remoteApi : RemoteApi) (compareResult : CompareChainsResult) (w : World)
  : Outcome (NodeInteractionFuture * World) :=
  match Code compareResult with
  | Remote_Reported_Equal_Chain_Score =>
      let knownShortHashes := m_shortHashesSupplier this (history w) in
      then_
        (unconfirmedTransactions (pTransactionApi remoteApi) (history w) knownShortHashes,
         record (unconfirmedTransactions_called knownShortHashes) w)
        (fun transactionsFuture w1 =>
           try_catch_runtime_error
             (range <- get transactionsFuture ;;
              Returns (Neutral, record (transactionRangeConsumer_called range) w1))
             (fun _ => Returns (Failure, w1)))
  | Remote_Is_Not_Synced =>
      let futureSupplier := CreateFutureSupplier remoteApi (m_blocksFromOptions this) in
      let pRangeAggregator := RangeAggregator.make in
      ChainBlocksFrom_interleaved fuel futureSupplier
        (Height_add (CommonBlockHeight compareResult) 1)
        (ForkDepth compareResult) pRangeAggregator w
  | code => Returns (make_ready_future (ToNodeInteractionResult code), w)
  end.

(** [DefaultChainSynchronizer::operator()] with the completions of
    [schedule] running between its accesses to the shared object. *)
Definition operator_call_interleaved (fuel : nat) (this : DefaultChainSynchronizer)
  (remoteApi : RemoteApi) (w : World) : Outcome (NodeInteractionFuture * World) :=
  let (started, elements) := UnprocessedElements.shouldStartSync (unprocessedElements w) in
  let w0 := set_unprocessedElements elements w in
  if negb started
  then Returns (make_ready_future Neutral, w0)
  else
    compose
      (compose (compareChains_interleaved this remoteApi w0)
         (fun compareChainsFuture w1 =>
            try_catch_runtime_error
              (compareResult <- get compareChainsFuture ;;
               syncWithPeer_interleaved fuel this remoteApi compareResult w1)
              (fun _ => Returns (make_ready_future Failure, w1))))
      (fun nodeInteractionFuture w2 =>
         w3 <- completions (beforeClearPendingSync schedule) w2 ;;
         Returns (nodeInteractionFuture, clearPendingSync w3)).

End Interleaved.

(** All the statuses an interleaving reports. *)
Definition statusesOf (schedule : Interleaving) : list disruptor.CompletionStatus :=
  beforeEmpty schedule ++ beforeMaxHeight schedule
  ++ beforeAdd schedule ++ beforeClearPendingSync schedule.

(** Every completion an interleaving reports is normal. *)
Definition onlyNormal (schedule : Interleaving) : bool :=
  forallb isNormal (statusesOf schedule).

(** How the shared object [after] relates to [this] when completions
    ran and [added] was appended to the queue in between: the queue of
    [this] followed by [added] is the completed elements followed by the
    queue of [after]; the gate's flag, the cap and the consumer are the
    same; the byte counter is still in step with the queue; and, when
    every completion was normal, a clear dirty flag is still clear. *)
Definition queueAdvanced (allNormal : bool) (added : list ElementInfo)
  (this after : UnprocessedElements.t) : Prop :=
  (exists completed,
     UnprocessedElements.m_elements this ++ added
     = completed ++ UnprocessedElements.m_elements after)
  /\ UnprocessedElements.m_hasPendingSync after = UnprocessedElements.m_hasPendingSync this
  /\ UnprocessedElements.m_maxSize after = UnprocessedElements.m_maxSize this
  /\ UnprocessedElements.m_blockRangeConsumer after
     = UnprocessedElements.m_blockRangeConsumer this
  /\ (bytesAccounted this -> bytesAccounted after)
  /\ (allNormal = true ->
      UnprocessedElements.m_dirty this = false ->
      UnprocessedElements.m_dirty after = false).

Module InterleavedScenario.

(** The oldest queued element is reported aborted while the round is
    pulling, before the round hands its blocks to the pipeline. *)
Definition abortedBeforeAdd : Interleaving :=
  {| beforeEmpty := [];
     beforeMaxHeight := [];
     beforeAdd := [disruptor.Aborted];
     beforeClearPendingSync := [] |}.

(** The only queued element completes between the emptiness test of the
    round and its read of the newest height. *)
Definition drainedBeforeMaxHeight : Interleaving :=
  {| beforeEmpty := [];
     beforeMaxHeight := [disruptor.Normal];
     beforeAdd := [];
     beforeClearPendingSync := [] |}.

(** A round on the three queued ranges (heights 101..115) with a peer at
    height 120, during which the oldest range is reported aborted. *)
Definition afterAbortedRound : World :=
  match operator_call_interleaved (Scenario.verdict Remote_Is_Not_Synced 100 5)
          abortedBeforeAdd 3 Scenario.synchronizer (Scenario.peer 120 40)
          Scenario.threeQueued with
  | Returns (_, w) => w
  | _ => Scenario.start
  end.

(** A round on the one queued range (heights 101..105) that completes
    right after the emptiness test. *)
Definition afterDrainedRound : World :=
  match operator_call_interleaved (Scenario.verdict Remote_Is_Not_Synced 100 5)
          drainedBeforeMaxHeight 3 Scenario.synchronizer (Scenario.peer 120 40)
          Scenario.afterHandoff with
  | Returns (_, w) => w
  | _ => Scenario.start
  end.

End InterleavedScenario.

(* ================================================================= *)
(** * Properties *)

(** ** Machine arithmetic *)

Lemma size_t_range (z : Z) : 0 <= size_t z < 2 ^ 64.
Proof. unfold size_t. apply Z.mod_pos_bound. reflexivity. Qed.

Lemma size_t_small (z : Z) : 0 <= z < 2 ^ 64 -> size_t z = z.
Proof. intros Hz. unfold size_t. apply Z.mod_small. exact Hz. Qed.

Lemma size_t_add_l (a b : Z) : size_t (size_t a + b) = size_t (a + b).
Proof. unfold size_t. apply Zplus_mod_idemp_l. Qed.

Lemma size_t_sub_l (a b : Z) : size_t (size_t a - b) = size_t (a - b).
Proof. unfold size_t. apply Zminus_mod_idemp_l. Qed.

Lemma size_t_nonzero (z : Z) : (0 =? size_t z) = negb (0 <? size_t z).
Proof.
  pose proof (size_t_range z) as [Hlow _].
  destruct (Z.eqb_spec 0 (size_t z)) as [Heq | Hneq];
    destruct (Z.ltb_spec 0 (size_t z)); simpl; try reflexivity; lia.
Qed.

(** ** Blocks and queues *)

Lemma model_back_nonempty (range : model.BlockRange) :
  range <> [] -> exists front last, range = front ++ [last] /\ model.back range = Some last.
Proof.
  induction range as [| block rest IH]; intros Hne.
  - contradiction.
  - destruct rest as [| block' rest'].
    + exists [], block. split; reflexivity.
    + destruct IH as (front & last & Heq & Hback); [discriminate |].
      exists (block :: front), last. split.
      * simpl. rewrite <- Heq. reflexivity.
      * exact Hback.
Qed.


Lemma model_empty_false (range : model.BlockRange) :
  model.empty range = false <-> range <> [].
Proof. destruct range; simpl; split; intros H; congruence. Qed.

(** ** C5: the completion callback *)

Lemma remove_unfold (id : disruptor.DisruptorElementId)
  (status : disruptor.CompletionStatus) (this : UnprocessedElements.t)
  (info : ElementInfo) (rest : list ElementInfo) :
  UnprocessedElements.m_elements this = info :: rest ->
  UnprocessedElements.remove id status this
  = if Id info =? id
    then
      Returns
        {| UnprocessedElements.m_blockRangeConsumer :=
             UnprocessedElements.m_blockRangeConsumer this;
           UnprocessedElements.m_elements := rest;
           UnprocessedElements.m_maxSize := UnprocessedElements.m_maxSize this;
           UnprocessedElements.m_numBytes :=
             size_t (UnprocessedElements.m_numBytes this - NumBytes info);
           UnprocessedElements.m_hasPendingSync :=
             UnprocessedElements.m_hasPendingSync this;
           UnprocessedElements.m_dirty :=
             (negb (0 =? size_t (UnprocessedElements.m_numBytes this - NumBytes info))
              || UnprocessedElements.m_hasPendingSync this)
             && negb (disruptor.CompletionStatus_eqb disruptor.Normal status) |}
    else Throws (catapult_invalid_argument "unexpected element id" id).
Proof.
  intros Hqueue.
  unfold UnprocessedElements.remove, UnprocessedElements.set_dirty,
    UnprocessedElements.set_elements, UnprocessedElements.set_numBytes,
    UnprocessedElements.hasPendingOperation, UnprocessedElements.pop.
  simpl. rewrite Hqueue. simpl.
  destruct (Id info =? id); reflexivity.
Qed.

(** C5. [remove(id, status)] on a queue that is not empty throws the
    invalid-argument error exactly when the id of the head element
    differs from [id]; on a matching id it takes the recorded size of
    the head off [m_numBytes], pops the head, and sets [m_dirty] to
    ([m_numBytes] > 0 or [m_hasPendingSync]) and [status] is not Normal,
    with [m_numBytes] read after the decrement. *)
Theorem remove_head (id : disruptor.DisruptorElementId)
  (status : disruptor.CompletionStatus) (this : UnprocessedElements.t)
  (info : ElementInfo) (rest : list ElementInfo)
  (Hqueue : UnprocessedElements.m_elements this = info :: rest) :
  ((exists e, UnprocessedElements.remove id status this = Throws e) <-> Id info <> id)
  /\ (Id info <> id ->
      UnprocessedElements.remove id status this
      = Throws (catapult_invalid_argument "unexpected element id" id))
  /\ (Id info = id ->
      exists after,
        UnprocessedElements.remove id status this = Returns after
        /\ UnprocessedElements.m_numBytes after
           = size_t (UnprocessedElements.m_numBytes this - NumBytes info)
        /\ (0 <= NumBytes info <= UnprocessedElements.m_numBytes this ->
            UnprocessedElements.m_numBytes this < 2 ^ 64 ->
            UnprocessedElements.m_numBytes after
            = UnprocessedElements.m_numBytes this - NumBytes info)
        /\ UnprocessedElements.m_elements after = rest
        /\ UnprocessedElements.m_dirty after
           = ((0 <? UnprocessedElements.m_numBytes after)
              || UnprocessedElements.m_hasPendingSync after)
             && match status with
                | disruptor.Normal => false
                | disruptor.Aborted => true
                end
        /\ UnprocessedElements.m_hasPendingSync after
           = UnprocessedElements.m_hasPendingSync this
        /\ UnprocessedElements.m_maxSize after = UnprocessedElements.m_maxSize this
        /\ UnprocessedElements.m_blockRangeConsumer after
           = UnprocessedElements.m_blockRangeConsumer this).
Proof.
  rewrite (remove_unfold id status this info rest Hqueue).
  destruct (Z.eqb_spec (Id info) id) as [Heq | Hneq].
  - split; [| split].
    + split; [intros [e He]; discriminate | intros Hneq; contradiction].
    + intros Hneq. contradiction.
    + intros _. eexists. split; [reflexivity |].
      cbn [UnprocessedElements.m_numBytes UnprocessedElements.m_elements
           UnprocessedElements.m_dirty UnprocessedElements.m_hasPendingSync
           UnprocessedElements.m_maxSize UnprocessedElements.m_blockRangeConsumer].
      repeat split.
      * intros Hbounds Hfits. apply size_t_small. lia.
      * rewrite size_t_nonzero, negb_involutive.
        destruct status; reflexivity.
  - split; [| split].
    + split; [intros _; exact Hneq | intros _; eexists; reflexivity].
    + intros _. reflexivity.
    + intros Heq. contradiction.
Qed.

Lemma remove_head_witness :
  exists after,
    UnprocessedElements.remove 7 disruptor.Aborted
      (UnprocessedElements.set_numBytes 800
         (UnprocessedElements.set_elements
            [ {| Id := 7; EndHeight := 105; NumBytes := 500 |};
              {| Id := 8; EndHeight := 108; NumBytes := 300 |} ]
            (unprocessedElements Scenario.start))) = Returns after
    /\ UnprocessedElements.m_numBytes after = size_t (800 - 500).
Proof.
  destruct (remove_head 7 disruptor.Aborted
              (UnprocessedElements.set_numBytes 800
                 (UnprocessedElements.set_elements
                    [ {| Id := 7; EndHeight := 105; NumBytes := 500 |};
                      {| Id := 8; EndHeight := 108; NumBytes := 300 |} ]
                    (unprocessedElements Scenario.start)))
              {| Id := 7; EndHeight := 105; NumBytes := 500 |}
              [ {| Id := 8; EndHeight := 108; NumBytes := 300 |} ]
              eq_refl) as (_ & _ & Hmatch).
  destruct (Hmatch eq_refl) as (after & Hreturns & Hbytes & _).
  exists after. split; [exact Hreturns | exact Hbytes].
Defined.

(** ** C6: handing a range to the pipeline *)

Lemma add_dirty (range : model.BlockRange) (this : UnprocessedElements.t)
  (history : History) :
  UnprocessedElements.m_dirty this = true ->
  UnprocessedElements.add range this history = Returns (false, (this, history)).
Proof. intros Hdirty. unfold UnprocessedElements.add. rewrite Hdirty. reflexivity. Qed.

Lemma add_clean (range : model.BlockRange) (this : UnprocessedElements.t)
  (history : History) (last : model.Block) :
  UnprocessedElements.m_dirty this = false ->
  model.back range = Some last ->
  UnprocessedElements.add range this history
  = Returns
      (true,
       ({| UnprocessedElements.m_blockRangeConsumer :=
             UnprocessedElements.m_blockRangeConsumer this;
           UnprocessedElements.m_elements :=
             UnprocessedElements.m_elements this
             ++ [ {| Id := UnprocessedElements.m_blockRangeConsumer this history range;
                     EndHeight := model.Height last;
                     NumBytes := model.totalSize range |} ];
           UnprocessedElements.m_maxSize := UnprocessedElements.m_maxSize this;
           UnprocessedElements.m_numBytes :=
             size_t (UnprocessedElements.m_numBytes this + model.totalSize range);
           UnprocessedElements.m_hasPendingSync :=
             UnprocessedElements.m_hasPendingSync this;
           UnprocessedElements.m_dirty := false |},
        history ++ [blockRangeConsumer_called range RemoveOnCompletion])).
Proof.
  intros Hdirty Hback. unfold UnprocessedElements.add.
  rewrite Hdirty, Hback.
  unfold UnprocessedElements.set_elements, UnprocessedElements.set_numBytes.
  cbn [UnprocessedElements.m_numBytes UnprocessedElements.m_elements
       UnprocessedElements.m_dirty UnprocessedElements.m_hasPendingSync
       UnprocessedElements.m_maxSize UnprocessedElements.m_blockRangeConsumer
       NumBytes].
  rewrite Hdirty. reflexivity.
Qed.

Lemma add_empty_range (this : UnprocessedElements.t) (history : History) :
  UnprocessedElements.m_dirty this = false ->
  UnprocessedElements.add [] this history = Undefined.
Proof. intros Hdirty. unfold UnprocessedElements.add. rewrite Hdirty. reflexivity. Qed.

(** C6. [add(range)] returns false exactly when [m_dirty] is set, and
    then changes nothing.  When [m_dirty] is clear (and the range has a
    last block) it calls the consumer with the range and the completion
    callback, records an element made of the id the consumer returns,
    the height of the last block and the total size of the range, adds
    that size to [m_numBytes] and returns true.  [m_maxSize] is not
    consulted: when the new total exceeds it the range is recorded all
    the same and [m_numBytes] ends above [m_maxSize]. *)
Theorem add_handoff (range : model.BlockRange) (this : UnprocessedElements.t)
  (history : History) :
  ((exists after, UnprocessedElements.add range this history = Returns (false, after))
   <-> UnprocessedElements.m_dirty this = true)
  /\ (UnprocessedElements.m_dirty this = true ->
      UnprocessedElements.add range this history = Returns (false, (this, history)))
  /\ (UnprocessedElements.m_dirty this = false ->
      forall (front : model.BlockRange) (last : model.Block),
        range = front ++ [last] ->
        exists after,
          UnprocessedElements.add range this history
          = Returns
              (true, (after, history ++ [blockRangeConsumer_called range RemoveOnCompletion]))
          /\ UnprocessedElements.m_elements after
             = UnprocessedElements.m_elements this
               ++ [ {| Id := UnprocessedElements.m_blockRangeConsumer this history range;
                       EndHeight := model.Height last;
                       NumBytes := model.totalSize range |} ]
          /\ UnprocessedElements.m_numBytes after
             = size_t (UnprocessedElements.m_numBytes this + model.totalSize range)
          /\ (0 <= UnprocessedElements.m_numBytes this ->
              UnprocessedElements.m_numBytes this + model.totalSize range < 2 ^ 64 ->
              UnprocessedElements.m_numBytes after
              = UnprocessedElements.m_numBytes this + model.totalSize range)
          /\ (0 <= UnprocessedElements.m_numBytes this ->
              UnprocessedElements.m_maxSize this
                < UnprocessedElements.m_numBytes this + model.totalSize range < 2 ^ 64 ->
              UnprocessedElements.m_maxSize after < UnprocessedElements.m_numBytes after)
          /\ UnprocessedElements.m_maxSize after = UnprocessedElements.m_maxSize this
          /\ UnprocessedElements.m_hasPendingSync after
             = UnprocessedElements.m_hasPendingSync this
          /\ UnprocessedElements.m_dirty after = false
          /\ (forall id result elements,
                UnprocessedElements.invoke RemoveOnCompletion id result elements
                = UnprocessedElements.remove id (CompletionStatus result) elements)).
Proof.
  split; [| split].
  - split.
    + intros [after Hadd]. destruct (UnprocessedElements.m_dirty this) eqn:Hdirty.
      * reflexivity.
      * unfold UnprocessedElements.add in Hadd. rewrite Hdirty in Hadd.
        destruct (model.back range); discriminate.
    + intros Hdirty. eexists. apply add_dirty. exact Hdirty.
  - apply add_dirty.
  - intros Hdirty front last Hrange.
    assert (Hback : model.back range = Some last).
    { destruct (model_back_nonempty range) as (front' & last' & Heq & Hback).
      - rewrite Hrange. destruct front; discriminate.
      - rewrite Hrange in Heq. apply app_inj_tail in Heq. destruct Heq as [_ Hlast].
        rewrite Hback. congruence. }
    eexists. split; [apply (add_clean range this history last Hdirty Hback) |].
    cbn [UnprocessedElements.m_numBytes UnprocessedElements.m_elements
         UnprocessedElements.m_dirty UnprocessedElements.m_hasPendingSync
         UnprocessedElements.m_maxSize UnprocessedElements.m_blockRangeConsumer].
    pose proof (size_t_range (model.sumSizes range)) as Htotal.
    fold (model.totalSize range) in Htotal.
    repeat split.
    + intros Hlow Hhigh. apply size_t_small. lia.
    + intros Hlow Hhigh. rewrite size_t_small; lia.
Qed.

Lemma add_handoff_witness :
  exists after,
    UnprocessedElements.add (Scenario.blocks 101 5)
      (UnprocessedElements.set_numBytes 2900 (unprocessedElements Scenario.start)) []
    = Returns
        (true,
         (after, [] ++ [blockRangeConsumer_called (Scenario.blocks 101 5) RemoveOnCompletion]))
    /\ UnprocessedElements.m_maxSize after < UnprocessedElements.m_numBytes after.
Proof.
  destruct (add_handoff (Scenario.blocks 101 5)
              (UnprocessedElements.set_numBytes 2900 (unprocessedElements Scenario.start))
              []) as (_ & _ & Hclean).
  destruct (Hclean eq_refl (Scenario.blocks 101 4)
              {| model.Height := 105; model.Size := 100 |} eq_refl)
    as (after & Hadd & _ & _ & _ & Hcap & _).
  exists after. split; [exact Hadd |].
  apply Hcap; vm_compute; [discriminate | split; reflexivity].
Defined.

(** ** C7: the byte counter accounts for the queue *)

Lemma sumNumBytes_app (elements : list ElementInfo) (info : ElementInfo) :
  sumNumBytes (elements ++ [info]) = sumNumBytes elements + NumBytes info.
Proof.
  induction elements as [| head rest IH].
  - simpl. lia.
  - change (NumBytes head + sumNumBytes (rest ++ [info])
            = NumBytes head + sumNumBytes rest + NumBytes info).
    rewrite IH. lia.
Qed.

Lemma sumNumBytes_nonneg (elements : list ElementInfo) :
  Forall (fun info => 0 <= NumBytes info) elements -> 0 <= sumNumBytes elements.
Proof.
  induction 1 as [| info rest Hinfo _ IH].
  - simpl. lia.
  - change (0 <= NumBytes info + sumNumBytes rest). lia.
Qed.

Lemma unprocessedElements_add_cases (range : model.BlockRange) (w : World)
  (admitted : bool) (w' : World) :
  unprocessedElements_add range w = Returns (admitted, w') ->
  (admitted = false /\ w' = w
   /\ UnprocessedElements.m_dirty (unprocessedElements w) = true)
  \/ (exists last,
        admitted = true
        /\ model.back range = Some last
        /\ UnprocessedElements.m_dirty (unprocessedElements w) = false
        /\ UnprocessedElements.add range (unprocessedElements w) (history w)
           = Returns (true, (unprocessedElements w', history w'))
        /\ history w' = history w ++ [blockRangeConsumer_called range RemoveOnCompletion]
        /\ UnprocessedElements.m_elements (unprocessedElements w')
           = UnprocessedElements.m_elements (unprocessedElements w)
             ++ [ {| Id := UnprocessedElements.m_blockRangeConsumer
                             (unprocessedElements w) (history w) range;
                     EndHeight := model.Height last;
                     NumBytes := model.totalSize range |} ]
        /\ UnprocessedElements.m_numBytes (unprocessedElements w')
           = size_t (UnprocessedElements.m_numBytes (unprocessedElements w)
                     + model.totalSize range)
        /\ UnprocessedElements.m_maxSize (unprocessedElements w')
           = UnprocessedElements.m_maxSize (unprocessedElements w)
        /\ UnprocessedElements.m_hasPendingSync (unprocessedElements w')
           = UnprocessedElements.m_hasPendingSync (unprocessedElements w)
        /\ UnprocessedElements.m_dirty (unprocessedElements w') = false
        /\ UnprocessedElements.m_blockRangeConsumer (unprocessedElements w')
           = UnprocessedElements.m_blockRangeConsumer (unprocessedElements w)).
Proof.
  unfold unprocessedElements_add. intros Hadd.
  destruct (UnprocessedElements.m_dirty (unprocessedElements w)) eqn:Hdirty.
  - rewrite (add_dirty _ _ _ Hdirty) in Hadd. simpl in Hadd.
    injection Hadd as Hadmitted Hw. left.
    destruct w; simpl in *. repeat split; congruence.
  - destruct (model.back range) as [last |] eqn:Hback.
    + rewrite (add_clean _ _ _ last Hdirty Hback) in Hadd. simpl in Hadd.
      injection Hadd as Hadmitted Hw. right. exists last. subst w' admitted.
      simpl. rewrite <- (add_clean _ _ _ last Hdirty Hback).
      repeat split; reflexivity.
    + unfold UnprocessedElements.add in Hadd. rewrite Hdirty, Hback in Hadd.
      discriminate.
Qed.

Lemma shouldStartSync_fields (this : UnprocessedElements.t) :
  let after := snd (UnprocessedElements.shouldStartSync this) in
  UnprocessedElements.m_elements after = UnprocessedElements.m_elements this
  /\ UnprocessedElements.m_numBytes after = UnprocessedElements.m_numBytes this
  /\ UnprocessedElements.m_maxSize after = UnprocessedElements.m_maxSize this
  /\ UnprocessedElements.m_dirty after = UnprocessedElements.m_dirty this
  /\ UnprocessedElements.m_blockRangeConsumer after
     = UnprocessedElements.m_blockRangeConsumer this.
Proof.
  unfold UnprocessedElements.shouldStartSync.
  destruct (_ || _); simpl; repeat split; reflexivity.
Qed.

Lemma clearPendingSync_fields (this : UnprocessedElements.t) :
  let after := UnprocessedElements.clearPendingSync this in
  UnprocessedElements.m_elements after = UnprocessedElements.m_elements this
  /\ UnprocessedElements.m_numBytes after = UnprocessedElements.m_numBytes this
  /\ UnprocessedElements.m_maxSize after = UnprocessedElements.m_maxSize this
  /\ UnprocessedElements.m_hasPendingSync after = false
  /\ UnprocessedElements.m_dirty after
     = UnprocessedElements.m_dirty this
       && negb (0 =? UnprocessedElements.m_numBytes this)
  /\ UnprocessedElements.m_blockRangeConsumer after
     = UnprocessedElements.m_blockRangeConsumer this.
Proof.
  unfold UnprocessedElements.clearPendingSync, UnprocessedElements.hasPendingOperation.
  cbn [UnprocessedElements.set_hasPendingSync UnprocessedElements.m_dirty
       UnprocessedElements.m_numBytes UnprocessedElements.m_hasPendingSync].
  destruct (UnprocessedElements.m_dirty this) eqn:Hdirty; simpl;
    repeat split; try reflexivity; try exact Hdirty.
  rewrite orb_false_r. reflexivity.
Qed.

Lemma remove_returns (id : disruptor.DisruptorElementId)
  (status : disruptor.CompletionStatus) (this after : UnprocessedElements.t) :
  UnprocessedElements.remove id status this = Returns after ->
  exists info rest,
    UnprocessedElements.m_elements this = info :: rest
    /\ Id info = id
    /\ UnprocessedElements.m_elements after = rest
    /\ UnprocessedElements.m_numBytes after
       = size_t (UnprocessedElements.m_numBytes this - NumBytes info)
    /\ UnprocessedElements.m_hasPendingSync after
       = UnprocessedElements.m_hasPendingSync this
    /\ UnprocessedElements.m_maxSize after = UnprocessedElements.m_maxSize this
    /\ UnprocessedElements.m_dirty after
       = UnprocessedElements.hasPendingOperation after
         && negb (disruptor.CompletionStatus_eqb disruptor.Normal status).
Proof.
  intros Hremove.
  destruct (UnprocessedElements.m_elements this) as [| info rest] eqn:Hqueue.
  - unfold UnprocessedElements.remove in Hremove. rewrite Hqueue in Hremove.
    discriminate.
  - rewrite (remove_unfold id status this info rest Hqueue) in Hremove.
    destruct (Z.eqb_spec (Id info) id) as [Heq | Hneq]; [| discriminate].
    injection Hremove as Hafter. subst after. exists info, rest.
    unfold UnprocessedElements.hasPendingOperation. simpl.
    repeat split; try reflexivity; exact Heq.
Qed.

Lemma applyOperation_accounted (w w' : World) (op : Operation) :
  bytesAccounted (unprocessedElements w) ->
  applyOperation op w = Returns w' ->
  bytesAccounted (unprocessedElements w').
Proof.
  unfold bytesAccounted. intros Hinv Happly. destruct op as [| range | id status |].
  - simpl in Happly. injection Happly as Hw'. subst w'. simpl.
    destruct (shouldStartSync_fields (unprocessedElements w)) as (He & Hn & _).
    rewrite He, Hn. exact Hinv.
  - simpl in Happly. unfold bind in Happly.
    destruct (unprocessedElements_add range w) as [[admitted w1] | | |] eqn:Hadd;
      try discriminate.
    injection Happly as Hw'. simpl in Hw'. subst w1.
    apply unprocessedElements_add_cases in Hadd.
    destruct Hadd as [(_ & Hsame & _) | (last & _ & _ & _ & _ & _ & He & Hn & _)].
    + subst w'. exact Hinv.
    + rewrite He, Hn, sumNumBytes_app, Hinv. simpl. apply size_t_add_l.
  - simpl in Happly. unfold bind in Happly.
    destruct (UnprocessedElements.remove id status (unprocessedElements w))
      as [after | | |] eqn:Hremove; try discriminate.
    injection Happly as Hw'. subst w'. simpl.
    apply remove_returns in Hremove.
    destruct Hremove as (info & rest & Hqueue & _ & He & Hn & _).
    rewrite He, Hn, Hinv, Hqueue. simpl.
    rewrite size_t_sub_l. f_equal. unfold sumNumBytes. lia.
  - simpl in Happly. injection Happly as Hw'. subst w'. simpl.
    destruct (clearPendingSync_fields (unprocessedElements w)) as (He & Hn & _).
    rewrite He, Hn. exact Hinv.
Qed.

Lemma applyOperation_sizes (w w' : World) (op : Operation) :
  Forall (fun info => 0 <= NumBytes info)
    (UnprocessedElements.m_elements (unprocessedElements w)) ->
  applyOperation op w = Returns w' ->
  Forall (fun info => 0 <= NumBytes info)
    (UnprocessedElements.m_elements (unprocessedElements w')).
Proof.
  intros Hinv Happly. destruct op as [| range | id status |].
  - simpl in Happly. injection Happly as Hw'. subst w'. simpl.
    destruct (shouldStartSync_fields (unprocessedElements w)) as (He & _).
    rewrite He. exact Hinv.
  - simpl in Happly. unfold bind in Happly.
    destruct (unprocessedElements_add range w) as [[admitted w1] | | |] eqn:Hadd;
      try discriminate.
    injection Happly as Hw'. simpl in Hw'. subst w1.
    apply unprocessedElements_add_cases in Hadd.
    destruct Hadd as [(_ & Hsame & _) | (last & _ & _ & _ & _ & _ & He & _)].
    + subst w'. exact Hinv.
    + rewrite He. apply Forall_app. split; [exact Hinv |].
      constructor; [| constructor]. simpl.
      apply (size_t_range (model.sumSizes range)).
  - simpl in Happly. unfold bind in Happly.
    destruct (UnprocessedElements.remove id status (unprocessedElements w))
      as [after | | |] eqn:Hremove; try discriminate.
    injection Happly as Hw'. subst w'. simpl.
    apply remove_returns in Hremove.
    destruct Hremove as (info & rest & Hqueue & _ & He & _).
    rewrite He. rewrite Hqueue in Hinv. inversion Hinv; assumption.
  - simpl in Happly. injection Happly as Hw'. subst w'. simpl.
    destruct (clearPendingSync_fields (unprocessedElements w)) as (He & _).
    rewrite He. exact Hinv.
Qed.

Lemma reachable_accounted (blockRangeConsumer : CompletionAwareBlockRangeConsumerFunc)
  (maxSize : Z) (w : World) :
  reachable (initialWorld blockRangeConsumer maxSize) w ->
  bytesAccounted (unprocessedElements w)
  /\ Forall (fun info => 0 <= NumBytes info)
       (UnprocessedElements.m_elements (unprocessedElements w)).
Proof.
  induction 1 as [| w w' op _ [IHbytes IHsizes] Happly].
  - split; [reflexivity | constructor].
  - split.
    + exact (applyOperation_accounted w w' op IHbytes Happly).
    + exact (applyOperation_sizes w w' op IHsizes Happly).
Qed.

(** C7. In every state reachable from the constructed object,
    [m_numBytes] is the sum of the [NumBytes] fields of the queued
    elements (the sum taken in [size_t], and the plain sum whenever that
    fits in a [size_t]); and each of [add], [remove], [shouldStartSync]
    and [clearPendingSync] preserves the equality from any state. *)
Theorem numBytes_is_queue_sum (blockRangeConsumer : CompletionAwareBlockRangeConsumerFunc)
  (maxSize : Z) (w : World)
  (Hreachable : reachable (initialWorld blockRangeConsumer maxSize) w) :
  UnprocessedElements.m_numBytes (unprocessedElements w)
  = size_t (sumNumBytes (UnprocessedElements.m_elements (unprocessedElements w)))
  /\ (sumNumBytes (UnprocessedElements.m_elements (unprocessedElements w)) < 2 ^ 64 ->
      UnprocessedElements.m_numBytes (unprocessedElements w)
      = sumNumBytes (UnprocessedElements.m_elements (unprocessedElements w)))
  /\ (forall (w1 w2 : World) (op : Operation),
        bytesAccounted (unprocessedElements w1) ->
        applyOperation op w1 = Returns w2 ->
        bytesAccounted (unprocessedElements w2)).
Proof.
  destruct (reachable_accounted _ _ _ Hreachable) as [Hbytes Hsizes].
  split; [exact Hbytes | split].
  - intros Hfits. rewrite Hbytes. apply size_t_small.
    split; [apply sumNumBytes_nonneg; exact Hsizes | exact Hfits].
  - exact applyOperation_accounted.
Qed.

Lemma run_reachable (w0 : World) (ops : list Operation) :
  forall w1 w : World,
    reachable w0 w1 -> run ops w1 = Returns w -> reachable w0 w.
Proof.
  induction ops as [| op rest IH]; intros w1 w Hreach Hrun.
  - simpl in Hrun. injection Hrun as Hw. subst w. exact Hreach.
  - simpl in Hrun. unfold bind in Hrun.
    destruct (applyOperation op w1) as [w2 | | |] eqn:Happly; try discriminate.
    apply (IH w2 w); [| exact Hrun].
    exact (reachable_step w0 w1 w2 op Hreach Happly).
Qed.

Lemma numBytes_is_queue_sum_witness :
  exists w : World,
    run Scenario.threeInFlight Scenario.start = Returns w
    /\ UnprocessedElements.m_numBytes (unprocessedElements w)
       = size_t (sumNumBytes (UnprocessedElements.m_elements (unprocessedElements w)))
    /\ UnprocessedElements.m_numBytes (unprocessedElements w) = 1500.
Proof.
  eexists. split; [vm_compute; reflexivity |].
  split; [| reflexivity].
  refine (proj1 (numBytes_is_queue_sum Scenario.numberingConsumer 3000 _ _)).
  apply (run_reachable _ Scenario.threeInFlight _ _ (reachable_start _)).
  vm_compute. reflexivity.
Defined.

(** ** C4: the gate *)




(** The same happens at every width of the configuration's arithmetic:
    with the largest value the field can hold, the cap falls three short
    of [2 ^ productBits] and the gate is shut at that many bytes. *)
Lemma cap_wraps_at_every_width (productBits : Z)
  (blockRangeConsumer : CompletionAwareBlockRangeConsumerFunc) :
  2 <= productBits ->
  let config :=
    {| MaxBlocksPerSyncAttempt := 84;
       MaxChainBytesPerSyncAttempt := 2 ^ productBits - 1;
       MaxRollbackBlocks := 40 |} in
  let this :=
    UnprocessedElements.set_numBytes (2 ^ productBits - 3)
      (DefaultChainSynchronizer_unprocessedElements productBits config blockRangeConsumer) in
  UnprocessedElements.m_maxSize this = 2 ^ productBits - 3
  /\ ~ gateAtThreeTimesMax config this.
Proof.
  intros Hwidth config this.
  assert (Hpower : 4 <= 2 ^ productBits).
  { change 4 with (2 ^ 2). apply Z.pow_le_mono_r; lia. }
  assert (Hcap : UnprocessedElements.m_maxSize this = 2 ^ productBits - 3).
  { subst this config. cbn [UnprocessedElements.m_maxSize UnprocessedElements.set_numBytes].
    unfold DefaultChainSynchronizer_unprocessedElements, maxUnprocessedBytes.
    cbn [UnprocessedElements.m_maxSize UnprocessedElements.make
         MaxChainBytesPerSyncAttempt].
    replace (3 * (2 ^ productBits - 1))
      with (2 ^ productBits - 3 + 2 * 2 ^ productBits) by lia.
    rewrite Z.mod_add by lia. apply Z.mod_small. lia. }
  split; [exact Hcap |].
  intros [_ Hopen].
  assert (Hstarted : fst (UnprocessedElements.shouldStartSync this) = true).
  { apply Hopen. subst this config.
    cbn [UnprocessedElements.m_numBytes UnprocessedElements.set_numBytes
         UnprocessedElements.m_hasPendingSync UnprocessedElements.m_dirty
         DefaultChainSynchronizer_unprocessedElements UnprocessedElements.make
         MaxChainBytesPerSyncAttempt].
    repeat split; try reflexivity. lia. }
  unfold UnprocessedElements.shouldStartSync in Hstarted. rewrite Hcap in Hstarted.
  assert (Hbytes : UnprocessedElements.m_numBytes this = 2 ^ productBits - 3)
    by reflexivity.
  rewrite Hbytes, Z.leb_refl in Hstarted. simpl in Hstarted. discriminate.
Qed.



(** ** C1: the life cycle of the dirty flag *)

Lemma reachable_dirty_pending (w0 w : World) :
  UnprocessedElements.m_dirty (unprocessedElements w0) = false ->
  reachable w0 w ->
  UnprocessedElements.m_dirty (unprocessedElements w) = true ->
  UnprocessedElements.hasPendingOperation (unprocessedElements w) = true.
Proof.
  intros Hstart Hreach. induction Hreach as [| w w' op _ IH Happly]; intros Hdirty.
  - congruence.
  - destruct op as [| range | id status |].
    + simpl in Happly. injection Happly as Hw'. subst w'. simpl in *.
      revert Hdirty. unfold UnprocessedElements.shouldStartSync.
      destruct (_ || _) eqn:Hgate; simpl; intros Hdirty.
      * apply IH. exact Hdirty.
      * unfold UnprocessedElements.hasPendingOperation. simpl.
        apply orb_true_r.
    + simpl in Happly. unfold bind in Happly.
      destruct (unprocessedElements_add range w) as [[admitted w1] | | |] eqn:Hadd;
        try discriminate.
      injection Happly as Hw'. simpl in Hw'. subst w1.
      apply unprocessedElements_add_cases in Hadd.
      destruct Hadd as [(_ & Hsame & _) | (last & Hadd)].
      * subst w'. apply IH. exact Hdirty.
      * destruct Hadd as (_ & _ & _ & _ & _ & _ & _ & _ & _ & Hclean & _).
        congruence.
    + simpl in Happly. unfold bind in Happly.
      destruct (UnprocessedElements.remove id status (unprocessedElements w))
        as [after | | |] eqn:Hremove; try discriminate.
      injection Happly as Hw'. subst w'. simpl in *.
      apply remove_returns in Hremove.
      destruct Hremove as (info & rest & _ & _ & _ & _ & _ & _ & Hflag).
      rewrite Hflag in Hdirty. apply andb_true_iff in Hdirty. tauto.
    + simpl in Happly. injection Happly as Hw'. subst w'. simpl in *.
      destruct (clearPendingSync_fields (unprocessedElements w))
        as (_ & Hn & _ & Hp & Hd & _).
      unfold UnprocessedElements.hasPendingOperation.
      rewrite Hn, Hp. rewrite Hd in Hdirty. apply andb_true_iff in Hdirty.
      rewrite orb_false_r. tauto.
Qed.

(** C1, as the code has it.  A [remove] whose status is not Normal and
    after which an operation is pending sets [m_dirty].  The flag then
    stays set across every operation that is not a [remove] with Normal
    status, as long as an operation is pending afterwards; the [remove]
    or [clearPendingSync] after which nothing is pending clears it, so in
    reachable states a set flag comes with a pending operation; and a
    [remove] with Normal status clears it whatever is pending. *)
Theorem dirty_flag_lifecycle (blockRangeConsumer : CompletionAwareBlockRangeConsumerFunc)
  (maxSize : Z) (w w' : World) (op : Operation)
  (Hreachable : reachable (initialWorld blockRangeConsumer maxSize) w)
  (Happly : applyOperation op w = Returns w') :
  (forall id status,
     op = Op_remove id status ->
     status <> disruptor.Normal ->
     UnprocessedElements.hasPendingOperation (unprocessedElements w') = true ->
     UnprocessedElements.m_dirty (unprocessedElements w') = true)
  /\ (UnprocessedElements.m_dirty (unprocessedElements w) = true ->
      isNormalRemove op = false ->
      UnprocessedElements.hasPendingOperation (unprocessedElements w') = true ->
      UnprocessedElements.m_dirty (unprocessedElements w') = true)
  /\ (UnprocessedElements.hasPendingOperation (unprocessedElements w') = false ->
      UnprocessedElements.m_dirty (unprocessedElements w') = false)
  /\ (isNormalRemove op = true ->
      UnprocessedElements.m_dirty (unprocessedElements w') = false).
Proof.
  assert (Hinv : UnprocessedElements.m_dirty (unprocessedElements w') = true ->
                 UnprocessedElements.hasPendingOperation (unprocessedElements w') = true).
  { apply (reachable_dirty_pending (initialWorld blockRangeConsumer maxSize));
      [reflexivity |].
    exact (reachable_step _ w w' op Hreachable Happly). }
  split; [| split; [| split]].
  - intros id status Hop Hstatus Hpending. subst op.
    simpl in Happly. unfold bind in Happly.
    destruct (UnprocessedElements.remove id status (unprocessedElements w))
      as [after | | |] eqn:Hremove; try discriminate.
    injection Happly as Hw'. subst w'. simpl in *.
    apply remove_returns in Hremove.
    destruct Hremove as (info & rest & _ & _ & _ & _ & _ & _ & Hflag).
    rewrite Hflag, Hpending. destruct status; [contradiction | reflexivity].
  - intros Hdirty Hop Hpending. destruct op as [| range | id status |].
    + simpl in Happly. injection Happly as Hw'. subst w'. simpl in *.
      destruct (shouldStartSync_fields (unprocessedElements w)) as (_ & _ & _ & Hd & _).
      rewrite Hd. exact Hdirty.
    + simpl in Happly. unfold bind in Happly.
      destruct (unprocessedElements_add range w) as [[admitted w1] | | |] eqn:Hadd;
        try discriminate.
      injection Happly as Hw'. simpl in Hw'. subst w1.
      apply unprocessedElements_add_cases in Hadd.
      destruct Hadd as [(_ & Hsame & _) | (last & _ & _ & Hclean & _)].
      * subst w'. exact Hdirty.
      * congruence.
    + simpl in Happly. unfold bind in Happly.
      destruct (UnprocessedElements.remove id status (unprocessedElements w))
        as [after | | |] eqn:Hremove; try discriminate.
      injection Happly as Hw'. subst w'. simpl in *.
      apply remove_returns in Hremove.
      destruct Hremove as (info & rest & _ & _ & _ & _ & _ & _ & Hflag).
      rewrite Hflag, Hpending. destruct status; [discriminate | reflexivity].
    + simpl in Happly. injection Happly as Hw'. subst w'. simpl in *.
      destruct (clearPendingSync_fields (unprocessedElements w))
        as (_ & Hn & _ & Hp & Hd & _).
      unfold UnprocessedElements.hasPendingOperation in Hpending.
      rewrite Hn, Hp, orb_false_r in Hpending.
      rewrite Hd, Hdirty, Hpending. reflexivity.
  - intros Hquiet.
    destruct (UnprocessedElements.m_dirty (unprocessedElements w')); [| reflexivity].
    rewrite Hinv in Hquiet; [discriminate | reflexivity].
  - intros Hop. destruct op as [| range | id [|] |]; try discriminate.
    simpl in Happly. unfold bind in Happly.
    destruct (UnprocessedElements.remove id disruptor.Normal (unprocessedElements w))
      as [after | | |] eqn:Hremove; try discriminate.
    injection Happly as Hw'. subst w'. simpl in *.
    apply remove_returns in Hremove.
    destruct Hremove as (info & rest & _ & _ & _ & _ & _ & _ & Hflag).
    rewrite Hflag. apply andb_false_r.
Qed.

Lemma dirty_flag_lifecycle_witness :
  exists w w' : World,
    run Scenario.threeInFlight Scenario.start = Returns w
    /\ applyOperation (Op_remove 1 disruptor.Aborted) w = Returns w'
    /\ UnprocessedElements.m_dirty (unprocessedElements w') = true.
Proof.
  eexists. eexists.
  split; [vm_compute; reflexivity |].
  split; [vm_compute; reflexivity |].
  refine (proj1 (dirty_flag_lifecycle Scenario.numberingConsumer 3000 _ _
                   (Op_remove 1 disruptor.Aborted) _ _)
            1 disruptor.Aborted eq_refl _ _).
  - apply (run_reachable _ Scenario.threeInFlight _ _ (reachable_start _)).
    vm_compute. reflexivity.
  - vm_compute. reflexivity.
  - discriminate.
  - vm_compute. reflexivity.
Defined.

(** The wording of the specification fails on the code: with three
    ranges in flight, the first completing aborted sets the flag and the
    second completing normally clears it while the third is pending. *)
Lemma dirty_cleared_while_pending : ~ dirtyUntilQuiescence Scenario.start.
Proof.
  intros Hclaim.
  destruct (run (Scenario.threeInFlight ++ [Op_remove 1 disruptor.Aborted])
              Scenario.start) as [w | | |] eqn:Hrun;
    try (vm_compute in Hrun; discriminate).
  destruct (applyOperation (Op_remove 2 disruptor.Normal) w) as [w' | | |] eqn:Hstep.
  - assert (Hreach : reachable Scenario.start w).
    { exact (run_reachable _ _ _ _ (reachable_start _) Hrun). }
    assert (Hdirty : UnprocessedElements.m_dirty (unprocessedElements w) = true).
    { vm_compute in Hrun. injection Hrun as Hw. subst w. reflexivity. }
    assert (Hafter : UnprocessedElements.hasPendingOperation (unprocessedElements w') = true
                     /\ UnprocessedElements.m_dirty (unprocessedElements w') = false).
    { vm_compute in Hrun. injection Hrun as Hw. subst w.
      vm_compute in Hstep. injection Hstep as Hw'. subst w'.
      split; reflexivity. }
    destruct Hafter as [Hpending Hclean].
    pose proof (Hclaim w w' (Op_remove 2 disruptor.Normal) Hreach Hdirty Hstep Hpending).
    congruence.
  - vm_compute in Hrun. injection Hrun as Hw. subst w. vm_compute in Hstep. discriminate.
  - vm_compute in Hrun. injection Hrun as Hw. subst w. vm_compute in Hstep. discriminate.
  - vm_compute in Hrun. injection Hrun as Hw. subst w. vm_compute in Hstep. discriminate.
Qed.

(** ** C10: [remove] is never called on an empty queue *)

Lemma count_occ_removeFirst (id x : Z) (ids : list Z) :
  count_occ Z.eq_dec (removeFirst id ids) x
  = if Z.eq_dec id x then Nat.pred (count_occ Z.eq_dec ids x)
    else count_occ Z.eq_dec ids x.
Proof.
  induction ids as [| id' rest IH]; simpl.
  - destruct (Z.eq_dec id x); reflexivity.
  - destruct (Z.eqb_spec id' id) as [Heq | Hneq].
    + subst id'. destruct (Z.eq_dec id x); reflexivity.
    + simpl. rewrite IH.
      destruct (Z.eq_dec id' x) as [Hx | Hx]; destruct (Z.eq_dec id x) as [Hi | Hi];
        try reflexivity.
      congruence.
Qed.

Lemma remove_undefined_iff (id : disruptor.DisruptorElementId)
  (status : disruptor.CompletionStatus) (this : UnprocessedElements.t) :
  UnprocessedElements.remove id status this = Undefined
  <-> UnprocessedElements.front (UnprocessedElements.m_elements this) = None.
Proof.
  unfold UnprocessedElements.remove.
  destruct (UnprocessedElements.front (UnprocessedElements.m_elements this)) as [info |].
  - destruct (negb (Id info =? id)); split; intros H; discriminate.
  - split; reflexivity.
Qed.

Lemma pipelineStep_inFlightQueued (p p' : Pipeline) :
  inFlightQueued p -> pipelineStep p p' -> inFlightQueued p'.
Proof.
  unfold inFlightQueued. intros Hinv Hstep x. specialize (Hinv x).
  destruct Hstep as [p w' Happly | p w' Happly | p range w' Hadd | p range w' Hadd
                    | p id result elements Hin Hcall | p id result e Hin Hcall];
    cbn [world inFlight].
  - simpl in Happly. injection Happly as Hw'. subst w'. simpl.
    destruct (shouldStartSync_fields (unprocessedElements (world p))) as (He & _).
    simpl in He. rewrite He. exact Hinv.
  - simpl in Happly. injection Happly as Hw'. subst w'. simpl.
    destruct (clearPendingSync_fields (unprocessedElements (world p))) as (He & _).
    simpl in He. rewrite He. exact Hinv.
  - apply unprocessedElements_add_cases in Hadd.
    destruct Hadd as [(Habs & _) | (last & _ & _ & _ & _ & _ & He & _)];
      [discriminate |].
    rewrite He, map_app, !count_occ_app. simpl.
    apply Nat.add_le_mono; [exact Hinv | apply Nat.le_refl].
  - apply unprocessedElements_add_cases in Hadd.
    destruct Hadd as [(_ & Hsame & _) | (last & Habs & _)]; [| discriminate].
    subst w'. exact Hinv.
  - simpl in Hcall. apply remove_returns in Hcall.
    destruct Hcall as (info & rest & Hqueue & Hid & He & _).
    simpl. rewrite He. rewrite Hqueue in Hinv. simpl in Hinv.
    rewrite count_occ_removeFirst. rewrite Hid in Hinv.
    destruct (Z.eq_dec id x); lia.
  - rewrite count_occ_removeFirst. destruct (Z.eq_dec id x); lia.
Qed.

Lemma pipelineReachable_inFlightQueued (w0 : World) (p : Pipeline) :
  pipelineReachable w0 p -> inFlightQueued p.
Proof.
  induction 1 as [| p p' _ IH Hstep].
  - intros x. simpl. lia.
  - exact (pipelineStep_inFlightQueued p p' IH Hstep).
Qed.

(** C10. [remove] reads the head of the queue unchecked: its behaviour
    is undefined exactly on an empty queue, which the embedding shows by
    an optional head.  Along every run of the protocol in which a
    completion callback fires only for a range that was handed off and
    has not completed yet, the element of every id in flight is queued,
    the head exists, and the callback does not reach the undefined
    branch. *)
Theorem completion_callback_defined (w0 : World) (p : Pipeline)
  (id : disruptor.DisruptorElementId) (result : ConsumerCompletionResult)
  (Hreachable : pipelineReachable w0 p)
  (HinFlight : In id (inFlight p)) :
  (forall id' status this,
     UnprocessedElements.remove id' status this = Undefined
     <-> UnprocessedElements.m_elements this = [])
  /\ (exists info,
        In info (UnprocessedElements.m_elements (unprocessedElements (world p)))
        /\ Id info = id)
  /\ UnprocessedElements.front
       (UnprocessedElements.m_elements (unprocessedElements (world p))) <> None
  /\ UnprocessedElements.invoke RemoveOnCompletion id result
       (unprocessedElements (world p)) <> Undefined.
Proof.
  assert (Hqueued :
    exists info,
      In info (UnprocessedElements.m_elements (unprocessedElements (world p)))
      /\ Id info = id).
  { pose proof (pipelineReachable_inFlightQueued w0 p Hreachable id) as Hcount.
    apply (count_occ_In Z.eq_dec) in HinFlight.
    assert (Hin : In id (map Id (UnprocessedElements.m_elements
                                   (unprocessedElements (world p))))).
    { apply (count_occ_In Z.eq_dec). lia. }
    apply in_map_iff in Hin. destruct Hin as (info & Hid & Hin).
    exists info. split; assumption. }
  assert (Hfront :
    UnprocessedElements.front
      (UnprocessedElements.m_elements (unprocessedElements (world p))) <> None).
  { destruct Hqueued as (info & Hin & _).
    destruct (UnprocessedElements.m_elements (unprocessedElements (world p)));
      [contradiction | discriminate]. }
  split; [| split; [exact Hqueued | split; [exact Hfront |]]].
  - intros id' status this. rewrite remove_undefined_iff.
    destruct (UnprocessedElements.m_elements this); simpl; split; intros H;
      congruence.
  - simpl. rewrite remove_undefined_iff. exact Hfront.
Qed.

Lemma completion_callback_defined_witness :
  In 1 (inFlight Scenario.oneInFlight)
  /\ UnprocessedElements.invoke RemoveOnCompletion 1
       {| CompletionStatus := disruptor.Normal |}
       (unprocessedElements (world Scenario.oneInFlight)) <> Undefined.
Proof.
  assert (Hadd : unprocessedElements_add (Scenario.blocks 101 5) Scenario.start
                 = Returns (true, Scenario.afterHandoff)).
  { vm_compute. reflexivity. }
  assert (Hin : In 1 (inFlight Scenario.oneInFlight)).
  { left. reflexivity. }
  split; [exact Hin |].
  refine (proj2 (proj2 (proj2
    (completion_callback_defined Scenario.start Scenario.oneInFlight 1
       {| CompletionStatus := disruptor.Normal |} _ Hin)))).
  exact (pipeline_step Scenario.start
           {| world := Scenario.start; inFlight := [] |} Scenario.oneInFlight
           (pipeline_start Scenario.start)
           (step_add_handed {| world := Scenario.start; inFlight := [] |}
              (Scenario.blocks 101 5) Scenario.afterHandoff Hadd)).
Defined.

(* ================================================================= *)
(** ** The pull loop, step by step *)

Lemma unprocessedElements_add_neverThrows (range : model.BlockRange) (w : World) :
  neverThrows (unprocessedElements_add range w).
Proof.
  intros e. unfold unprocessedElements_add, UnprocessedElements.add.
  destruct (UnprocessedElements.m_dirty (unprocessedElements w)); simpl;
    [discriminate |].
  destruct (model.back range); simpl; discriminate.
Qed.

Lemma CompleteChainBlocksFrom_neverThrows (rangeAggregator : RangeAggregator.t)
  (w : World) : neverThrows (CompleteChainBlocksFrom rangeAggregator w).
Proof.
  intros e. unfold CompleteChainBlocksFrom.
  destruct (RangeAggregator.empty rangeAggregator); [discriminate |].
  pose proof (unprocessedElements_add_neverThrows
                (RangeAggregator.merge rangeAggregator) w) as Hadd.
  destruct (unprocessedElements_add (RangeAggregator.merge rangeAggregator) w)
    as [added | e' | |]; simpl; try discriminate.
  exfalso. exact (Hadd e' eq_refl).
Qed.

Lemma ChainBlocksFrom_neverThrows (fuel : nat) (futureSupplier : FutureSupplier) :
  forall (height : Height) (forkDepth : Z) (aggregator : RangeAggregator.t) (w : World),
    neverThrows (ChainBlocksFrom fuel futureSupplier height forkDepth aggregator w).
Proof.
  induction fuel as [| fuel IH]; intros height forkDepth aggregator w e.
  - discriminate.
  - simpl. destruct (futureSupplier height w) as [blocksFuture w1].
    unfold compose. destruct blocksFuture as [range | e'].
    + simpl.
      match goal with
      | |- context [try_catch_runtime_error ?body _] =>
          assert (Hbody : neverThrows body)
      end.
      { destruct (model.empty range).
        - apply CompleteChainBlocksFrom_neverThrows.
        - destruct (model.back range) as [last |]; [| discriminate].
          destruct (forkDepth <=? _).
          + apply CompleteChainBlocksFrom_neverThrows.
          + apply IH. }
      match goal with
      | |- context [try_catch_runtime_error ?body _] =>
          destruct body as [result | e'' | |]
      end; simpl; try discriminate.
      exfalso. exact (Hbody e'' eq_refl).
    + destruct e'; simpl; discriminate.
Qed.

Lemma ChainBlocksFrom_unfold (fuel : nat) (futureSupplier : FutureSupplier)
  (height : Height) (forkDepth : Z) (aggregator : RangeAggregator.t) (w : World) :
  ChainBlocksFrom (S fuel) futureSupplier height forkDepth aggregator w
  = let w1 := snd (futureSupplier height w) in
    match fst (futureSupplier height w) with
    | failed (catapult_runtime_error _) => Returns (make_ready_future Failure, w1)
    | failed e => Returns (failed e, w1)
    | ready range =>
        if model.empty range
        then CompleteChainBlocksFrom aggregator w1
        else
          match model.back range with
          | None => Undefined
          | Some last =>
              if forkDepth
                 <=? RangeAggregator.numBlocks (RangeAggregator.add range aggregator)
              then CompleteChainBlocksFrom (RangeAggregator.add range aggregator) w1
              else
                ChainBlocksFrom fuel futureSupplier
                  (Height_add (model.Height last) 1) forkDepth
                  (RangeAggregator.add range aggregator) w1
          end
    end.
Proof.
  simpl. destruct (futureSupplier height w) as [blocksFuture w1]. simpl.
  destruct blocksFuture as [range | e].
  - simpl.
    match goal with
    | |- _ = ?rhs =>
        assert (Hbody : neverThrows rhs)
    end.
    { destruct (model.empty range).
      - apply CompleteChainBlocksFrom_neverThrows.
      - destruct (model.back range) as [last |]; [| discriminate].
        destruct (forkDepth <=? _).
        + apply CompleteChainBlocksFrom_neverThrows.
        + apply ChainBlocksFrom_neverThrows. }
    match goal with
    | |- _ = ?rhs => destruct rhs as [result | e | |]
    end; simpl; try reflexivity.
    exfalso. exact (Hbody e eq_refl).
  - destruct e; reflexivity.
Qed.


(** ** C3: the pull loop does what the specification describes *)





(* ================================================================= *)
(** ** One round of the synchronizer *)

Section Round.

Variable CompareChains : CompareChainsFunc.

Lemma set_unprocessedElements_same (w : World) :
  set_unprocessedElements (unprocessedElements w) w = w.
Proof. destruct w. reflexivity. Qed.

Lemma syncWithPeer_equal (fuel : nat) (this : DefaultChainSynchronizer)
  (remoteApi : RemoteApi) (compareResult : CompareChainsResult) (w : World) :
  Code compareResult = Remote_Reported_Equal_Chain_Score ->
  syncWithPeer fuel this remoteApi compareResult w
  = let knownShortHashes := m_shortHashesSupplier this (history w) in
    let w1 := record (unconfirmedTransactions_called knownShortHashes) w in
    match unconfirmedTransactions (pTransactionApi remoteApi) (history w) knownShortHashes with
    | ready range =>
        Returns (ready Neutral, record (transactionRangeConsumer_called range) w1)
    | failed (catapult_runtime_error _) => Returns (ready Failure, w1)
    | failed e => Returns (failed e, w1)
    end.
Proof.
  intros Hcode. unfold syncWithPeer. rewrite Hcode. unfold then_.
  destruct (unconfirmedTransactions _ _ _) as [range | e]; simpl.
  - reflexivity.
  - destruct e; reflexivity.
Qed.

Lemma syncWithPeer_neverThrows (fuel : nat) (this : DefaultChainSynchronizer)
  (remoteApi : RemoteApi) (compareResult : CompareChainsResult) (w : World) :
  neverThrows (syncWithPeer fuel this remoteApi compareResult w).
Proof.
  intros e. destruct (Code compareResult) eqn:Hcode.
  - rewrite (syncWithPeer_equal _ _ _ _ _ Hcode). simpl.
    destruct (unconfirmedTransactions _ _ _) as [range | e']; [discriminate |].
    destruct e'; discriminate.
  - unfold syncWithPeer. rewrite Hcode. discriminate.
  - unfold syncWithPeer. rewrite Hcode. apply ChainBlocksFrom_neverThrows.
  - unfold syncWithPeer. rewrite Hcode. discriminate.
  - unfold syncWithPeer. rewrite Hcode. discriminate.
Qed.

Lemma operator_call_refused (fuel : nat) (this : DefaultChainSynchronizer)
  (remoteApi : RemoteApi) (w : World) :
  fst (UnprocessedElements.shouldStartSync (unprocessedElements w)) = false ->
  operator_call CompareChains fuel this remoteApi w
  = Returns (make_ready_future Neutral, w).
Proof.
  intros Hgate. unfold operator_call.
  pose proof (shouldStartSync_fields (unprocessedElements w)) as _.
  unfold UnprocessedElements.shouldStartSync in *.
  destruct (_ || _); simpl in *; [| discriminate].
  rewrite set_unprocessedElements_same. reflexivity.
Qed.

Lemma operator_call_started (fuel : nat) (this : DefaultChainSynchronizer)
  (remoteApi : RemoteApi) (w : World) :
  fst (UnprocessedElements.shouldStartSync (unprocessedElements w)) = true ->
  operator_call CompareChains fuel this remoteApi w
  = let w0 :=
      set_unprocessedElements
        (UnprocessedElements.set_hasPendingSync true (unprocessedElements w)) w in
    let compared := compareChains CompareChains this remoteApi w0 in
    match fst compared with
    | ready compareResult =>
        thenClearPendingSync
          (syncWithPeer fuel this remoteApi compareResult (snd compared))
    | failed (catapult_runtime_error _) =>
        Returns (make_ready_future Failure, clearPendingSync (snd compared))
    | failed e => Returns (failed e, clearPendingSync (snd compared))
    end.
Proof.
  intros Hgate. unfold operator_call.
  unfold UnprocessedElements.shouldStartSync in *.
  destruct (_ || _); simpl in Hgate; [discriminate |].
  cbn [negb fst snd]. cbv zeta.
  destruct (compareChains CompareChains this remoteApi _) as [compareChainsFuture w1].
  cbn [fst snd]. unfold compose at 2.
  destruct compareChainsFuture as [compareResult | e].
  - cbn [get bind].
    pose proof (syncWithPeer_neverThrows fuel this remoteApi compareResult w1) as Hsync.
    destruct (syncWithPeer fuel this remoteApi compareResult w1)
      as [[nodeInteractionFuture w2] | e | |]; simpl; try reflexivity.
    exfalso. exact (Hsync e eq_refl).
  - destruct e; reflexivity.
Qed.

(** *** What a pull adds to the history *)

Lemma unprocessedElements_add_defined (range : model.BlockRange) (w : World) :
  range <> [] ->
  exists admitted w',
    unprocessedElements_add range w = Returns (admitted, w')
    /\ (history w' = history w
        \/ history w' = history w ++ [blockRangeConsumer_called range RemoveOnCompletion]).
Proof.
  intros Hrange. destruct (model_back_nonempty range Hrange) as (front & last & _ & Hback).
  unfold unprocessedElements_add.
  destruct (UnprocessedElements.m_dirty (unprocessedElements w)) eqn:Hdirty.
  - rewrite (add_dirty _ _ _ Hdirty). simpl. eexists. eexists.
    split; [reflexivity |]. left. reflexivity.
  - rewrite (add_clean _ _ _ last Hdirty Hback). simpl. eexists. eexists.
    split; [reflexivity |]. right. reflexivity.
Qed.

Lemma aggregatorConsistent_make : aggregatorConsistent RangeAggregator.make.
Proof. split; [constructor | reflexivity]. Qed.

Lemma aggregatorConsistent_add (range : model.BlockRange) (aggregator : RangeAggregator.t) :
  aggregatorConsistent aggregator ->
  range <> [] ->
  aggregatorConsistent (RangeAggregator.add range aggregator).
Proof.
  intros [Hranges _] Hrange. split; simpl.
  - apply Forall_app. split; [exact Hranges | constructor; [exact Hrange | constructor]].
  - intros Hnil. destruct (RangeAggregator.m_ranges aggregator); discriminate.
Qed.

Lemma aggregatorConsistent_merge (aggregator : RangeAggregator.t) :
  aggregatorConsistent aggregator ->
  RangeAggregator.m_numBlocks aggregator <> 0 ->
  RangeAggregator.merge aggregator <> [].
Proof.
  intros [Hranges Hnil] Hcount. unfold RangeAggregator.merge, model.MergeRanges.
  destruct (RangeAggregator.m_ranges aggregator) as [| range rest].
  - exfalso. apply Hcount. apply Hnil. reflexivity.
  - inversion Hranges as [| ? ? Hrange _]. subst. simpl.
    destruct range; [contradiction | discriminate].
Qed.

Lemma CompleteChainBlocksFrom_returns (aggregator : RangeAggregator.t) (w : World) :
  aggregatorConsistent aggregator ->
  exists interaction w',
    CompleteChainBlocksFrom aggregator w = Returns (ready interaction, w')
    /\ interaction <> Failure
    /\ (history w' = history w
        \/ history w'
           = history w
             ++ [blockRangeConsumer_called (RangeAggregator.merge aggregator)
                   RemoveOnCompletion]).
Proof.
  intros Hconsistent. unfold CompleteChainBlocksFrom, RangeAggregator.empty.
  destruct (Z.eqb_spec 0 (RangeAggregator.m_numBlocks aggregator)) as [Hzero | Hsome].
  - exists Neutral, w. split; [reflexivity |]. split; [discriminate |]. left. reflexivity.
  - assert (Hmerged : RangeAggregator.merge aggregator <> []).
    { apply aggregatorConsistent_merge; [exact Hconsistent | lia]. }
    destruct (unprocessedElements_add_defined _ w Hmerged)
      as (admitted & w' & Hadd & Hhistory).
    rewrite Hadd. simpl.
    exists (if admitted then Success else Neutral), w'.
    split; [reflexivity |]. split; [destruct admitted; discriminate | exact Hhistory].
Qed.

(** A pull that starts from a consistent aggregator returns or is still
    running when the fuel is spent: it is neither undefined nor does it
    throw. *)
Lemma ChainBlocksFrom_defined (fuel : nat) (futureSupplier : FutureSupplier)
  (forkDepth : Z) :
  forall (height : Height) (aggregator : RangeAggregator.t) (w : World),
    aggregatorConsistent aggregator ->
    ChainBlocksFrom fuel futureSupplier height forkDepth aggregator w = OutOfFuel
    \/ exists result,
         ChainBlocksFrom fuel futureSupplier height forkDepth aggregator w
         = Returns result.
Proof.
  induction fuel as [| fuel IH]; intros height aggregator w Hconsistent.
  - left. reflexivity.
  - rewrite ChainBlocksFrom_unfold. cbv zeta.
    destruct (fst (futureSupplier height w)) as [range | e].
    + destruct range as [| block rest] eqn:Hrange.
      * cbn [model.empty]. right.
        destruct (CompleteChainBlocksFrom_returns aggregator
                    (snd (futureSupplier height w)) Hconsistent)
          as (interaction & w' & Hcomplete & _).
        eexists. exact Hcomplete.
      * rewrite <- Hrange.
        assert (Hnonempty : range <> []) by (rewrite Hrange; discriminate).
        destruct (model_back_nonempty range Hnonempty) as (front & last & _ & Hback).
        pose proof Hnonempty as Hempty. apply model_empty_false in Hempty.
        rewrite Hempty, Hback.
        pose proof (aggregatorConsistent_add range aggregator Hconsistent Hnonempty)
          as Hadded.
        destruct (forkDepth <=? _).
        -- right.
           destruct (CompleteChainBlocksFrom_returns _
                       (snd (futureSupplier height w)) Hadded)
             as (interaction & w' & Hcomplete & _).
           eexists. exact Hcomplete.
        -- apply IH. exact Hadded.
    + right. destruct e; eexists; reflexivity.
Qed.












(** *** C2: the dispatch on the verdict *)

Lemma thenClearPendingSync_returns (outcome : Outcome (NodeInteractionFuture * World))
  (nodeInteractionFuture : NodeInteractionFuture) (w' : World) :
  thenClearPendingSync outcome = Returns (nodeInteractionFuture, w') ->
  exists w2,
    outcome = Returns (nodeInteractionFuture, w2)
    /\ w' = clearPendingSync w2
    /\ history w' = history w2.
Proof.
  destruct outcome as [[f w2] | | |]; simpl; intros Hreturns; try discriminate.
  injection Hreturns as Hf Hw. subst. exists w2. repeat split; reflexivity.
Qed.

(** C2. One invocation of the synchronizer.  If [shouldStartSync]
    returns false the future is ready with Neutral and nothing else
    happens.  Otherwise, for a comparison that resolved to
    [compareResult]: on equal scores the peer's unconfirmed transactions
    are requested with what the short hashes supplier returns, the
    range is passed to the transaction range consumer and the round is
    Neutral; when the request fails with a [catapult_runtime_error] the
    round is Failure, and when it fails with an exception of any other
    class that exception is what the returned future resolves to; on a
    lower score the round is Neutral; when the remote is not synced the
    round is the block pull from the common height plus one with the
    fork depth of the verdict; any other code gives Failure.  The gate
    is released in each of these cases. *)
Theorem sync_round_dispatch (fuel : nat) (this : DefaultChainSynchronizer)
  (remoteApi : RemoteApi) (w : World) :
  let gate := UnprocessedElements.shouldStartSync (unprocessedElements w) in
  let compared :=
    compareChains CompareChains this remoteApi (set_unprocessedElements (snd gate) w) in
  let w1 := snd compared in
  let round := operator_call CompareChains fuel this remoteApi w in
  (fst gate = false -> round = Returns (make_ready_future Neutral, w))
  /\ (fst gate = true ->
      forall compareResult,
        fst compared = ready compareResult ->
        match Code compareResult with
        | Remote_Reported_Equal_Chain_Score =>
            let knownShortHashes := m_shortHashesSupplier this (history w1) in
            let request :=
              unconfirmedTransactions (pTransactionApi remoteApi) (history w1)
                knownShortHashes in
            let w2 := record (unconfirmedTransactions_called knownShortHashes) w1 in
            (forall range,
               request = ready range ->
               round
               = Returns (ready Neutral,
                          clearPendingSync
                            (record (transactionRangeConsumer_called range) w2)))
            /\ (forall what,
                  request = failed (catapult_runtime_error what) ->
                  round = Returns (ready Failure, clearPendingSync w2))
            /\ (forall e,
                  request = failed e ->
                  (forall what, e <> catapult_runtime_error what) ->
                  round = Returns (failed e, clearPendingSync w2))
        | Remote_Reported_Lower_Chain_Score =>
            round = Returns (ready Neutral, clearPendingSync w1)
        | Remote_Is_Not_Synced =>
            round
            = thenClearPendingSync
                (ChainBlocksFrom fuel
                   (CreateFutureSupplier remoteApi (m_blocksFromOptions this))
                   (Height_add (CommonBlockHeight compareResult) 1)
                   (ForkDepth compareResult) RangeAggregator.make w1)
        | _ => round = Returns (ready Failure, clearPendingSync w1)
        end).
Proof.
  intros gate compared w1 round. split.
  - intros Hgate. apply operator_call_refused. exact Hgate.
  - intros Hgate compareResult Hcompared.
    assert (Hround :
      round = thenClearPendingSync (syncWithPeer fuel this remoteApi compareResult w1)).
    { subst round. rewrite (operator_call_started fuel this remoteApi w Hgate).
      cbv zeta.
      assert (Hafter : snd gate
                       = UnprocessedElements.set_hasPendingSync true
                           (unprocessedElements w)).
      { subst gate. unfold UnprocessedElements.shouldStartSync in *.
        destruct (_ || _); [discriminate | reflexivity]. }
      rewrite <- Hafter. fold compared. rewrite Hcompared. reflexivity. }
    destruct (Code compareResult) eqn:Hcode.
    + cbv zeta. split; [| split].
      * intros range Hrequest. rewrite Hround.
        rewrite (syncWithPeer_equal _ _ _ _ _ Hcode). cbv zeta.
        rewrite Hrequest. reflexivity.
      * intros what Hrequest. rewrite Hround.
        rewrite (syncWithPeer_equal _ _ _ _ _ Hcode). cbv zeta.
        rewrite Hrequest. reflexivity.
      * intros e Hrequest Hclass. rewrite Hround.
        rewrite (syncWithPeer_equal _ _ _ _ _ Hcode). cbv zeta.
        rewrite Hrequest.
        destruct e as [what | |]; [exfalso; exact (Hclass what eq_refl) | |];
          reflexivity.
    + rewrite Hround. unfold syncWithPeer. rewrite Hcode. reflexivity.
    + rewrite Hround. unfold syncWithPeer. rewrite Hcode. reflexivity.
    + rewrite Hround. unfold syncWithPeer. rewrite Hcode. reflexivity.
    + rewrite Hround. unfold syncWithPeer. rewrite Hcode. reflexivity.
Qed.

End Round.

Lemma sync_round_dispatch_witness :
  operator_call (Scenario.verdict Remote_Reported_Equal_Chain_Score 100 0) 0
    Scenario.synchronizer (Scenario.peer 100 40) Scenario.start
  = Returns
      (ready Neutral,
       clearPendingSync
         (record (transactionRangeConsumer_called [7; 8; 9])
            (record (unconfirmedTransactions_called [])
               (snd (compareChains
                       (Scenario.verdict Remote_Reported_Equal_Chain_Score 100 0)
                       Scenario.synchronizer (Scenario.peer 100 40)
                       (set_unprocessedElements
                          (snd (UnprocessedElements.shouldStartSync
                                  (unprocessedElements Scenario.start)))
                          Scenario.start)))))).
Proof.
  exact (proj1
           (proj2
              (sync_round_dispatch
                 (Scenario.verdict Remote_Reported_Equal_Chain_Score 100 0) 0
                 Scenario.synchronizer (Scenario.peer 100 40) Scenario.start)
              eq_refl
              {| Code := Remote_Reported_Equal_Chain_Score;
                 CommonBlockHeight := 100;
                 ForkDepth := 0 |}
              eq_refl)
           [7; 8; 9] eq_refl).
Defined.

(** A peer whose transaction request fails with an exception other than
    a [catapult_runtime_error]: the round on equal scores does not
    resolve to Failure, the exception stays in the returned future. *)
Lemma transaction_error_escapes :
  (exists w',
     operator_call (Scenario.verdict Remote_Reported_Equal_Chain_Score 100 0) 0
       Scenario.synchronizer Scenario.unexpectedPeer Scenario.start
     = Returns (failed (other_exception "bad_alloc"), w'))
  /\ ~ transactionErrorGivesFailure
        (Scenario.verdict Remote_Reported_Equal_Chain_Score 100 0) 0
        Scenario.synchronizer Scenario.unexpectedPeer Scenario.start.
Proof.
  split; [eexists; vm_compute; reflexivity |].
  intros Hclaim.
  destruct (Hclaim eq_refl
              {| Code := Remote_Reported_Equal_Chain_Score;
                 CommonBlockHeight := 100;
                 ForkDepth := 0 |}
              (other_exception "bad_alloc") eq_refl eq_refl eq_refl)
    as [w' Hround].
  vm_compute in Hround. discriminate.
Qed.

(** ** C8: the fast path makes no comparison call *)

Lemma compareChains_synthesized (CompareChains : CompareChainsFunc)
  (this : DefaultChainSynchronizer) (remoteApi : RemoteApi) (w : World) :
  UnprocessedElements.empty (unprocessedElements w) = false ->
  compareChains CompareChains this remoteApi w
  = (make_ready_future
       {| Code := Remote_Is_Not_Synced;
          CommonBlockHeight := UnprocessedElements.maxHeight (unprocessedElements w);
          ForkDepth := 0 |},
     w).
Proof. intros Hempty. unfold compareChains. rewrite Hempty. reflexivity. Qed.

Lemma compareChains_remote (CompareChains : CompareChainsFunc)
  (this : DefaultChainSynchronizer) (remoteApi : RemoteApi) (w : World) :
  UnprocessedElements.empty (unprocessedElements w) = true ->
  compareChains CompareChains this remoteApi w
  = (CompareChains (m_pLocalChainApi this) (pChainApi remoteApi)
       (m_compareChainOptions this) (history w),
     record (CompareChains_called (m_compareChainOptions this)) w).
Proof. intros Hempty. unfold compareChains. rewrite Hempty. reflexivity. Qed.





(** ** C9: what becomes of the errors of the peer *)

Section Failures.

Variable CompareChains : CompareChainsFunc.
Variable this : DefaultChainSynchronizer.
Variable remoteApi : RemoteApi.

Lemma syncWithPeer_defined (fuel : nat) (compareResult : CompareChainsResult)
  (w : World) :
  syncWithPeer fuel this remoteApi compareResult w = OutOfFuel
  \/ exists result, syncWithPeer fuel this remoteApi compareResult w = Returns result.
Proof.
  destruct (Code compareResult) eqn:Hcode.
  - right. rewrite (syncWithPeer_equal _ _ _ _ _ Hcode). cbv zeta.
    destruct (unconfirmedTransactions _ _ _) as [range | e];
      [| destruct e]; eexists; reflexivity.
  - right. unfold syncWithPeer. rewrite Hcode. eexists. reflexivity.
  - unfold syncWithPeer. rewrite Hcode. cbv zeta.
    apply ChainBlocksFrom_defined. apply aggregatorConsistent_make.
  - right. unfold syncWithPeer. rewrite Hcode. eexists. reflexivity.
  - right. unfold syncWithPeer. rewrite Hcode. eexists. reflexivity.
Qed.



Lemma operator_call_defined (fuel : nat) (w : World) :
  operator_call CompareChains fuel this remoteApi w = OutOfFuel
  \/ exists result, operator_call CompareChains fuel this remoteApi w = Returns result.
Proof.
  destruct (fst (UnprocessedElements.shouldStartSync (unprocessedElements w)))
    eqn:Hgate.
  - rewrite (operator_call_started CompareChains fuel this remoteApi w Hgate).
    cbv zeta.
    destruct (fst (compareChains CompareChains this remoteApi _))
      as [compareResult | e].
    + match goal with
      | |- context [syncWithPeer fuel this remoteApi compareResult ?w1] =>
          destruct (syncWithPeer_defined fuel compareResult w1)
            as [Hfuel | [[nodeInteractionFuture w2] Hsync]]
      end.
      * left. rewrite Hfuel. reflexivity.
      * right. rewrite Hsync. eexists. reflexivity.
    + right. destruct e; eexists; reflexivity.
  - right. rewrite (operator_call_refused CompareChains fuel this remoteApi w Hgate).
    eexists. reflexivity.
Qed.

(** The callable [CreateChainSynchronizer] returns only extends the
    lifetime of the synchronizer: it behaves like [operator()]. *)
Lemma CreateChainSynchronizer_operator_call (fuel : nat) (w : World) :
  CreateChainSynchronizer CompareChains fuel this remoteApi w
  = operator_call CompareChains fuel this remoteApi w.
Proof.
  unfold CreateChainSynchronizer, compose.
  destruct (operator_call_defined fuel w) as [Hfuel | [[nodeInteractionFuture w'] Hround]].
  - rewrite Hfuel. reflexivity.
  - rewrite Hround. reflexivity.
Qed.

End Failures.

(** *** The round returns *)

(** As long as the counter of the aggregator does not wrap, every reply
    that is not empty brings it closer to the fork depth: the pull
    returns after at most [forkDepth - numBlocks + 1] requests. *)
Lemma ChainBlocksFrom_terminates (futureSupplier : FutureSupplier) (forkDepth : Z)
  (Hreplies : repliesBounded futureSupplier) (Hdepth : forkDepth <= 2 ^ 63) :
  forall (n : nat) (height : Height) (aggregator : RangeAggregator.t) (w : World),
    aggregatorConsistent aggregator ->
    0 <= RangeAggregator.numBlocks aggregator <= 2 ^ 63 ->
    forkDepth - RangeAggregator.numBlocks aggregator <= Z.of_nat n ->
    exists result,
      ChainBlocksFrom (S n) futureSupplier height forkDepth aggregator w = Returns result.
Proof.
  induction n as [| n IH]; intros height aggregator w Hconsistent Hcount Hmeasure;
    rewrite ChainBlocksFrom_unfold; cbv zeta;
    destruct (futureSupplier height w) as [blocksFuture w1] eqn:Hreply;
    cbn [fst snd];
    (destruct blocksFuture as [range | e]; [| destruct e; eexists; reflexivity]);
    (destruct range as [| block rest] eqn:Hrange;
     [ cbn [model.empty];
       destruct (CompleteChainBlocksFrom_returns aggregator w1 Hconsistent)
         as (interaction & w' & Hcomplete & _);
       eexists; exact Hcomplete |]);
    rewrite <- Hrange in *;
    assert (Hnonempty : range <> []) by (rewrite Hrange; discriminate);
    destruct (model_back_nonempty range Hnonempty) as (front & last & _ & Hback);
    pose proof Hnonempty as Hempty; apply model_empty_false in Hempty;
    rewrite Hempty, Hback;
    pose proof (aggregatorConsistent_add range aggregator Hconsistent Hnonempty) as Hadded;
    pose proof (Hreplies height w range w1 Hreply) as Hlength;
    assert (Hpositive : 1 <= Z.of_nat (List.length range))
      by (rewrite Hrange; simpl List.length; lia);
    assert (Hgrows :
      RangeAggregator.numBlocks (RangeAggregator.add range aggregator)
      = RangeAggregator.numBlocks aggregator + Z.of_nat (List.length range))
      by (unfold RangeAggregator.numBlocks, RangeAggregator.add, model.size in *;
          cbn [RangeAggregator.m_numBlocks];
          rewrite (size_t_small (Z.of_nat (List.length range))) by lia;
          apply size_t_small; lia);
    destruct (Z.leb_spec forkDepth
                (RangeAggregator.numBlocks (RangeAggregator.add range aggregator)))
      as [Hreached | Hmore];
    try (destruct (CompleteChainBlocksFrom_returns _ w1 Hadded)
           as (interaction & w' & Hcomplete & _);
         eexists; exact Hcomplete).
  - lia.
  - apply IH; [exact Hadded | lia | lia].
Qed.

Lemma syncWithPeer_returns (this : DefaultChainSynchronizer) (remoteApi : RemoteApi)
  (fuel : nat) (compareResult : CompareChainsResult) (w : World) :
  repliesBounded (CreateFutureSupplier remoteApi (m_blocksFromOptions this)) ->
  ForkDepth compareResult <= Z.of_nat fuel <= 2 ^ 63 ->
  exists result, syncWithPeer (S fuel) this remoteApi compareResult w = Returns result.
Proof.
  intros Hreplies Hdepth. destruct (Code compareResult) eqn:Hcode.
  - rewrite (syncWithPeer_equal _ _ _ _ _ Hcode). cbv zeta.
    destruct (unconfirmedTransactions _ _ _) as [range | e];
      [| destruct e]; eexists; reflexivity.
  - unfold syncWithPeer. rewrite Hcode. eexists. reflexivity.
  - unfold syncWithPeer. rewrite Hcode. cbv zeta.
    apply ChainBlocksFrom_terminates.
    + exact Hreplies.
    + lia.
    + apply aggregatorConsistent_make.
    + simpl. lia.
    + simpl. lia.
  - unfold syncWithPeer. rewrite Hcode. eexists. reflexivity.
  - unfold syncWithPeer. rewrite Hcode. eexists. reflexivity.
Qed.

(** A round returns when the replies are bounded and the fuel covers the
    fork depth of every verdict of the comparison. *)
Lemma operator_call_returns (CompareChains : CompareChainsFunc)
  (this : DefaultChainSynchronizer) (remoteApi : RemoteApi) (fuel : nat) (w : World) :
  repliesBounded (CreateFutureSupplier remoteApi (m_blocksFromOptions this)) ->
  Z.of_nat fuel <= 2 ^ 63 ->
  (forall localApi options history compareResult,
     CompareChains localApi (pChainApi remoteApi) options history = ready compareResult ->
     ForkDepth compareResult <= Z.of_nat fuel) ->
  exists result, operator_call CompareChains (S fuel) this remoteApi w = Returns result.
Proof.
  intros Hreplies Hfuel Hverdicts.
  destruct (fst (UnprocessedElements.shouldStartSync (unprocessedElements w)))
    eqn:Hgate.
  - rewrite (operator_call_started CompareChains (S fuel) this remoteApi w Hgate).
    cbv zeta.
    set (w0 := set_unprocessedElements
                 (UnprocessedElements.set_hasPendingSync true (unprocessedElements w)) w).
    assert (Hsync :
      forall compareResult w1,
        ForkDepth compareResult <= Z.of_nat fuel ->
        exists result,
          thenClearPendingSync (syncWithPeer (S fuel) this remoteApi compareResult w1)
          = Returns result).
    { intros compareResult w1 Hdepth.
      destruct (syncWithPeer_returns this remoteApi fuel compareResult w1 Hreplies)
        as [[nodeInteractionFuture w2] Hreturns]; [lia |].
      rewrite Hreturns. eexists. reflexivity. }
    destruct (UnprocessedElements.empty (unprocessedElements w0)) eqn:Hempty.
    + rewrite (compareChains_remote CompareChains this remoteApi w0 Hempty).
      cbn [fst snd].
      destruct (CompareChains (m_pLocalChainApi this) (pChainApi remoteApi)
                  (m_compareChainOptions this) (history w0))
        as [compareResult | e] eqn:Hcompared.
      * apply Hsync. apply (Hverdicts _ _ _ _ Hcompared).
      * destruct e; eexists; reflexivity.
    + rewrite (compareChains_synthesized CompareChains this remoteApi w0 Hempty).
      cbn [fst snd make_ready_future]. apply Hsync. simpl. lia.
  - rewrite (operator_call_refused CompareChains (S fuel) this remoteApi w Hgate).
    eexists. reflexivity.
Qed.




(** ** The scenarios of the specification, run on the model *)

(** Common height 100, fork depth 5, the peer returns blocks 101..105:
    one range is handed to the pipeline and the round is a Success. *)
Example single_batch_round :
  resultOf (operator_call (Scenario.verdict Remote_Is_Not_Synced 100 5) 3
              Scenario.synchronizer (Scenario.peer 105 40) Scenario.start)
  = Some (ready Success,
          [ {| Id := 1; EndHeight := 105; NumBytes := 500 |} ], 500, false,
          [ CompareChains_called (m_compareChainOptions Scenario.synchronizer);
            blocksFrom_called 101 (m_blocksFromOptions Scenario.synchronizer);
            blockRangeConsumer_called (Scenario.blocks 101 5) RemoveOnCompletion ]).
Proof. vm_compute. reflexivity. Qed.

(** Fork depth 50, the peer returns 101..130 and then 131..150: the
    merged range 101..150 is handed to the pipeline. *)
Example multi_batch_round :
  resultOf (operator_call (Scenario.verdict Remote_Is_Not_Synced 100 50) 3
              Scenario.synchronizer (Scenario.peer 150 30) Scenario.start)
  = Some (ready Success,
          [ {| Id := 1; EndHeight := 150; NumBytes := 5000 |} ], 5000, false,
          [ CompareChains_called (m_compareChainOptions Scenario.synchronizer);
            blocksFrom_called 101 (m_blocksFromOptions Scenario.synchronizer);
            blocksFrom_called 131 (m_blocksFromOptions Scenario.synchronizer);
            blockRangeConsumer_called (Scenario.blocks 101 50) RemoveOnCompletion ]).
Proof. vm_compute. reflexivity. Qed.

(** The peer fails the first block request: Failure, nothing is handed
    to the pipeline and the gate is released. *)
Example failing_block_request_round :
  resultOf (operator_call (Scenario.verdict Remote_Is_Not_Synced 100 5) 3
              Scenario.synchronizer Scenario.brokenPeer Scenario.start)
  = Some (ready Failure, [], 0, false,
          [ CompareChains_called (m_compareChainOptions Scenario.synchronizer);
            blocksFrom_called 101 (m_blocksFromOptions Scenario.synchronizer) ]).
Proof. vm_compute. reflexivity. Qed.

(** The second block request fails after a first batch was received:
    Failure, and the batch is dropped. *)
Example failing_second_request_round :
  resultOf (operator_call (Scenario.verdict Remote_Is_Not_Synced 100 5) 3
              Scenario.synchronizer Scenario.flakyPeer Scenario.start)
  = Some (ready Failure, [], 0, false,
          [ CompareChains_called (m_compareChainOptions Scenario.synchronizer);
            blocksFrom_called 101 (m_blocksFromOptions Scenario.synchronizer);
            blocksFrom_called 103 (m_blocksFromOptions Scenario.synchronizer) ]).
Proof. vm_compute. reflexivity. Qed.

(** The comparison fails with an exception that is not a
    [catapult_runtime_error]: the exception is what the returned future
    resolves to, nothing is handed to the pipeline and the gate is
    released. *)
Example unexpected_comparison_error_round :
  resultOf (operator_call Scenario.comparisonFailsUnexpectedly 3
              Scenario.synchronizer (Scenario.peer 105 40) Scenario.start)
  = Some (failed (other_exception "bad_alloc"), [], 0, false,
          [ CompareChains_called (m_compareChainOptions Scenario.synchronizer) ]).
Proof. vm_compute. reflexivity. Qed.

(** A block request fails with such an exception: likewise. *)
Example unexpected_block_request_error_round :
  resultOf (operator_call (Scenario.verdict Remote_Is_Not_Synced 100 5) 3
              Scenario.synchronizer Scenario.unexpectedPeer Scenario.start)
  = Some (failed (other_exception "bad_alloc"), [], 0, false,
          [ CompareChains_called (m_compareChainOptions Scenario.synchronizer);
            blocksFrom_called 101 (m_blocksFromOptions Scenario.synchronizer) ]).
Proof. vm_compute. reflexivity. Qed.

(** With too little fuel the model reports that the pull is still running. *)
Example pull_out_of_fuel :
  operator_call (Scenario.verdict Remote_Is_Not_Synced 100 50) 1
    Scenario.synchronizer (Scenario.peer 150 30) Scenario.start = OutOfFuel.
Proof. vm_compute. reflexivity. Qed.

(* ================================================================= *)
(** * Further properties of the synchronizer *)

(** ** At most one sync in progress *)

Lemma applyOperation_keeps_pending (op : Operation) (w w' : World) :
  op <> Op_clearPendingSync ->
  UnprocessedElements.m_hasPendingSync (unprocessedElements w) = true ->
  applyOperation op w = Returns w' ->
  UnprocessedElements.m_hasPendingSync (unprocessedElements w') = true.
Proof.
  intros Hop Hpending Happly. destruct op as [| range | id status |].
  - simpl in Happly. injection Happly as Hw'. subst w'. simpl.
    unfold UnprocessedElements.shouldStartSync. rewrite Hpending.
    rewrite orb_true_r. simpl. exact Hpending.
  - simpl in Happly. unfold bind in Happly.
    destruct (unprocessedElements_add range w) as [[admitted w1] | | |] eqn:Hadd;
      try discriminate.
    injection Happly as Hw'. simpl in Hw'. subst w1.
    apply unprocessedElements_add_cases in Hadd.
    destruct Hadd as [(_ & Hsame & _) | (last & Hadd)].
    + subst w'. exact Hpending.
    + destruct Hadd as (_ & _ & _ & _ & _ & _ & _ & _ & Hkept & _). congruence.
  - simpl in Happly. unfold bind in Happly.
    destruct (UnprocessedElements.remove id status (unprocessedElements w))
      as [after | | |] eqn:Hremove; try discriminate.
    injection Happly as Hw'. subst w'. simpl.
    apply remove_returns in Hremove.
    destruct Hremove as (info & rest & _ & _ & _ & _ & Hkept & _). congruence.
  - contradiction.
Qed.

(** X1. Once a sync is pending, no sequence of [shouldStartSync], [add]
    and [remove] calls opens the gate again: until [clearPendingSync]
    runs, [m_hasPendingSync] stays set and [shouldStartSync] returns
    false without changing the state. *)
Theorem gate_stays_closed (ops : list Operation) (w w' : World)
  (Hpending : UnprocessedElements.m_hasPendingSync (unprocessedElements w) = true)
  (Hops : ~ In Op_clearPendingSync ops)
  (Hrun : run ops w = Returns w') :
  UnprocessedElements.m_hasPendingSync (unprocessedElements w') = true
  /\ UnprocessedElements.shouldStartSync (unprocessedElements w')
     = (false, unprocessedElements w').
Proof.
  assert (Hkept : UnprocessedElements.m_hasPendingSync (unprocessedElements w') = true).
  { revert w Hpending Hrun. induction ops as [| op rest IH]; intros w Hpending Hrun.
    - simpl in Hrun. injection Hrun as Hw. subst w'. exact Hpending.
    - simpl in Hrun. unfold bind in Hrun.
      destruct (applyOperation op w) as [w1 | | |] eqn:Happly; try discriminate.
      apply (IH (fun Hin => Hops (or_intror Hin)) w1); [| exact Hrun].
      apply (applyOperation_keeps_pending op w w1); try assumption.
      intros Hclear. apply Hops. left. exact Hclear. }
  split; [exact Hkept |].
  unfold UnprocessedElements.shouldStartSync. rewrite Hkept, orb_true_r. reflexivity.
Qed.

Lemma gate_stays_closed_witness :
  exists w' : World,
    run [Op_add (Scenario.blocks 101 5); Op_shouldStartSync;
         Op_remove 1 disruptor.Normal; Op_shouldStartSync] Scenario.started
    = Returns w'
    /\ UnprocessedElements.shouldStartSync (unprocessedElements w')
       = (false, unprocessedElements w').
Proof.
  eexists. split; [vm_compute; reflexivity |].
  refine (proj2 (gate_stays_closed
                   [Op_add (Scenario.blocks 101 5); Op_shouldStartSync;
                    Op_remove 1 disruptor.Normal; Op_shouldStartSync]
                   Scenario.started _ _ _ _)).
  - vm_compute. reflexivity.
  - intros Hin. simpl in Hin.
    repeat (destruct Hin as [Hin | Hin]; [discriminate |]). exact Hin.
  - vm_compute. reflexivity.
Defined.

(** ** Draining the queue *)

Lemma remove_own_head (status : disruptor.CompletionStatus)
  (this : UnprocessedElements.t) (info : ElementInfo) (rest : list ElementInfo) :
  UnprocessedElements.m_elements this = info :: rest ->
  bytesAccounted this ->
  exists after,
    UnprocessedElements.remove (Id info) status this = Returns after
    /\ UnprocessedElements.m_elements after = rest
    /\ bytesAccounted after
    /\ UnprocessedElements.m_hasPendingSync after
       = UnprocessedElements.m_hasPendingSync this
    /\ UnprocessedElements.m_maxSize after = UnprocessedElements.m_maxSize this
    /\ UnprocessedElements.m_dirty after
       = (negb (0 =? UnprocessedElements.m_numBytes after)
          || UnprocessedElements.m_hasPendingSync this)
         && negb (disruptor.CompletionStatus_eqb disruptor.Normal status).
Proof.
  intros Hqueue Haccounted.
  rewrite (remove_unfold (Id info) status this info rest Hqueue), Z.eqb_refl.
  eexists. split; [reflexivity |].
  unfold bytesAccounted in *.
  cbn [UnprocessedElements.m_numBytes UnprocessedElements.m_elements
       UnprocessedElements.m_dirty UnprocessedElements.m_hasPendingSync
       UnprocessedElements.m_maxSize].
  repeat split.
  rewrite Haccounted, Hqueue, size_t_sub_l. f_equal.
  change (sumNumBytes (info :: rest)) with (NumBytes info + sumNumBytes rest). lia.
Qed.

Lemma completeInOrder_quiescent (statuses : list disruptor.CompletionStatus) :
  forall this : UnprocessedElements.t,
    bytesAccounted this ->
    List.length statuses = List.length (UnprocessedElements.m_elements this) ->
    exists after,
      completeInOrder statuses this = Returns after
      /\ UnprocessedElements.m_elements after = []
      /\ UnprocessedElements.m_numBytes after = 0
      /\ UnprocessedElements.m_hasPendingSync after
         = UnprocessedElements.m_hasPendingSync this
      /\ UnprocessedElements.m_maxSize after = UnprocessedElements.m_maxSize this
      /\ (statuses <> [] ->
          UnprocessedElements.m_dirty after
          = UnprocessedElements.m_hasPendingSync this
            && negb (disruptor.CompletionStatus_eqb disruptor.Normal
                       (last statuses disruptor.Normal))).
Proof.
  induction statuses as [| status rest IH]; intros this Haccounted Hlength.
  - exists this. simpl. destruct (UnprocessedElements.m_elements this) eqn:Hqueue;
      [| discriminate].
    unfold bytesAccounted in Haccounted. rewrite Hqueue in Haccounted.
    repeat split; try assumption. intros Hnil. contradiction.
  - destruct (UnprocessedElements.m_elements this) as [| info queue] eqn:Hqueue;
      [discriminate |].
    destruct (remove_own_head status this info queue Hqueue Haccounted)
      as (after1 & Hremove & Hqueue1 & Haccounted1 & Hpending1 & Hcap1 & Hdirty1).
    simpl. rewrite Hqueue. cbn [UnprocessedElements.front]. rewrite Hremove.
    cbn [bind].
    destruct (IH after1 Haccounted1) as (after & Hrun & Hempty & Hzero & Hpending & Hcap & Hdirty).
    { rewrite Hqueue1. simpl in Hlength. lia. }
    exists after. split; [exact Hrun |]. split; [exact Hempty |].
    split; [exact Hzero |]. split; [congruence |]. split; [congruence |].
    intros _. destruct rest as [| status' rest'].
    + simpl in Hrun. injection Hrun as Hafter. subst after1.
      rewrite Hdirty1, Hzero. reflexivity.
    + rewrite Hdirty; [| discriminate]. rewrite Hpending1. reflexivity.
Qed.

(** X2. Completing every queued element in queue order, with the id it
    was recorded under and whatever statuses, never throws and ends
    with an empty queue and [m_numBytes = 0]; the dirty flag is then set
    only if a sync is still pending and the last status was not Normal. *)
Theorem queue_drains_to_zero (statuses : list disruptor.CompletionStatus)
  (this : UnprocessedElements.t)
  (Haccounted : bytesAccounted this)
  (Hlength : List.length statuses = List.length (UnprocessedElements.m_elements this)) :
  exists after,
    completeInOrder statuses this = Returns after
    /\ UnprocessedElements.m_elements after = []
    /\ UnprocessedElements.m_numBytes after = 0
    /\ UnprocessedElements.empty after = true
    /\ UnprocessedElements.maxHeight after = 0
    /\ (statuses <> [] ->
        UnprocessedElements.m_dirty after
        = UnprocessedElements.m_hasPendingSync this
          && negb (disruptor.CompletionStatus_eqb disruptor.Normal
                     (last statuses disruptor.Normal)))
    /\ (statuses <> [] ->
        UnprocessedElements.m_hasPendingSync this = false ->
        UnprocessedElements.m_dirty after = false).
Proof.
  destruct (completeInOrder_quiescent statuses this Haccounted Hlength)
    as (after & Hrun & Hempty & Hzero & Hpending & _ & Hdirty).
  exists after. split; [exact Hrun |]. split; [exact Hempty |].
  split; [exact Hzero |].
  split; [unfold UnprocessedElements.empty, UnprocessedElements.numBytes;
          rewrite Hzero; reflexivity |].
  split; [unfold UnprocessedElements.maxHeight; rewrite Hempty; reflexivity |].
  split; [exact Hdirty |].
  intros Hsome Hidle. rewrite (Hdirty Hsome), Hidle. reflexivity.
Qed.

Lemma queue_drains_to_zero_witness :
  exists after,
    completeInOrder [disruptor.Aborted; disruptor.Aborted; disruptor.Normal]
      (unprocessedElements Scenario.threeQueued) = Returns after
    /\ UnprocessedElements.m_numBytes after = 0.
Proof.
  destruct (queue_drains_to_zero
              [disruptor.Aborted; disruptor.Aborted; disruptor.Normal]
              (unprocessedElements Scenario.threeQueued))
    as (after & Hrun & _ & Hzero & _).
  - vm_compute. reflexivity.
  - vm_compute. reflexivity.
  - exists after. split; [exact Hrun | exact Hzero].
Defined.

(** X3. The gate cannot stay shut: from any state whose byte counter
    accounts for the queue, once every queued element has completed (in
    order, with any statuses) and [clearPendingSync] has run, nothing is
    pending, the dirty flag is clear and [shouldStartSync] returns true,
    provided the cap is positive. *)
Theorem gate_reopens_after_drain (statuses : list disruptor.CompletionStatus)
  (this : UnprocessedElements.t)
  (Haccounted : bytesAccounted this)
  (Hlength : List.length statuses = List.length (UnprocessedElements.m_elements this))
  (Hcap : 0 < UnprocessedElements.m_maxSize this) :
  exists after,
    completeInOrder statuses this = Returns after
    /\ UnprocessedElements.m_dirty (UnprocessedElements.clearPendingSync after) = false
    /\ UnprocessedElements.hasPendingOperation
         (UnprocessedElements.clearPendingSync after) = false
    /\ fst (UnprocessedElements.shouldStartSync
              (UnprocessedElements.clearPendingSync after)) = true.
Proof.
  destruct (completeInOrder_quiescent statuses this Haccounted Hlength)
    as (after & Hrun & _ & Hzero & _ & Hsame & _).
  exists after. split; [exact Hrun |].
  destruct (clearPendingSync_fields after) as (_ & Hbytes & Hmax & Hpending & Hdirty & _).
  cbv zeta in *.
  assert (Hclean : UnprocessedElements.m_dirty (UnprocessedElements.clearPendingSync after)
                   = false).
  { rewrite Hdirty, Hzero. apply andb_false_r. }
  split; [exact Hclean |]. split.
  - unfold UnprocessedElements.hasPendingOperation. rewrite Hbytes, Hpending, Hzero.
    reflexivity.
  - unfold UnprocessedElements.shouldStartSync.
    rewrite Hbytes, Hpending, Hclean, Hmax, Hzero, Hsame.
    destruct (Z.leb_spec (UnprocessedElements.m_maxSize this) 0); [lia | reflexivity].
Qed.

Lemma gate_reopens_after_drain_witness :
  exists after,
    completeInOrder [disruptor.Aborted; disruptor.Aborted; disruptor.Aborted]
      (unprocessedElements Scenario.threeQueued) = Returns after
    /\ fst (UnprocessedElements.shouldStartSync
              (UnprocessedElements.clearPendingSync after)) = true.
Proof.
  destruct (gate_reopens_after_drain
              [disruptor.Aborted; disruptor.Aborted; disruptor.Aborted]
              (unprocessedElements Scenario.threeQueued))
    as (after & Hrun & _ & _ & Hgate).
  - vm_compute. reflexivity.
  - vm_compute. reflexivity.
  - vm_compute. reflexivity.
  - exists after. split; [exact Hrun | exact Hgate].
Defined.

(** ** Completions in the order of the handoffs *)

Lemma pipelineApply_fifo (op : PipelineOperation) (p : Pipeline) :
  inFlight p = map Id (UnprocessedElements.m_elements (unprocessedElements (world p))) ->
  (pipelineApply op p = Undefined /\ isAddOfEmptyRange op = true)
  \/ exists p',
       pipelineApply op p = Returns p'
       /\ inFlight p'
          = map Id (UnprocessedElements.m_elements (unprocessedElements (world p'))).
Proof.
  intros Hinv. destruct op as [| | range | status].
  - right. simpl. eexists. split; [reflexivity |]. simpl.
    destruct (shouldStartSync_fields (unprocessedElements (world p))) as (He & _).
    simpl in He. rewrite He. exact Hinv.
  - right. simpl. eexists. split; [reflexivity |]. simpl.
    destruct (clearPendingSync_fields (unprocessedElements (world p))) as (He & _).
    simpl in He. rewrite He. exact Hinv.
  - destruct range as [| block rest] eqn:Hrange.
    + destruct (UnprocessedElements.m_dirty (unprocessedElements (world p))) eqn:Hdirty.
      * right. simpl. unfold unprocessedElements_add.
        rewrite (add_dirty _ _ _ Hdirty). simpl. eexists. split; [reflexivity |].
        exact Hinv.
      * left. simpl. unfold unprocessedElements_add.
        rewrite (add_empty_range _ _ Hdirty). split; reflexivity.
    + right. rewrite <- Hrange.
      assert (Hnonempty : range <> []) by (rewrite Hrange; discriminate).
      destruct (unprocessedElements_add_defined range (world p) Hnonempty)
        as (admitted & w' & Hadd & _).
      simpl. rewrite Hadd. cbn [bind fst snd]. eexists. split; [reflexivity |].
      cbn [world inFlight].
      apply unprocessedElements_add_cases in Hadd.
      destruct Hadd as [(Hrefused & Hsame & _) | (last & Hhanded & _ & _ & _ & _ & He & _)].
      * subst admitted w'. exact Hinv.
      * subst admitted. rewrite He, map_app, Hinv. reflexivity.
  - right. simpl. destruct (inFlight p) as [| id rest] eqn:Hflight.
    + eexists. split; [reflexivity |]. rewrite Hflight. exact Hinv.
    + destruct (UnprocessedElements.m_elements (unprocessedElements (world p)))
        as [| info queue] eqn:Hqueue; [discriminate |].
      simpl in Hinv. injection Hinv as Hid Hrest.
      rewrite (remove_unfold id status _ info queue Hqueue).
      subst id. rewrite Z.eqb_refl. cbn [bind]. eexists. split; [reflexivity |].
      simpl. exact Hrest.
Qed.

Lemma pipelineRun_fifo (ops : list PipelineOperation) :
  forall p : Pipeline,
    inFlight p = map Id (UnprocessedElements.m_elements (unprocessedElements (world p))) ->
    (pipelineRun ops p = Undefined /\ existsb isAddOfEmptyRange ops = true)
    \/ exists p',
         pipelineRun ops p = Returns p'
         /\ inFlight p'
            = map Id (UnprocessedElements.m_elements (unprocessedElements (world p'))).
Proof.
  induction ops as [| op rest IH]; intros p Hinv.
  - right. exists p. split; [reflexivity | exact Hinv].
  - simpl. destruct (pipelineApply_fifo op p Hinv) as [[Hundefined Hempty] | (p1 & Hstep & Hinv1)].
    + left. rewrite Hundefined, Hempty. split; reflexivity.
    + rewrite Hstep. cbn [bind].
      destruct (IH p1 Hinv1) as [[Hundefined Hempty] | (p' & Hrun & Hinv')].
      * left. rewrite Hempty, orb_true_r. split; [exact Hundefined | reflexivity].
      * right. exists p'. split; [exact Hrun | exact Hinv'].
Qed.

(** X4. When the pipeline completes the ranges in the order it was
    given them, [remove] never throws its invalid-argument error,
    whatever the ids the consumer hands out and however the completions
    interleave with [add], [shouldStartSync] and [clearPendingSync]: the
    ids in flight are exactly the ids in the queue, in order.  The run
    returns unless [add] is called with an empty range. *)
Theorem fifo_completion_never_throws (ops : list PipelineOperation) (p : Pipeline)
  (Hqueue : inFlight p
            = map Id (UnprocessedElements.m_elements (unprocessedElements (world p)))) :
  (forall e, pipelineRun ops p <> Throws e)
  /\ (existsb isAddOfEmptyRange ops = false ->
      exists p',
        pipelineRun ops p = Returns p'
        /\ inFlight p'
           = map Id (UnprocessedElements.m_elements (unprocessedElements (world p')))).
Proof.
  destruct (pipelineRun_fifo ops p Hqueue) as [[Hundefined Hempty] | (p' & Hrun & Hinv)].
  - split; [intros e; rewrite Hundefined; discriminate |].
    intros Hnone. congruence.
  - split; [intros e; rewrite Hrun; discriminate |].
    intros _. exists p'. split; [exact Hrun | exact Hinv].
Qed.

Lemma fifo_completion_never_throws_witness :
  exists p',
    pipelineRun
      [Pipeline_shouldStartSync; Pipeline_add (Scenario.blocks 101 5);
       Pipeline_clearPendingSync; Pipeline_add (Scenario.blocks 106 5);
       Pipeline_completeOldest disruptor.Aborted;
       Pipeline_completeOldest disruptor.Normal;
       Pipeline_completeOldest disruptor.Normal]
      {| world := Scenario.start; inFlight := [] |} = Returns p'
    /\ inFlight p'
       = map Id (UnprocessedElements.m_elements (unprocessedElements (world p'))).
Proof.
  refine (proj2 (fifo_completion_never_throws _ _ _) _).
  - reflexivity.
  - reflexivity.
Defined.

(** ** The newest queued height *)

Lemma elements_back_app (elements : list ElementInfo) (info : ElementInfo) :
  UnprocessedElements.back (elements ++ [info]) = Some info.
Proof.
  induction elements as [| head rest IH].
  - reflexivity.
  - simpl. destruct (rest ++ [info]) eqn:Happ.
    + destruct rest; discriminate.
    + exact IH.
Qed.

(** X5. [maxHeight] is the height of the last block of the range handed
    off most recently that is still queued: a successful [add] sets it
    to the height of the last block of its range, a [remove] that
    leaves elements behind does not change it, and on an empty queue it
    is [Height(0)]. *)
Theorem maxHeight_is_newest (this after : UnprocessedElements.t) :
  (UnprocessedElements.m_elements this = [] -> UnprocessedElements.maxHeight this = 0)
  /\ (forall range history history' last,
        UnprocessedElements.add range this history = Returns (true, (after, history')) ->
        model.back range = Some last ->
        UnprocessedElements.maxHeight after = model.Height last)
  /\ (forall id status,
        UnprocessedElements.remove id status this = Returns after ->
        UnprocessedElements.m_elements after <> [] ->
        UnprocessedElements.maxHeight after = UnprocessedElements.maxHeight this)
  /\ (forall id status,
        UnprocessedElements.remove id status this = Returns after ->
        UnprocessedElements.m_elements after = [] ->
        UnprocessedElements.maxHeight after = 0).
Proof.
  split; [| split; [| split]].
  - intros Hempty. unfold UnprocessedElements.maxHeight. rewrite Hempty. reflexivity.
  - intros range history history' last Hadd Hback.
    destruct (UnprocessedElements.m_dirty this) eqn:Hdirty.
    + rewrite (add_dirty _ _ _ Hdirty) in Hadd. discriminate.
    + rewrite (add_clean _ _ _ last Hdirty Hback) in Hadd.
      injection Hadd as Hafter _. subst after.
      unfold UnprocessedElements.maxHeight. cbn [UnprocessedElements.m_elements].
      rewrite elements_back_app. reflexivity.
  - intros id status Hremove Hleft. apply remove_returns in Hremove.
    destruct Hremove as (info & rest & Hqueue & _ & Hrest & _).
    unfold UnprocessedElements.maxHeight. rewrite Hqueue, Hrest.
    rewrite Hrest in Hleft. destruct rest as [| next rest']; [contradiction |].
    reflexivity.
  - intros id status Hremove Hnone.
    unfold UnprocessedElements.maxHeight. rewrite Hnone. reflexivity.
Qed.

Lemma maxHeight_is_newest_witness :
  UnprocessedElements.maxHeight (unprocessedElements Scenario.afterHandoff) = 105.
Proof.
  refine (proj1 (proj2 (maxHeight_is_newest (unprocessedElements Scenario.start)
                          (unprocessedElements Scenario.afterHandoff)))
            (Scenario.blocks 101 5) [] (history Scenario.afterHandoff)
            {| model.Height := 105; model.Size := 100 |} _ _).
  - vm_compute. reflexivity.
  - reflexivity.
Defined.

(** ** The range aggregator *)

Lemma size_t_add_inner (a b c : Z) : size_t (a + size_t b + c) = size_t (a + b + c).
Proof.
  unfold size_t.
  rewrite (Z.add_comm a (b mod 2 ^ 64)), <- Z.add_assoc, Zplus_mod_idemp_l.
  f_equal. lia.
Qed.

Lemma aggregate_from (ranges : list model.BlockRange) :
  forall aggregator : RangeAggregator.t,
    let result :=
      fold_left (fun aggregator range => RangeAggregator.add range aggregator)
        ranges aggregator in
    RangeAggregator.m_ranges result = RangeAggregator.m_ranges aggregator ++ ranges
    /\ size_t (RangeAggregator.m_numBlocks result)
       = size_t (RangeAggregator.m_numBlocks aggregator
                 + Z.of_nat (List.length (concat ranges)))
    /\ (ranges <> [] ->
        RangeAggregator.m_numBlocks result
        = size_t (RangeAggregator.m_numBlocks aggregator
                  + Z.of_nat (List.length (concat ranges)))).
Proof.
  induction ranges as [| range rest IH]; intros aggregator; cbv zeta.
  - simpl. rewrite app_nil_r, Z.add_0_r. repeat split. intros Hnil. contradiction.
  - simpl fold_left. destruct (IH (RangeAggregator.add range aggregator))
      as (Hranges & Hcount & Hexact).
    cbv zeta in *.
    assert (Hsum :
      size_t (RangeAggregator.m_numBlocks (RangeAggregator.add range aggregator)
              + Z.of_nat (List.length (concat rest)))
      = size_t (RangeAggregator.m_numBlocks aggregator
                + Z.of_nat (List.length (concat (range :: rest))))).
    { unfold RangeAggregator.add, model.size. cbn [RangeAggregator.m_numBlocks].
      rewrite size_t_add_l, size_t_add_inner. f_equal.
      simpl concat. rewrite length_app. lia. }
    split; [| split].
    + rewrite Hranges. simpl. rewrite <- app_assoc. reflexivity.
    + rewrite Hcount. exact Hsum.
    + intros _. destruct rest as [| next rest'].
      * simpl fold_left. rewrite <- Hsum. simpl concat. simpl List.length.
        rewrite Z.add_0_r. unfold RangeAggregator.add.
        cbn [RangeAggregator.m_numBlocks]. symmetry. apply size_t_small.
        apply size_t_range.
      * rewrite Hexact; [exact Hsum | discriminate].
Qed.

(** X6. After any ranges are added to a fresh aggregator, [merge] is
    their concatenation in the order they were added and [numBlocks] is
    the number of blocks of that merged range (in [size_t]); so, as long
    as that number fits in a [size_t], [empty()] holds exactly when the
    merged range has no block. *)
Theorem aggregate_counts_merged_blocks (ranges : list model.BlockRange) :
  RangeAggregator.merge (aggregate ranges) = concat ranges
  /\ RangeAggregator.numBlocks (aggregate ranges)
     = model.size (RangeAggregator.merge (aggregate ranges))
  /\ (Z.of_nat (List.length (concat ranges)) < 2 ^ 64 ->
      (RangeAggregator.empty (aggregate ranges) = true
       <-> RangeAggregator.merge (aggregate ranges) = [])).
Proof.
  destruct (aggregate_from ranges RangeAggregator.make) as (Hranges & _ & Hexact).
  cbv zeta in *. fold (aggregate ranges) in *.
  assert (Hmerge : RangeAggregator.merge (aggregate ranges) = concat ranges).
  { unfold RangeAggregator.merge, model.MergeRanges. rewrite Hranges. reflexivity. }
  assert (Hcount : RangeAggregator.numBlocks (aggregate ranges)
                   = size_t (Z.of_nat (List.length (concat ranges)))).
  { unfold RangeAggregator.numBlocks. destruct ranges as [| range rest].
    - reflexivity.
    - rewrite Hexact; [reflexivity | discriminate]. }
  split; [exact Hmerge |]. split.
  - rewrite Hmerge, Hcount. reflexivity.
  - intros Hfits. unfold RangeAggregator.empty.
    fold (RangeAggregator.numBlocks (aggregate ranges)).
    rewrite Hcount, Hmerge, size_t_small by lia.
    destruct (concat ranges) as [| block blocks]; simpl List.length.
    + split; reflexivity.
    + split; intros Habsurd; [apply Z.eqb_eq in Habsurd; lia | discriminate].
Qed.

Lemma aggregate_counts_merged_blocks_witness :
  RangeAggregator.empty
    (aggregate [Scenario.blocks 101 30; Scenario.blocks 131 20]) = true
  <-> RangeAggregator.merge
        (aggregate [Scenario.blocks 101 30; Scenario.blocks 131 20]) = [].
Proof.
  refine (proj2 (proj2 (aggregate_counts_merged_blocks
                          [Scenario.blocks 101 30; Scenario.blocks 131 20])) _).
  vm_compute. reflexivity.
Defined.

(** ** What a pull and a round leave behind *)

Lemma CompleteChainBlocksFrom_effect (aggregator : RangeAggregator.t) (w w' : World)
  (nodeInteractionFuture : NodeInteractionFuture) :
  CompleteChainBlocksFrom aggregator w = Returns (nodeInteractionFuture, w') ->
  (nodeInteractionFuture = ready Neutral /\ w' = w)
  \/ (nodeInteractionFuture = ready Success
      /\ unprocessedElements_add (RangeAggregator.merge aggregator) w = Returns (true, w')).
Proof.
  unfold CompleteChainBlocksFrom. intros Hcomplete.
  destruct (RangeAggregator.empty aggregator).
  - injection Hcomplete as Hfuture Hw. left.
    split; [symmetry; exact Hfuture | symmetry; exact Hw].
  - destruct (unprocessedElements_add (RangeAggregator.merge aggregator) w)
      as [[admitted w1] | | |] eqn:Hadd; simpl in Hcomplete; try discriminate.
    injection Hcomplete as Hfuture Hw. subst w1 nodeInteractionFuture.
    destruct admitted.
    + right. split; reflexivity.
    + left. split; [reflexivity |].
      apply unprocessedElements_add_cases in Hadd.
      destruct Hadd as [(_ & Hsame & _) | (last & Habsurd & _)];
        [exact Hsame | discriminate].
Qed.

Lemma merge_add (range : model.BlockRange) (aggregator : RangeAggregator.t) :
  RangeAggregator.merge (RangeAggregator.add range aggregator)
  = RangeAggregator.merge aggregator ++ range.
Proof.
  unfold RangeAggregator.merge, RangeAggregator.add, model.MergeRanges. simpl.
  rewrite concat_app. simpl. rewrite app_nil_r. reflexivity.
Qed.

Lemma record_request (event : Event) (w : World) (events : History) :
  {| unprocessedElements := unprocessedElements (record event w);
     history := history (record event w) ++ events |}
  = {| unprocessedElements := unprocessedElements w;
       history := history w ++ event :: events |}.
Proof. unfold record. simpl. rewrite <- app_assoc. reflexivity. Qed.

Lemma ChainBlocksFrom_trace (fuel : nat) (remoteApi : RemoteApi)
  (options : BlocksFromOptions) (forkDepth : Z) :
  forall (height : Height) (aggregator : RangeAggregator.t) (w w' : World)
         (nodeInteractionFuture : NodeInteractionFuture),
    ChainBlocksFrom fuel (CreateFutureSupplier remoteApi options) height forkDepth
      aggregator w = Returns (nodeInteractionFuture, w') ->
    exists requests,
      forallb isRequest requests = true
      /\ (1 <= List.length requests <= fuel)%nat
      /\ requestsChained remoteApi (history w) height requests = true
      /\ ((nodeInteractionFuture <> ready Success
           /\ w' = {| unprocessedElements := unprocessedElements w;
                      history := history w ++ requests |})
          \/ (nodeInteractionFuture = ready Success
              /\ unprocessedElements_add
                   (RangeAggregator.merge aggregator
                    ++ concat (repliesIn remoteApi (history w) requests))
                   {| unprocessedElements := unprocessedElements w;
                      history := history w ++ requests |}
                 = Returns (true, w'))).
Proof.
  induction fuel as [| fuel IH];
    intros height aggregator w w' nodeInteractionFuture Hrun.
  - discriminate.
  - rewrite ChainBlocksFrom_unfold in Hrun. cbv zeta in Hrun.
    change (CreateFutureSupplier remoteApi options height w)
      with (blocksFrom (pChainApi remoteApi) (history w) height options,
            record (blocksFrom_called height options) w) in Hrun.
    cbn [fst snd] in Hrun.
    set (request := blocksFrom_called height options) in *.
    assert (Hone : record request w
                   = {| unprocessedElements := unprocessedElements w;
                        history := history w ++ [request] |}) by reflexivity.
    destruct (blocksFrom (pChainApi remoteApi) (history w) height options)
      as [range | e] eqn:Hreply.
    + assert (Hcompleted :
        forall aggregator',
          RangeAggregator.merge aggregator' = RangeAggregator.merge aggregator ++ range ->
          CompleteChainBlocksFrom aggregator' (record request w)
          = Returns (nodeInteractionFuture, w') ->
          exists requests,
            forallb isRequest requests = true
            /\ (1 <= List.length requests <= S fuel)%nat
            /\ requestsChained remoteApi (history w) height requests = true
            /\ ((nodeInteractionFuture <> ready Success
                 /\ w' = {| unprocessedElements := unprocessedElements w;
                            history := history w ++ requests |})
                \/ (nodeInteractionFuture = ready Success
                    /\ unprocessedElements_add
                         (RangeAggregator.merge aggregator
                          ++ concat (repliesIn remoteApi (history w) requests))
                         {| unprocessedElements := unprocessedElements w;
                            history := history w ++ requests |}
                       = Returns (true, w')))).
      { intros aggregator' Hmerged Hcomplete. exists [request].
        split; [reflexivity |]. split; [simpl; lia |]. split.
        { subst request. simpl. rewrite Z.eqb_refl, Hreply.
          destruct (model.back range); reflexivity. }
        apply CompleteChainBlocksFrom_effect in Hcomplete.
        destruct Hcomplete as [[Hneutral Hsame] | [Hsuccess Hadd]].
        - left. split; [rewrite Hneutral; discriminate |].
          rewrite Hsame. exact Hone.
        - right. split; [exact Hsuccess |].
          subst request. simpl repliesIn. rewrite Hreply. simpl concat.
          rewrite app_nil_r, <- Hmerged. exact Hadd. }
      destruct range as [| block rest] eqn:Hrange.
      * cbn [model.empty] in Hrun.
        apply (Hcompleted aggregator); [rewrite app_nil_r; reflexivity |].
        exact Hrun.
      * rewrite <- Hrange in *.
        assert (Hnonempty : range <> []) by (rewrite Hrange; discriminate).
        pose proof Hnonempty as Hempty. apply model_empty_false in Hempty.
        rewrite Hempty in Hrun.
        destruct (model.back range) as [last |] eqn:Hback; [| discriminate].
        destruct (forkDepth <=? _).
        -- apply (Hcompleted (RangeAggregator.add range aggregator));
             [apply merge_add | exact Hrun].
        -- destruct (IH _ _ _ _ _ Hrun)
             as (requests & Hrequests & Hlength & Hchained & Heffect).
           exists (request :: requests).
           split; [simpl; exact Hrequests |]. split; [simpl; lia |]. split.
           { subst request. simpl. rewrite Z.eqb_refl, Hreply, Hback.
             exact Hchained. }
           rewrite record_request in Heffect.
           destruct Heffect as [[Hother Hw'] | [Hsuccess Hadd]].
           ++ left. split; [exact Hother | exact Hw'].
           ++ right. split; [exact Hsuccess |].
              subst request. simpl repliesIn. rewrite Hreply. simpl concat.
              rewrite merge_add, <- app_assoc in Hadd. exact Hadd.
    + exists [request]. split; [reflexivity |]. split; [simpl; lia |]. split.
      { subst request. simpl. rewrite Z.eqb_refl, Hreply. reflexivity. }
      left. destruct e; injection Hrun as Hfuture Hw; subst nodeInteractionFuture w';
        (split; [discriminate | exact Hone]).
Qed.

Lemma requests_are_not_consumer_calls (events : History) :
  forallb isRequest events = true -> existsb isConsumerCall events = false.
Proof.
  induction events as [| event rest IH]; intros Hrequests; [reflexivity |].
  simpl in *. apply andb_true_iff in Hrequests. destruct Hrequests as [Hevent Hrest].
  rewrite (IH Hrest). destruct event; try discriminate. reflexivity.
Qed.

Lemma world_eta (w : World) :
  w = {| unprocessedElements := unprocessedElements w; history := history w ++ [] |}.
Proof. destruct w. simpl. rewrite app_nil_r. reflexivity. Qed.

Lemma syncWithPeer_effect (this : DefaultChainSynchronizer) (remoteApi : RemoteApi)
  (fuel : nat) (compareResult : CompareChainsResult) (w w' : World)
  (nodeInteractionFuture : NodeInteractionFuture) :
  syncWithPeer fuel this remoteApi compareResult w = Returns (nodeInteractionFuture, w') ->
  exists events,
    existsb isConsumerCall events = false
    /\ ((nodeInteractionFuture <> ready Success
         /\ w' = {| unprocessedElements := unprocessedElements w;
                    history := history w ++ events |})
        \/ (nodeInteractionFuture = ready Success
            /\ exists merged,
                 unprocessedElements_add merged
                   {| unprocessedElements := unprocessedElements w;
                      history := history w ++ events |}
                 = Returns (true, w'))).
Proof.
  intros Hsync. destruct (Code compareResult) eqn:Hcode.
  - rewrite (syncWithPeer_equal _ _ _ _ _ Hcode) in Hsync. cbv zeta in Hsync.
    destruct (unconfirmedTransactions _ _ _) as [range | e].
    + injection Hsync as Hfuture Hw. subst nodeInteractionFuture w'.
      eexists [_; _]. split; cycle 1.
      * left. split; [discriminate |].
        unfold record. simpl. rewrite <- app_assoc. reflexivity.
      * reflexivity.
    + eexists [_]. split; cycle 1.
      * left.
        destruct e; injection Hsync as Hfuture Hw; subst nodeInteractionFuture w';
          (split; [discriminate | reflexivity]).
      * reflexivity.
  - unfold syncWithPeer in Hsync. rewrite Hcode in Hsync.
    injection Hsync as Hfuture Hw. subst nodeInteractionFuture w'.
    exists []. split; [reflexivity |]. left. split; [discriminate | apply world_eta].
  - unfold syncWithPeer in Hsync. rewrite Hcode in Hsync. cbv zeta in Hsync.
    destruct (ChainBlocksFrom_trace _ _ _ _ _ _ _ _ _ Hsync)
      as (requests & Hrequests & _ & _ & Heffect).
    exists requests. split; [apply requests_are_not_consumer_calls; exact Hrequests |].
    destruct Heffect as [[Hother Hw'] | [Hsuccess Hadd]].
    + left. split; assumption.
    + right. split; [exact Hsuccess |]. eexists. exact Hadd.
  - unfold syncWithPeer in Hsync. rewrite Hcode in Hsync.
    injection Hsync as Hfuture Hw. subst nodeInteractionFuture w'.
    exists []. split; [reflexivity |]. left. split; [discriminate | apply world_eta].
  - unfold syncWithPeer in Hsync. rewrite Hcode in Hsync.
    injection Hsync as Hfuture Hw. subst nodeInteractionFuture w'.
    exists []. split; [reflexivity |]. left. split; [discriminate | apply world_eta].
Qed.

Lemma compareChains_effect (CompareChains : CompareChainsFunc)
  (this : DefaultChainSynchronizer) (remoteApi : RemoteApi) (w : World) :
  exists events,
    existsb isConsumerCall events = false
    /\ snd (compareChains CompareChains this remoteApi w)
       = {| unprocessedElements := unprocessedElements w;
            history := history w ++ events |}.
Proof.
  unfold compareChains. destruct (UnprocessedElements.empty (unprocessedElements w)).
  - eexists [_]. split; cycle 1; reflexivity.
  - exists []. split; [reflexivity | apply world_eta].
Qed.

Lemma gate_open_state (this : UnprocessedElements.t) :
  fst (UnprocessedElements.shouldStartSync this) = true ->
  UnprocessedElements.m_hasPendingSync this = false
  /\ UnprocessedElements.m_dirty this = false
  /\ UnprocessedElements.m_numBytes this < UnprocessedElements.m_maxSize this
  /\ UnprocessedElements.clearPendingSync
       (UnprocessedElements.set_hasPendingSync true this) = this.
Proof.
  unfold UnprocessedElements.shouldStartSync. intros Hgate.
  destruct (Z.leb_spec (UnprocessedElements.m_maxSize this)
              (UnprocessedElements.m_numBytes this)) as [Hfull | Hroom];
    [discriminate |].
  destruct (UnprocessedElements.m_hasPendingSync this) eqn:Hpending; [discriminate |].
  destruct (UnprocessedElements.m_dirty this) eqn:Hdirty; [discriminate |].
  repeat split; try assumption.
  unfold UnprocessedElements.clearPendingSync. simpl. rewrite Hdirty.
  destruct this. simpl in *. subst. reflexivity.
Qed.

Lemma operator_call_effect (CompareChains : CompareChainsFunc)
  (this : DefaultChainSynchronizer) (remoteApi : RemoteApi) (fuel : nat) (w w' : World)
  (nodeInteractionFuture : NodeInteractionFuture) :
  operator_call CompareChains fuel this remoteApi w
  = Returns (nodeInteractionFuture, w') ->
  exists events,
    existsb isConsumerCall events = false
    /\ ((nodeInteractionFuture <> ready Success
         /\ w' = {| unprocessedElements := unprocessedElements w;
                    history := history w ++ events |})
        \/ (nodeInteractionFuture = ready Success
            /\ fst (UnprocessedElements.shouldStartSync (unprocessedElements w)) = true
            /\ exists merged w2,
                 unprocessedElements_add merged
                   {| unprocessedElements :=
                        UnprocessedElements.set_hasPendingSync true
                          (unprocessedElements w);
                      history := history w ++ events |}
                 = Returns (true, w2)
                 /\ w' = clearPendingSync w2)).
Proof.
  intros Hround.
  destruct (fst (UnprocessedElements.shouldStartSync (unprocessedElements w)))
    eqn:Hgate.
  - rewrite (operator_call_started CompareChains fuel this remoteApi w Hgate) in Hround.
    cbv zeta in Hround.
    destruct (gate_open_state _ Hgate) as (_ & _ & _ & Hrestored).
    set (w0 := set_unprocessedElements
                 (UnprocessedElements.set_hasPendingSync true (unprocessedElements w)) w)
      in *.
    destruct (compareChains_effect CompareChains this remoteApi w0)
      as (before & Hbefore & Hcompared).
    rewrite Hcompared in Hround. cbn [w0 set_unprocessedElements unprocessedElements history]
      in Hround.
    destruct (fst (compareChains CompareChains this remoteApi w0))
      as [compareResult | e].
    + apply thenClearPendingSync_returns in Hround.
      destruct Hround as (w2 & Hsync & Hw' & _).
      destruct (syncWithPeer_effect _ _ _ _ _ _ _ Hsync)
        as (events & Hevents & Heffect).
      cbn [unprocessedElements history] in Heffect.
      rewrite <- app_assoc in Heffect.
      exists (before ++ events). split.
      { rewrite existsb_app, Hbefore, Hevents. reflexivity. }
      destruct Heffect as [[Hother Hw2] | [Hsuccess [merged Hadd]]].
      * left. split; [exact Hother |]. subst w' w2.
        unfold clearPendingSync, set_unprocessedElements. simpl.
        rewrite Hrestored. reflexivity.
      * right. split; [exact Hsuccess |]. split; [reflexivity |].
        exists merged, w2. split; [exact Hadd | exact Hw'].
    + exists before. split; [exact Hbefore |]. left.
      assert (Hw' : w' = clearPendingSync
                           {| unprocessedElements :=
                                UnprocessedElements.set_hasPendingSync true
                                  (unprocessedElements w);
                              history := history w ++ before |}
                    /\ nodeInteractionFuture <> ready Success).
      { destruct e; injection Hround as Hfuture Hw; subst nodeInteractionFuture w';
          (split; [reflexivity | discriminate]). }
      destruct Hw' as [Hw' Hother]. split; [exact Hother |]. subst w'.
      unfold clearPendingSync, set_unprocessedElements. simpl.
      rewrite Hrestored. reflexivity.
  - rewrite (operator_call_refused CompareChains fuel this remoteApi w Hgate) in Hround.
    injection Hround as Hfuture Hw. subst nodeInteractionFuture w'.
    exists []. split; [reflexivity |]. left. split; [discriminate | apply world_eta].
Qed.

(** X7. A round never reaches undefined behaviour and never throws:
    [add] reads the last block of its range unchecked, but
    [CompleteChainBlocksFrom] only passes it the merge of an aggregator
    whose count is not zero, and the aggregator only ever holds replies
    that are not empty.  The same holds for a pull started from any
    aggregator that holds no empty range. *)
Theorem round_never_undefined (CompareChains : CompareChainsFunc)
  (this : DefaultChainSynchronizer) (remoteApi : RemoteApi) (fuel : nat) (w : World) :
  operator_call CompareChains fuel this remoteApi w <> Undefined
  /\ (forall e, operator_call CompareChains fuel this remoteApi w <> Throws e)
  /\ (forall futureSupplier height forkDepth aggregator,
        aggregatorConsistent aggregator ->
        ChainBlocksFrom fuel futureSupplier height forkDepth aggregator w <> Undefined).
Proof.
  split; [| split].
  - destruct (operator_call_defined CompareChains this remoteApi fuel w)
      as [Hfuel | [result Hround]]; [rewrite Hfuel | rewrite Hround]; discriminate.
  - intros e.
    destruct (operator_call_defined CompareChains this remoteApi fuel w)
      as [Hfuel | [result Hround]]; [rewrite Hfuel | rewrite Hround]; discriminate.
  - intros futureSupplier height forkDepth aggregator Hconsistent.
    destruct (ChainBlocksFrom_defined fuel futureSupplier forkDepth height aggregator w
                Hconsistent) as [Hfuel | [result Hpull]];
      [rewrite Hfuel | rewrite Hpull]; discriminate.
Qed.

Lemma round_never_undefined_witness :
  ChainBlocksFrom 3 Scenario.pullSupplier 101 50
    (aggregate [Scenario.blocks 91 10]) Scenario.start <> Undefined.
Proof.
  refine (proj2 (proj2 (round_never_undefined Scenario.comparisonFails
                          Scenario.synchronizer Scenario.brokenPeer 3 Scenario.start))
            Scenario.pullSupplier 101 50 (aggregate [Scenario.blocks 91 10]) _).
  split.
  - repeat constructor. discriminate.
  - discriminate.
Defined.

(** X8. A round calls the block range consumer at most once, as its
    last call, and it does so exactly when its result is Success. *)
Theorem round_hands_off_iff_Success (CompareChains : CompareChainsFunc)
  (this : DefaultChainSynchronizer) (remoteApi : RemoteApi) (fuel : nat) (w w' : World)
  (nodeInteractionFuture : NodeInteractionFuture)
  (Hround : operator_call CompareChains fuel this remoteApi w
            = Returns (nodeInteractionFuture, w')) :
  exists events,
    history w' = history w ++ events
    /\ ((nodeInteractionFuture = ready Success
         /\ exists calls merged,
              events = calls ++ [blockRangeConsumer_called merged RemoveOnCompletion]
              /\ existsb isConsumerCall calls = false)
        \/ (nodeInteractionFuture <> ready Success
            /\ existsb isConsumerCall events = false)).
Proof.
  destruct (operator_call_effect _ _ _ _ _ _ _ Hround)
    as (events & Hevents & [[Hother Hw'] | (Hsuccess & _ & merged & w2 & Hadd & Hw')]).
  - exists events. subst w'. split; [reflexivity |]. right. split; assumption.
  - apply unprocessedElements_add_cases in Hadd.
    destruct Hadd as [(Habsurd & _) | (last & _ & _ & _ & _ & Hhistory & _)];
      [discriminate |].
    exists (events ++ [blockRangeConsumer_called merged RemoveOnCompletion]).
    subst w'. cbn [clearPendingSync set_unprocessedElements history].
    rewrite Hhistory. cbn [history]. rewrite <- app_assoc.
    split; [reflexivity |]. left. split; [exact Hsuccess |].
    exists events, merged. split; [reflexivity | exact Hevents].
Qed.

Lemma round_hands_off_iff_Success_witness :
  exists events,
    history Scenario.afterRound = history Scenario.start ++ events
    /\ ((ready Success = ready Success
         /\ exists calls merged,
              events = calls ++ [blockRangeConsumer_called merged RemoveOnCompletion]
              /\ existsb isConsumerCall calls = false)
        \/ (@ready NodeInteractionResult Success <> ready Success
            /\ existsb isConsumerCall events = false)).
Proof.
  refine (round_hands_off_iff_Success (Scenario.verdict Remote_Is_Not_Synced 100 5)
            Scenario.synchronizer (Scenario.peer 105 40) 3 Scenario.start
            Scenario.afterRound (ready Success) _).
  vm_compute. reflexivity.
Defined.

(** X11. Rounds keep the byte counter in step with the queue: if
    [m_numBytes] is the ([size_t]) sum of the queued sizes before a
    round, it is so after it. *)
Theorem round_preserves_accounting (CompareChains : CompareChainsFunc)
  (this : DefaultChainSynchronizer) (remoteApi : RemoteApi) (fuel : nat) (w w' : World)
  (nodeInteractionFuture : NodeInteractionFuture)
  (Haccounted : bytesAccounted (unprocessedElements w))
  (Hround : operator_call CompareChains fuel this remoteApi w
            = Returns (nodeInteractionFuture, w')) :
  bytesAccounted (unprocessedElements w').
Proof.
  destruct (operator_call_effect _ _ _ _ _ _ _ Hround)
    as (events & _ & [[_ Hw'] | (_ & _ & merged & w2 & Hadd & Hw')]).
  - subst w'. exact Haccounted.
  - subst w'.
    apply (applyOperation_accounted w2 _ Op_clearPendingSync); [| reflexivity].
    apply (applyOperation_accounted
             {| unprocessedElements :=
                  UnprocessedElements.set_hasPendingSync true (unprocessedElements w);
                history := history w ++ events |} w2 (Op_add merged)).
    + exact Haccounted.
    + simpl. rewrite Hadd. reflexivity.
Qed.

Lemma round_preserves_accounting_witness :
  bytesAccounted (unprocessedElements Scenario.afterRound).
Proof.
  refine (round_preserves_accounting (Scenario.verdict Remote_Is_Not_Synced 100 5)
            Scenario.synchronizer (Scenario.peer 105 40) 3 Scenario.start
            Scenario.afterRound (ready Success) _ _).
  - reflexivity.
  - vm_compute. reflexivity.
Defined.

(** ** What a pull requests and hands off *)

(** X12. The range a successful pull hands to the consumer is what the
    aggregator already held followed by the replies of the peer, in the
    order they were requested, whatever the sizes of the batches, and
    the call to the consumer comes after the last block request. *)
Theorem pull_hands_concatenation (remoteApi : RemoteApi) (options : BlocksFromOptions)
  (fuel : nat) (height : Height) (forkDepth : Z) (aggregator : RangeAggregator.t)
  (w w' : World)
  (Hpull : ChainBlocksFrom fuel (CreateFutureSupplier remoteApi options) height
             forkDepth aggregator w = Returns (ready Success, w')) :
  exists requests,
    forallb isRequest requests = true
    /\ history w'
       = history w ++ requests
         ++ [blockRangeConsumer_called
               (RangeAggregator.merge aggregator
                ++ concat (repliesIn remoteApi (history w) requests))
               RemoveOnCompletion].
Proof.
  destruct (ChainBlocksFrom_trace _ _ _ _ _ _ _ _ _ Hpull)
    as (requests & Hrequests & _ & _ & [[Habsurd _] | [_ Hadd]]).
  - exfalso. apply Habsurd. reflexivity.
  - exists requests. split; [exact Hrequests |].
    apply unprocessedElements_add_cases in Hadd.
    destruct Hadd as [(Habsurd & _) | (last & _ & _ & _ & _ & Hhistory & _)];
      [discriminate |].
    rewrite Hhistory. cbn [history]. rewrite <- app_assoc. reflexivity.
Qed.

Lemma pull_hands_concatenation_witness :
  exists requests,
    forallb isRequest requests = true
    /\ history Scenario.afterPull
       = history Scenario.start ++ requests
         ++ [blockRangeConsumer_called
               (RangeAggregator.merge RangeAggregator.make
                ++ concat (repliesIn (Scenario.peer 150 30) (history Scenario.start)
                             requests))
               RemoveOnCompletion].
Proof.
  refine (pull_hands_concatenation (Scenario.peer 150 30)
            (m_blocksFromOptions Scenario.synchronizer) 2 101 50 RangeAggregator.make
            Scenario.start Scenario.afterPull _).
  vm_compute. reflexivity.
Defined.

(** X13. The calls of a pull that returns are block requests, at least
    one and at most one per unit of fuel, possibly followed by the
    hand-off to the consumer.  The first request asks for the start
    height, every further one for the height after the last block of the
    reply before it, and no request follows a reply that is empty or
    failed. *)
Theorem pull_requests_chained (remoteApi : RemoteApi) (options : BlocksFromOptions)
  (fuel : nat) (height : Height) (forkDepth : Z) (aggregator : RangeAggregator.t)
  (w w' : World) (nodeInteractionFuture : NodeInteractionFuture)
  (Hpull : ChainBlocksFrom fuel (CreateFutureSupplier remoteApi options) height
             forkDepth aggregator w = Returns (nodeInteractionFuture, w')) :
  exists requests handoff,
    history w' = history w ++ requests ++ handoff
    /\ forallb isRequest requests = true
    /\ (1 <= List.length requests <= fuel)%nat
    /\ requestsChained remoteApi (history w) height requests = true
    /\ (handoff = []
        \/ exists merged, handoff = [blockRangeConsumer_called merged RemoveOnCompletion]).
Proof.
  destruct (ChainBlocksFrom_trace _ _ _ _ _ _ _ _ _ Hpull)
    as (requests & Hrequests & Hlength & Hchained & [[_ Hw'] | [_ Hadd]]).
  - exists requests, []. subst w'. cbn [history]. rewrite app_nil_r.
    repeat split; try assumption; try lia. left. reflexivity.
  - apply unprocessedElements_add_cases in Hadd.
    destruct Hadd as [(Habsurd & _) | (last & _ & _ & _ & _ & Hhistory & _)];
      [discriminate |].
    exists requests. eexists [_]. rewrite Hhistory. cbn [history].
    rewrite <- app_assoc.
    repeat split; try assumption; try lia. right. eexists. reflexivity.
Qed.

Lemma pull_requests_chained_witness :
  exists requests handoff,
    history Scenario.afterPull = history Scenario.start ++ requests ++ handoff
    /\ forallb isRequest requests = true
    /\ (1 <= List.length requests <= 2)%nat
    /\ requestsChained (Scenario.peer 150 30) (history Scenario.start) 101 requests = true
    /\ (handoff = []
        \/ exists merged, handoff = [blockRangeConsumer_called merged RemoveOnCompletion]).
Proof.
  refine (pull_requests_chained (Scenario.peer 150 30)
            (m_blocksFromOptions Scenario.synchronizer) 2 101 50 RangeAggregator.make
            Scenario.start Scenario.afterPull (ready Success) _).
  vm_compute. reflexivity.
Defined.

(** ** Rounds come to an end *)

Lemma ChainBlocksFrom_terminates_within (futureSupplier : FutureSupplier)
  (forkDepth : Z) (Hreplies : repliesBounded futureSupplier)
  (Hdepth : forkDepth <= 2 ^ 63) :
  forall (n : nat) (height : Height) (aggregator : RangeAggregator.t) (w : World),
    aggregatorConsistent aggregator ->
    0 <= RangeAggregator.numBlocks aggregator <= 2 ^ 63 ->
    forkDepth - RangeAggregator.numBlocks aggregator <= Z.of_nat (S n) ->
    exists result,
      ChainBlocksFrom (S n) futureSupplier height forkDepth aggregator w = Returns result.
Proof.
  induction n as [| n IH]; intros height aggregator w Hconsistent Hcount Hmeasure;
    rewrite ChainBlocksFrom_unfold; cbv zeta;
    destruct (futureSupplier height w) as [blocksFuture w1] eqn:Hreply;
    cbn [fst snd];
    (destruct blocksFuture as [range | e]; [| destruct e; eexists; reflexivity]);
    (destruct range as [| block rest] eqn:Hrange;
     [ cbn [model.empty];
       destruct (CompleteChainBlocksFrom_returns aggregator w1 Hconsistent)
         as (interaction & w' & Hcomplete & _);
       eexists; exact Hcomplete |]);
    rewrite <- Hrange in *;
    assert (Hnonempty : range <> []) by (rewrite Hrange; discriminate);
    destruct (model_back_nonempty range Hnonempty) as (front & last & _ & Hback);
    pose proof Hnonempty as Hempty; apply model_empty_false in Hempty;
    rewrite Hempty, Hback;
    pose proof (aggregatorConsistent_add range aggregator Hconsistent Hnonempty) as Hadded;
    pose proof (Hreplies height w range w1 Hreply) as Hlength;
    assert (Hpositive : 1 <= Z.of_nat (List.length range))
      by (rewrite Hrange; simpl List.length; lia);
    assert (Hgrows :
      RangeAggregator.numBlocks (RangeAggregator.add range aggregator)
      = RangeAggregator.numBlocks aggregator + Z.of_nat (List.length range))
      by (unfold RangeAggregator.numBlocks, RangeAggregator.add, model.size in *;
          cbn [RangeAggregator.m_numBlocks];
          rewrite (size_t_small (Z.of_nat (List.length range))) by lia;
          apply size_t_small; lia);
    destruct (Z.leb_spec forkDepth
                (RangeAggregator.numBlocks (RangeAggregator.add range aggregator)))
      as [Hreached | Hmore];
    try (destruct (CompleteChainBlocksFrom_returns _ w1 Hadded)
           as (interaction & w' & Hcomplete & _);
         eexists; exact Hcomplete).
  - lia.
  - apply IH; [exact Hadded | lia | lia].
Qed.

Lemma scenario_peer_bounded (tip : Z) (batch : nat) (options : BlocksFromOptions) :
  Z.of_nat batch < 2 ^ 63 ->
  repliesBounded (CreateFutureSupplier (Scenario.peer tip batch) options).
Proof.
  intros Hbatch height w range w1 Hreply.
  unfold CreateFutureSupplier in Hreply. simpl in Hreply.
  injection Hreply as Hrange _. subst range.
  unfold Scenario.blocks. rewrite length_map, length_seq.
  pose proof (Nat.le_min_l batch (Z.to_nat (tip + 1 - height))). lia.
Qed.

(** X14. A pull comes to an end: when every reply holds fewer than
    [2^63] blocks and the fork depth is at most [2^63], a pull from an
    aggregator that holds [numBlocks] blocks returns after at most
    [forkDepth - numBlocks] block requests (one, if that is not
    positive). *)
Theorem pull_returns_within_depth (remoteApi : RemoteApi) (options : BlocksFromOptions)
  (fuel : nat) (height : Height) (forkDepth : Z) (aggregator : RangeAggregator.t)
  (w : World)
  (Hreplies : repliesBounded (CreateFutureSupplier remoteApi options))
  (Hdepth : forkDepth <= 2 ^ 63)
  (Hconsistent : aggregatorConsistent aggregator)
  (Hcount : 0 <= RangeAggregator.numBlocks aggregator <= 2 ^ 63)
  (Hfuel : forkDepth - RangeAggregator.numBlocks aggregator <= Z.of_nat (S fuel)) :
  exists nodeInteractionFuture w' requests handoff,
    ChainBlocksFrom (S fuel) (CreateFutureSupplier remoteApi options) height forkDepth
      aggregator w = Returns (nodeInteractionFuture, w')
    /\ history w' = history w ++ requests ++ handoff
    /\ forallb isRequest requests = true
    /\ existsb isRequest handoff = false
    /\ (List.length requests <= S fuel)%nat.
Proof.
  destruct (ChainBlocksFrom_terminates_within _ forkDepth Hreplies Hdepth fuel height
              aggregator w Hconsistent Hcount Hfuel)
    as [[nodeInteractionFuture w'] Hpull].
  destruct (ChainBlocksFrom_trace _ _ _ _ _ _ _ _ _ Hpull)
    as (requests & Hrequests & Hlength & _ & [[_ Hw'] | [_ Hadd]]).
  - exists nodeInteractionFuture, w', requests, [].
    split; [exact Hpull |]. subst w'. cbn [history]. rewrite app_nil_r.
    repeat split; try assumption; lia.
  - apply unprocessedElements_add_cases in Hadd.
    destruct Hadd as [(Habsurd & _) | (last & _ & _ & _ & _ & Hhistory & _)];
      [discriminate |].
    exists nodeInteractionFuture, w', requests. eexists [_].
    split; [exact Hpull |]. rewrite Hhistory. cbn [history]. rewrite <- app_assoc.
    repeat split; try assumption; lia.
Qed.

Lemma pull_returns_within_depth_witness :
  exists nodeInteractionFuture w' requests handoff,
    ChainBlocksFrom 50
      (CreateFutureSupplier (Scenario.peer 150 30)
         (m_blocksFromOptions Scenario.synchronizer))
      101 50 RangeAggregator.make Scenario.start
    = Returns (nodeInteractionFuture, w')
    /\ history w' = history Scenario.start ++ requests ++ handoff
    /\ forallb isRequest requests = true
    /\ existsb isRequest handoff = false
    /\ (List.length requests <= 50)%nat.
Proof.
  refine (pull_returns_within_depth (Scenario.peer 150 30)
            (m_blocksFromOptions Scenario.synchronizer) 49 101 50 RangeAggregator.make
            Scenario.start _ _ _ _ _).
  - apply scenario_peer_bounded. simpl. lia.
  - lia.
  - apply aggregatorConsistent_make.
  - simpl. lia.
  - simpl. lia.
Defined.

(** X15. A round comes to an end: when every reply to a block request
    holds fewer than [2^63] blocks and the fork depths the comparison
    reports are covered by the fuel, [operator()] returns. *)
Theorem round_returns (CompareChains : CompareChainsFunc)
  (this : DefaultChainSynchronizer) (remoteApi : RemoteApi) (fuel : nat) (w : World)
  (Hreplies : repliesBounded (CreateFutureSupplier remoteApi (m_blocksFromOptions this)))
  (Hfuel : Z.of_nat fuel <= 2 ^ 63)
  (Hverdicts :
     forall localApi options history compareResult,
       CompareChains localApi (pChainApi remoteApi) options history = ready compareResult ->
       ForkDepth compareResult <= Z.of_nat fuel) :
  exists nodeInteractionFuture w',
    operator_call CompareChains (S fuel) this remoteApi w
    = Returns (nodeInteractionFuture, w').
Proof.
  destruct (operator_call_returns CompareChains this remoteApi fuel w Hreplies Hfuel
              Hverdicts) as [[nodeInteractionFuture w'] Hround].
  exists nodeInteractionFuture, w'. exact Hround.
Qed.

Lemma round_returns_witness :
  exists nodeInteractionFuture w',
    operator_call (Scenario.verdict Remote_Is_Not_Synced 100 50) 51
      Scenario.synchronizer (Scenario.peer 150 30) Scenario.start
    = Returns (nodeInteractionFuture, w').
Proof.
  refine (round_returns (Scenario.verdict Remote_Is_Not_Synced 100 50)
            Scenario.synchronizer (Scenario.peer 150 30) 50 Scenario.start _ _ _).
  - apply scenario_peer_bounded. simpl. lia.
  - simpl. lia.
  - intros localApi options history compareResult Hverdict.
    injection Hverdict as Hresult. subst compareResult. simpl. lia.
Defined.

(** ** The fast path has a queued element to start from *)

Lemma elements_back_some (elements : list ElementInfo) :
  elements <> [] ->
  exists info, UnprocessedElements.back elements = Some info /\ In info elements.
Proof.
  induction elements as [| head rest IH]; intros Hnonempty; [contradiction |].
  destruct rest as [| next rest'].
  - exists head. split; [reflexivity | left; reflexivity].
  - destruct IH as (info & Hback & Hin); [discriminate |].
    exists info. split; [exact Hback | right; exact Hin].
Qed.

(** X17. In every state reachable from the constructed object, an empty
    queue makes [empty()] true; so whenever [empty()] is false, which is
    when the synchronizer skips the comparison, [maxHeight] is the end
    height of the newest queued element and not the [Height(0)] of an
    empty queue. *)
Theorem nonempty_has_newest_element
  (blockRangeConsumer : CompletionAwareBlockRangeConsumerFunc) (maxSize : Z) (w : World)
  (Hreachable : reachable (initialWorld blockRangeConsumer maxSize) w) :
  (UnprocessedElements.m_elements (unprocessedElements w) = [] ->
   UnprocessedElements.empty (unprocessedElements w) = true)
  /\ (UnprocessedElements.empty (unprocessedElements w) = false ->
      exists info,
        In info (UnprocessedElements.m_elements (unprocessedElements w))
        /\ UnprocessedElements.back
             (UnprocessedElements.m_elements (unprocessedElements w)) = Some info
        /\ UnprocessedElements.maxHeight (unprocessedElements w) = EndHeight info).
Proof.
  destruct (reachable_accounted _ _ _ Hreachable) as [Hbytes _].
  assert (Hempty : UnprocessedElements.m_elements (unprocessedElements w) = [] ->
                   UnprocessedElements.empty (unprocessedElements w) = true).
  { intros Hnone. unfold UnprocessedElements.empty, UnprocessedElements.numBytes.
    unfold bytesAccounted in Hbytes. rewrite Hbytes, Hnone. reflexivity. }
  split; [exact Hempty |].
  intros Hnonempty.
  destruct (elements_back_some (UnprocessedElements.m_elements (unprocessedElements w)))
    as (info & Hback & Hin).
  - intros Hnone. rewrite (Hempty Hnone) in Hnonempty. discriminate.
  - exists info. split; [exact Hin |]. split; [exact Hback |].
    unfold UnprocessedElements.maxHeight. rewrite Hback. reflexivity.
Qed.

Lemma nonempty_has_newest_element_witness :
  exists info,
    In info (UnprocessedElements.m_elements (unprocessedElements Scenario.threeQueued))
    /\ UnprocessedElements.back
         (UnprocessedElements.m_elements (unprocessedElements Scenario.threeQueued))
       = Some info
    /\ UnprocessedElements.maxHeight (unprocessedElements Scenario.threeQueued)
       = EndHeight info.
Proof.
  refine (proj2 (nonempty_has_newest_element Scenario.numberingConsumer 3000
                   Scenario.threeQueued _) _).
  - apply (run_reachable _ Scenario.threeInFlight _ _ (reachable_start _)).
    vm_compute. reflexivity.
  - vm_compute. reflexivity.
Defined.

(* ================================================================= *)
(** * Rounds with completions in between *)

(** ** What completions do to the shared object *)

Lemma completeInOrder_effect (statuses : list disruptor.CompletionStatus) :
  forall this : UnprocessedElements.t,
    exists after completed,
      completeInOrder statuses this = Returns after
      /\ UnprocessedElements.m_elements this
         = completed ++ UnprocessedElements.m_elements after
      /\ UnprocessedElements.m_hasPendingSync after
         = UnprocessedElements.m_hasPendingSync this
      /\ UnprocessedElements.m_maxSize after = UnprocessedElements.m_maxSize this
      /\ UnprocessedElements.m_blockRangeConsumer after
         = UnprocessedElements.m_blockRangeConsumer this
      /\ (bytesAccounted this -> bytesAccounted after)
      /\ (UnprocessedElements.m_dirty this = false ->
          forallb isNormal statuses = true ->
          UnprocessedElements.m_dirty after = false).
Proof.
  induction statuses as [| status rest IH]; intros this.
  - exists this, []. simpl. repeat split; auto.
  - destruct (UnprocessedElements.m_elements this) as [| info queue] eqn:Hqueue.
    + exists this, []. simpl. rewrite Hqueue. simpl. repeat split; auto.
    + simpl. rewrite Hqueue. cbn [UnprocessedElements.front].
      rewrite (remove_unfold (Id info) status this info queue Hqueue), Z.eqb_refl.
      cbn [bind].
      match goal with
      | |- context [completeInOrder rest ?after1] =>
          destruct (IH after1)
            as (after & completed & Hrun & Hrest & Hpending & Hmax & Hconsumer
                & Haccounted & Hdirty)
      end.
      cbn [UnprocessedElements.m_elements UnprocessedElements.m_hasPendingSync
           UnprocessedElements.m_maxSize UnprocessedElements.m_blockRangeConsumer
           UnprocessedElements.m_dirty] in *.
      exists after, (info :: completed). rewrite Hrun.
      split; [reflexivity |].
      split; [simpl; rewrite <- Hrest; reflexivity |].
      split; [exact Hpending |]. split; [exact Hmax |]. split; [exact Hconsumer |].
      split.
      * intros Hbefore. apply Haccounted. unfold bytesAccounted in *.
        cbn [UnprocessedElements.m_numBytes UnprocessedElements.m_elements].
        rewrite Hbefore, Hqueue, size_t_sub_l. f_equal.
        change (sumNumBytes (info :: queue)) with (NumBytes info + sumNumBytes queue).
        lia.
      * intros _ Hnormal. simpl in Hnormal. apply andb_true_iff in Hnormal.
        destruct Hnormal as [Hstatus Hothers]. apply Hdirty; [| exact Hothers].
        unfold isNormal in Hstatus. rewrite Hstatus. apply andb_false_r.
Qed.

Lemma completions_effect (statuses : list disruptor.CompletionStatus) (w : World) :
  exists w1 completed,
    completions statuses w = Returns w1
    /\ history w1 = history w
    /\ UnprocessedElements.m_elements (unprocessedElements w)
       = completed ++ UnprocessedElements.m_elements (unprocessedElements w1)
    /\ UnprocessedElements.m_hasPendingSync (unprocessedElements w1)
       = UnprocessedElements.m_hasPendingSync (unprocessedElements w)
    /\ UnprocessedElements.m_maxSize (unprocessedElements w1)
       = UnprocessedElements.m_maxSize (unprocessedElements w)
    /\ UnprocessedElements.m_blockRangeConsumer (unprocessedElements w1)
       = UnprocessedElements.m_blockRangeConsumer (unprocessedElements w)
    /\ (bytesAccounted (unprocessedElements w) -> bytesAccounted (unprocessedElements w1))
    /\ (UnprocessedElements.m_dirty (unprocessedElements w) = false ->
        forallb isNormal statuses = true ->
        UnprocessedElements.m_dirty (unprocessedElements w1) = false).
Proof.
  destruct (completeInOrder_effect statuses (unprocessedElements w))
    as (after & completed & Hrun & Hfacts).
  exists (set_unprocessedElements after w), completed.
  unfold completions. rewrite Hrun. cbn [bind].
  split; [reflexivity |]. split; [reflexivity |]. exact Hfacts.
Qed.

Lemma completions_none (w : World) : completions [] w = Returns w.
Proof. unfold completions. simpl. rewrite set_unprocessedElements_same. reflexivity. Qed.

Lemma queueAdvanced_refl (allNormal : bool) (this : UnprocessedElements.t) :
  queueAdvanced allNormal [] this this.
Proof.
  split; [exists []; apply app_nil_r |]. repeat split; auto.
Qed.

Lemma queueAdvanced_trans (allNormal : bool) (added : list ElementInfo)
  (this middle after : UnprocessedElements.t) :
  queueAdvanced allNormal [] this middle ->
  queueAdvanced allNormal added middle after ->
  queueAdvanced allNormal added this after.
Proof.
  intros ([completed1 Hqueue1] & Hpending1 & Hmax1 & Hconsumer1 & Haccounted1 & Hdirty1)
         ([completed2 Hqueue2] & Hpending2 & Hmax2 & Hconsumer2 & Haccounted2 & Hdirty2).
  rewrite app_nil_r in Hqueue1.
  split; [| repeat split; try congruence; auto].
  exists (completed1 ++ completed2).
  rewrite Hqueue1, <- !app_assoc, Hqueue2. reflexivity.
Qed.

Lemma queueAdvanced_then (allNormal : bool) (added : list ElementInfo)
  (this middle after : UnprocessedElements.t) :
  queueAdvanced allNormal added this middle ->
  queueAdvanced allNormal [] middle after ->
  queueAdvanced allNormal added this after.
Proof.
  intros ([completed1 Hqueue1] & Hpending1 & Hmax1 & Hconsumer1 & Haccounted1 & Hdirty1)
         ([completed2 Hqueue2] & Hpending2 & Hmax2 & Hconsumer2 & Haccounted2 & Hdirty2).
  rewrite app_nil_r in Hqueue2.
  split; [| repeat split; try congruence; auto].
  exists (completed1 ++ completed2).
  rewrite Hqueue1, Hqueue2, app_assoc. reflexivity.
Qed.

Lemma queueAdvanced_completions (allNormal : bool)
  (statuses : list disruptor.CompletionStatus) (w w1 : World) :
  (allNormal = true -> forallb isNormal statuses = true) ->
  completions statuses w = Returns w1 ->
  history w1 = history w
  /\ queueAdvanced allNormal [] (unprocessedElements w) (unprocessedElements w1).
Proof.
  intros Hnormal Hrun.
  destruct (completions_effect statuses w)
    as (w1' & completed & Hrun' & Hhistory & Hqueue & Hpending & Hmax & Hconsumer
        & Haccounted & Hdirty).
  rewrite Hrun' in Hrun. injection Hrun as Hw1. subst w1'.
  split; [exact Hhistory |].
  split; [exists completed; rewrite app_nil_r; exact Hqueue |].
  repeat split; auto.
Qed.

Lemma queueAdvanced_add (allNormal : bool) (range : model.BlockRange) (w w' : World) :
  unprocessedElements_add range w = Returns (true, w') ->
  exists last id,
    model.back range = Some last
    /\ history w' = history w ++ [blockRangeConsumer_called range RemoveOnCompletion]
    /\ queueAdvanced allNormal
         [ {| Id := id; EndHeight := model.Height last; NumBytes := model.totalSize range |} ]
         (unprocessedElements w) (unprocessedElements w').
Proof.
  intros Hadd. pose proof Hadd as Hcases.
  apply unprocessedElements_add_cases in Hcases.
  destruct Hcases as [(Habsurd & _)
                     | (last & _ & Hback & _ & _ & Hhistory & Hqueue & _ & Hmax
                        & Hpending & Hclean & Hconsumer)];
    [discriminate |].
  exists last. eexists. split; [exact Hback |]. split; [exact Hhistory |].
  split; [exists []; rewrite Hqueue; reflexivity |].
  split; [exact Hpending |]. split; [exact Hmax |]. split; [exact Hconsumer |].
  split.
  - intros Haccounted.
    apply (applyOperation_accounted w w' (Op_add range) Haccounted).
    simpl. rewrite Hadd. reflexivity.
  - intros _ _. exact Hclean.
Qed.

(** ** The pull with completions before the handoff *)

Section InterleavedRound.

Variable CompareChains : CompareChainsFunc.
Variable schedule : Interleaving.

Lemma onlyNormal_parts :
  onlyNormal schedule = true ->
  forallb isNormal (beforeEmpty schedule) = true
  /\ forallb isNormal (beforeMaxHeight schedule) = true
  /\ forallb isNormal (beforeAdd schedule) = true
  /\ forallb isNormal (beforeClearPendingSync schedule) = true.
Proof.
  unfold onlyNormal, statusesOf. rewrite !forallb_app, !andb_true_iff. tauto.
Qed.

Lemma CompleteChainBlocksFrom_interleaved_neverThrows (rangeAggregator : RangeAggregator.t)
  (w : World) :
  neverThrows (CompleteChainBlocksFrom_interleaved schedule rangeAggregator w).
Proof.
  intros e. unfold CompleteChainBlocksFrom_interleaved.
  destruct (RangeAggregator.empty rangeAggregator); [discriminate |].
  destruct (completions_effect (beforeAdd schedule) w) as (w1 & completed & Hrun & _).
  cbv zeta. rewrite Hrun. cbn [bind].
  pose proof (unprocessedElements_add_neverThrows
                (RangeAggregator.merge rangeAggregator) w1) as Hadd.
  destruct (unprocessedElements_add (RangeAggregator.merge rangeAggregator) w1)
    as [added | e' | |]; simpl; try discriminate.
  exfalso. exact (Hadd e' eq_refl).
Qed.

Lemma ChainBlocksFrom_interleaved_neverThrows (fuel : nat)
  (futureSupplier : FutureSupplier) :
  forall (height : Height) (forkDepth : Z) (aggregator : RangeAggregator.t) (w : World),
    neverThrows
      (ChainBlocksFrom_interleaved schedule fuel futureSupplier height forkDepth
         aggregator w).
Proof.
  induction fuel as [| fuel IH]; intros height forkDepth aggregator w e.
  - discriminate.
  - simpl. destruct (futureSupplier height w) as [blocksFuture w1].
    unfold compose. destruct blocksFuture as [range | e'].
    + simpl.
      match goal with
      | |- context [try_catch_runtime_error ?body _] =>
          assert (Hbody : neverThrows body)
      end.
      { destruct (model.empty range).
        - apply CompleteChainBlocksFrom_interleaved_neverThrows.
        - destruct (model.back range) as [last |]; [| discriminate].
          destruct (forkDepth <=? _).
          + apply CompleteChainBlocksFrom_interleaved_neverThrows.
          + apply IH. }
      match goal with
      | |- context [try_catch_runtime_error ?body _] =>
          destruct body as [result | e'' | |]
      end; simpl; try discriminate.
      exfalso. exact (Hbody e'' eq_refl).
    + destruct e'; simpl; discriminate.
Qed.

Lemma ChainBlocksFrom_interleaved_unfold (fuel : nat) (futureSupplier : FutureSupplier)
  (height : Height) (forkDepth : Z) (aggregator : RangeAggregator.t) (w : World) :
  ChainBlocksFrom_interleaved schedule (S fuel) futureSupplier height forkDepth
    aggregator w
  = let w1 := snd (futureSupplier height w) in
    match fst (futureSupplier height w) with
    | failed (catapult_runtime_error _) => Returns (make_ready_future Failure, w1)
    | failed e => Returns (failed e, w1)
    | ready range =>
        if model.empty range
        then CompleteChainBlocksFrom_interleaved schedule aggregator w1
        else
          match model.back range with
          | None => Undefined
          | Some last =>
              if forkDepth
                 <=? RangeAggregator.numBlocks (RangeAggregator.add range aggregator)
              then CompleteChainBlocksFrom_interleaved schedule
                     (RangeAggregator.add range aggregator) w1
              else
                ChainBlocksFrom_interleaved schedule fuel futureSupplier
                  (Height_add (model.Height last) 1) forkDepth
                  (RangeAggregator.add range aggregator) w1
          end
    end.
Proof.
  simpl. destruct (futureSupplier height w) as [blocksFuture w1]. simpl.
  destruct blocksFuture as [range | e].
  - simpl.
    match goal with
    | |- _ = ?rhs =>
        assert (Hbody : neverThrows rhs)
    end.
    { destruct (model.empty range).
      - apply CompleteChainBlocksFrom_interleaved_neverThrows.
      - destruct (model.back range) as [last |]; [| discriminate].
        destruct (forkDepth <=? _).
        + apply CompleteChainBlocksFrom_interleaved_neverThrows.
        + apply ChainBlocksFrom_interleaved_neverThrows. }
    match goal with
    | |- _ = ?rhs => destruct rhs as [result | e | |]
    end; simpl; try reflexivity.
    exfalso. exact (Hbody e eq_refl).
  - destruct e; reflexivity.
Qed.

Lemma CompleteChainBlocksFrom_interleaved_effect (aggregator : RangeAggregator.t)
  (w w' : World) (nodeInteractionFuture : NodeInteractionFuture) :
  CompleteChainBlocksFrom_interleaved schedule aggregator w
  = Returns (nodeInteractionFuture, w') ->
  (nodeInteractionFuture = ready Neutral
   /\ history w' = history w
   /\ queueAdvanced (onlyNormal schedule) [] (unprocessedElements w) (unprocessedElements w'))
  \/ (nodeInteractionFuture = ready Success
      /\ exists merged last id,
           model.back merged = Some last
           /\ history w' = history w ++ [blockRangeConsumer_called merged RemoveOnCompletion]
           /\ queueAdvanced (onlyNormal schedule)
                [ {| Id := id;
                     EndHeight := model.Height last;
                     NumBytes := model.totalSize merged |} ]
                (unprocessedElements w) (unprocessedElements w')).
Proof.
  unfold CompleteChainBlocksFrom_interleaved. intros Hcomplete.
  destruct (RangeAggregator.empty aggregator).
  - injection Hcomplete as Hfuture Hw. subst nodeInteractionFuture w'. left.
    split; [reflexivity |]. split; [reflexivity | apply queueAdvanced_refl].
  - cbv zeta in Hcomplete.
    destruct (completions (beforeAdd schedule) w) as [w1 | | |] eqn:Hrun;
      try discriminate.
    cbn [bind] in Hcomplete.
    destruct (queueAdvanced_completions (onlyNormal schedule) _ w w1
                (fun Hnormal => proj1 (proj2 (proj2 (onlyNormal_parts Hnormal)))) Hrun)
      as [Hhistory1 Hadvanced1].
    destruct (unprocessedElements_add (RangeAggregator.merge aggregator) w1)
      as [[admitted w2] | | |] eqn:Hadd; simpl in Hcomplete; try discriminate.
    injection Hcomplete as Hfuture Hw. subst w2 nodeInteractionFuture.
    destruct admitted.
    + right. split; [reflexivity |].
      destruct (queueAdvanced_add (onlyNormal schedule) _ w1 w' Hadd)
        as (last & id & Hback & Hhistory & Hadvanced).
      exists (RangeAggregator.merge aggregator), last, id.
      split; [exact Hback |]. split; [rewrite Hhistory, Hhistory1; reflexivity |].
      apply (queueAdvanced_trans (onlyNormal schedule) _ _ (unprocessedElements w1));
        assumption.
    + left. split; [reflexivity |].
      apply unprocessedElements_add_cases in Hadd.
      destruct Hadd as [(_ & Hsame & _) | (last & Habsurd & _)]; [| discriminate].
      subst w'. split; [exact Hhistory1 | exact Hadvanced1].
Qed.

Lemma ChainBlocksFrom_interleaved_effect (fuel : nat) (remoteApi : RemoteApi)
  (options : BlocksFromOptions) (forkDepth : Z) :
  forall (height : Height) (aggregator : RangeAggregator.t) (w w' : World)
         (nodeInteractionFuture : NodeInteractionFuture),
    ChainBlocksFrom_interleaved schedule fuel (CreateFutureSupplier remoteApi options)
      height forkDepth aggregator w = Returns (nodeInteractionFuture, w') ->
    exists requests,
      forallb isRequest requests = true
      /\ ((nodeInteractionFuture <> ready Success
           /\ w' = {| unprocessedElements := unprocessedElements w;
                      history := history w ++ blocksFrom_called height options :: requests |})
          \/ exists aggregator',
               CompleteChainBlocksFrom_interleaved schedule aggregator'
                 {| unprocessedElements := unprocessedElements w;
                    history := history w ++ blocksFrom_called height options :: requests |}
               = Returns (nodeInteractionFuture, w')).
Proof.
  induction fuel as [| fuel IH];
    intros height aggregator w w' nodeInteractionFuture Hrun.
  - discriminate.
  - rewrite ChainBlocksFrom_interleaved_unfold in Hrun. cbv zeta in Hrun.
    change (CreateFutureSupplier remoteApi options height w)
      with (blocksFrom (pChainApi remoteApi) (history w) height options,
            record (blocksFrom_called height options) w) in Hrun.
    cbn [fst snd] in Hrun.
    set (request := blocksFrom_called height options) in *.
    assert (Hone : record request w
                   = {| unprocessedElements := unprocessedElements w;
                        history := history w ++ [request] |}) by reflexivity.
    destruct (blocksFrom (pChainApi remoteApi) (history w) height options)
      as [range | e] eqn:Hreply.
    + destruct range as [| block rest] eqn:Hrange.
      * cbn [model.empty] in Hrun. exists []. split; [reflexivity |]. right.
        exists aggregator. rewrite <- Hone. exact Hrun.
      * rewrite <- Hrange in *.
        assert (Hnonempty : range <> []) by (rewrite Hrange; discriminate).
        pose proof Hnonempty as Hempty. apply model_empty_false in Hempty.
        rewrite Hempty in Hrun.
        destruct (model.back range) as [last |] eqn:Hback; [| discriminate].
        destruct (forkDepth <=? _).
        -- exists []. split; [reflexivity |]. right.
           exists (RangeAggregator.add range aggregator). rewrite <- Hone. exact Hrun.
        -- destruct (IH _ _ _ _ _ Hrun) as (requests & Hrequests & Heffect).
           exists (blocksFrom_called (Height_add (model.Height last) 1) options
                   :: requests).
           split; [simpl; exact Hrequests |].
           rewrite record_request in Heffect. exact Heffect.
    + exists []. split; [reflexivity |]. left.
      destruct e; injection Hrun as Hfuture Hw; subst nodeInteractionFuture w';
        (split; [discriminate | exact Hone]).
Qed.

(** ** The round with completions in between *)

Lemma syncWithPeer_interleaved_neverThrows (fuel : nat) (this : DefaultChainSynchronizer)
  (remoteApi : RemoteApi) (compareResult : CompareChainsResult) (w : World) :
  neverThrows (syncWithPeer_interleaved schedule fuel this remoteApi compareResult w).
Proof.
  intros e.
  pose proof (syncWithPeer_neverThrows fuel this remoteApi compareResult w e) as Hplain.
  unfold syncWithPeer_interleaved. unfold syncWithPeer in Hplain.
  destruct (Code compareResult); try exact Hplain.
  apply ChainBlocksFrom_interleaved_neverThrows.
Qed.

Lemma syncWithPeer_interleaved_effect (this : DefaultChainSynchronizer)
  (remoteApi : RemoteApi) (fuel : nat) (compareResult : CompareChainsResult)
  (w w' : World) (nodeInteractionFuture : NodeInteractionFuture) :
  syncWithPeer_interleaved schedule fuel this remoteApi compareResult w
  = Returns (nodeInteractionFuture, w') ->
  exists events,
    existsb isConsumerCall events = false
    /\ ((nodeInteractionFuture <> ready Success
         /\ w' = {| unprocessedElements := unprocessedElements w;
                    history := history w ++ events |})
        \/ exists aggregator,
             CompleteChainBlocksFrom_interleaved schedule aggregator
               {| unprocessedElements := unprocessedElements w;
                  history := history w ++ events |}
             = Returns (nodeInteractionFuture, w')).
Proof.
  intros Hsync.
  assert (Hplain :
    forall interaction,
      interaction <> Success ->
      Returns (make_ready_future interaction, w) = Returns (nodeInteractionFuture, w') ->
      exists events,
        existsb isConsumerCall events = false
        /\ ((nodeInteractionFuture <> ready Success
             /\ w' = {| unprocessedElements := unprocessedElements w;
                        history := history w ++ events |})
            \/ exists aggregator,
                 CompleteChainBlocksFrom_interleaved schedule aggregator
                   {| unprocessedElements := unprocessedElements w;
                      history := history w ++ events |}
                 = Returns (nodeInteractionFuture, w'))).
  { intros interaction Hother Hreturns.
    injection Hreturns as Hfuture Hw. subst nodeInteractionFuture w'.
    exists []. split; [reflexivity |]. left.
    split; [intros Hsuccess; injection Hsuccess as Hsuccess; contradiction
           | apply world_eta]. }
  destruct (Code compareResult) eqn:Hcode.
  - assert (Hsame : syncWithPeer_interleaved schedule fuel this remoteApi compareResult w
                    = syncWithPeer fuel this remoteApi compareResult w).
    { unfold syncWithPeer_interleaved, syncWithPeer. rewrite Hcode. reflexivity. }
    rewrite Hsame, (syncWithPeer_equal _ _ _ _ _ Hcode) in Hsync. cbv zeta in Hsync.
    destruct (unconfirmedTransactions _ _ _) as [range | e].
    + injection Hsync as Hfuture Hw. subst nodeInteractionFuture w'.
      eexists [_; _]. split; cycle 1.
      * left. split; [discriminate |].
        unfold record. simpl. rewrite <- app_assoc. reflexivity.
      * reflexivity.
    + eexists [_]. split; cycle 1.
      * left.
        destruct e; injection Hsync as Hfuture Hw; subst nodeInteractionFuture w';
          (split; [discriminate | reflexivity]).
      * reflexivity.
  - unfold syncWithPeer_interleaved in Hsync. rewrite Hcode in Hsync.
    apply (Hplain Neutral); [discriminate | exact Hsync].
  - unfold syncWithPeer_interleaved in Hsync. rewrite Hcode in Hsync. cbv zeta in Hsync.
    destruct (ChainBlocksFrom_interleaved_effect _ _ _ _ _ _ _ _ _ Hsync)
      as (requests & Hrequests & Heffect).
    eexists (_ :: requests). split; cycle 1.
    + exact Heffect.
    + simpl. apply requests_are_not_consumer_calls. exact Hrequests.
  - unfold syncWithPeer_interleaved in Hsync. rewrite Hcode in Hsync.
    apply (Hplain Failure); [discriminate | exact Hsync].
  - unfold syncWithPeer_interleaved in Hsync. rewrite Hcode in Hsync.
    apply (Hplain Failure); [discriminate | exact Hsync].
Qed.

Lemma compareChains_interleaved_effect (this : DefaultChainSynchronizer)
  (remoteApi : RemoteApi) (w : World) :
  exists compareChainsFuture w1 events,
    compareChains_interleaved CompareChains schedule this remoteApi w
    = Returns (compareChainsFuture, w1)
    /\ existsb isConsumerCall events = false
    /\ history w1 = history w ++ events
    /\ queueAdvanced (onlyNormal schedule) [] (unprocessedElements w) (unprocessedElements w1).
Proof.
  unfold compareChains_interleaved.
  destruct (completions_effect (beforeEmpty schedule) w) as (w1 & c1 & Hrun1 & _).
  destruct (queueAdvanced_completions (onlyNormal schedule) _ w w1
              (fun Hnormal => proj1 (onlyNormal_parts Hnormal)) Hrun1)
    as [Hhistory1 Hadvanced1].
  rewrite Hrun1. cbn [bind].
  destruct (UnprocessedElements.empty (unprocessedElements w1)).
  - eexists. eexists. exists [CompareChains_called (m_compareChainOptions this)].
    split; [reflexivity |].
    split; [reflexivity |]. unfold record. cbn [history unprocessedElements].
    rewrite Hhistory1. split; [reflexivity | exact Hadvanced1].
  - destruct (completions_effect (beforeMaxHeight schedule) w1)
      as (w2 & c2 & Hrun2 & _).
    destruct (queueAdvanced_completions (onlyNormal schedule) _ w1 w2
                (fun Hnormal => proj1 (proj2 (onlyNormal_parts Hnormal))) Hrun2)
      as [Hhistory2 Hadvanced2].
    rewrite Hrun2. cbn [bind]. eexists. exists w2, []. split; [reflexivity |].
    split; [reflexivity |]. rewrite app_nil_r, Hhistory2, Hhistory1.
    split; [reflexivity |].
    apply (queueAdvanced_trans (onlyNormal schedule) _ _ (unprocessedElements w1)); assumption.
Qed.

Lemma syncWithPeer_interleaved_advance (this : DefaultChainSynchronizer)
  (remoteApi : RemoteApi) (fuel : nat) (compareResult : CompareChainsResult)
  (w w' : World) (nodeInteractionFuture : NodeInteractionFuture) :
  syncWithPeer_interleaved schedule fuel this remoteApi compareResult w
  = Returns (nodeInteractionFuture, w') ->
  exists events,
    existsb isConsumerCall events = false
    /\ ((nodeInteractionFuture <> ready Success
         /\ history w' = history w ++ events
         /\ queueAdvanced (onlyNormal schedule) [] (unprocessedElements w) (unprocessedElements w'))
        \/ (nodeInteractionFuture = ready Success
            /\ exists merged last id,
                 model.back merged = Some last
                 /\ history w'
                    = history w ++ events
                      ++ [blockRangeConsumer_called merged RemoveOnCompletion]
                 /\ queueAdvanced (onlyNormal schedule)
                      [ {| Id := id;
                           EndHeight := model.Height last;
                           NumBytes := model.totalSize merged |} ]
                      (unprocessedElements w) (unprocessedElements w'))).
Proof.
  intros Hsync.
  destruct (syncWithPeer_interleaved_effect _ _ _ _ _ _ _ Hsync)
    as (events & Hevents & [[Hother Hw'] | [aggregator Hcomplete]]);
    exists events; (split; [exact Hevents |]).
  - left. subst w'. split; [exact Hother |]. split; [reflexivity |].
    apply queueAdvanced_refl.
  - apply CompleteChainBlocksFrom_interleaved_effect in Hcomplete.
    cbn [history unprocessedElements] in Hcomplete.
    destruct Hcomplete as [(Hneutral & Hhistory & Hadvanced)
                          | (Hsuccess & merged & last & id & Hback & Hhistory & Hadvanced)].
    + left. split; [rewrite Hneutral; discriminate |].
      split; [exact Hhistory | exact Hadvanced].
    + right. split; [exact Hsuccess |]. exists merged, last, id.
      split; [exact Hback |].
      split; [rewrite Hhistory, <- app_assoc; reflexivity | exact Hadvanced].
Qed.

(** What a round with completions in between leaves behind.  A round
    that is refused changes nothing.  A round that passed the gate
    releases it; the queue it leaves is the queue it found, followed by
    the one element of a Success, without the elements completed in the
    meantime. *)
Lemma operator_call_interleaved_effect (this : DefaultChainSynchronizer)
  (remoteApi : RemoteApi) (fuel : nat) (w w' : World)
  (nodeInteractionFuture : NodeInteractionFuture) :
  operator_call_interleaved CompareChains schedule fuel this remoteApi w
  = Returns (nodeInteractionFuture, w') ->
  (fst (UnprocessedElements.shouldStartSync (unprocessedElements w)) = false
   /\ nodeInteractionFuture = ready Neutral
   /\ w' = w)
  \/ (fst (UnprocessedElements.shouldStartSync (unprocessedElements w)) = true
      /\ UnprocessedElements.m_hasPendingSync (unprocessedElements w') = false
      /\ exists events,
           existsb isConsumerCall events = false
           /\ ((nodeInteractionFuture <> ready Success
                /\ history w' = history w ++ events
                /\ queueAdvanced (onlyNormal schedule) []
                     (unprocessedElements w) (unprocessedElements w'))
               \/ (nodeInteractionFuture = ready Success
                   /\ exists merged last id,
                        model.back merged = Some last
                        /\ history w'
                           = history w ++ events
                             ++ [blockRangeConsumer_called merged RemoveOnCompletion]
                        /\ queueAdvanced (onlyNormal schedule)
                             [ {| Id := id;
                                  EndHeight := model.Height last;
                                  NumBytes := model.totalSize merged |} ]
                             (unprocessedElements w) (unprocessedElements w')))).
Proof.
  intros Hround.
  destruct (fst (UnprocessedElements.shouldStartSync (unprocessedElements w)))
    eqn:Hgate.
  - right. split; [reflexivity |].
    destruct (gate_open_state _ Hgate) as (Hpending0 & Hdirty0 & _ & _).
    unfold operator_call_interleaved in Hround.
    unfold UnprocessedElements.shouldStartSync in Hround, Hgate.
    destruct (_ || _); simpl in Hgate; [discriminate |].
    cbn [negb fst snd] in Hround. cbv zeta in Hround.
    set (w0 := set_unprocessedElements
                 (UnprocessedElements.set_hasPendingSync true (unprocessedElements w)) w)
      in *.
    destruct (compareChains_interleaved_effect this remoteApi w0)
      as (compareChainsFuture & w1 & events1 & Hcompared & Hevents1 & Hhistory1
          & Hadvanced1).
    rewrite Hcompared in Hround. unfold compose at 2 in Hround.
    (* the inner continuation *)
    match type of Hround with
    | compose ?inner _ = _ =>
        assert (Hinner :
          exists nodeInteractionFuture2 w2 events2,
            inner = Returns (nodeInteractionFuture2, w2)
            /\ existsb isConsumerCall events2 = false
            /\ ((nodeInteractionFuture2 <> ready Success
                 /\ history w2 = history w1 ++ events2
                 /\ queueAdvanced (onlyNormal schedule) []
                      (unprocessedElements w1) (unprocessedElements w2))
                \/ (nodeInteractionFuture2 = ready Success
                    /\ exists merged last id,
                         model.back merged = Some last
                         /\ history w2
                            = history w1 ++ events2
                              ++ [blockRangeConsumer_called merged RemoveOnCompletion]
                         /\ queueAdvanced (onlyNormal schedule)
                              [ {| Id := id;
                                   EndHeight := model.Height last;
                                   NumBytes := model.totalSize merged |} ]
                              (unprocessedElements w1) (unprocessedElements w2))))
    end.
    { destruct compareChainsFuture as [compareResult | e].
      - cbn [get bind] in *.
        pose proof (syncWithPeer_interleaved_neverThrows fuel this remoteApi
                      compareResult w1) as Hsync.
        destruct (syncWithPeer_interleaved schedule fuel this remoteApi compareResult w1)
          as [[nodeInteractionFuture2 w2] | e | |] eqn:Hsynced;
          cbn [try_catch_runtime_error] in *;
          [| exfalso; exact (Hsync e eq_refl) | discriminate | discriminate].
        destruct (syncWithPeer_interleaved_advance _ _ _ _ _ _ _ Hsynced)
          as (events2 & Hevents2 & Hcases).
        exists nodeInteractionFuture2, w2, events2.
        split; [reflexivity |]. split; [exact Hevents2 | exact Hcases].
      - exists (resultOnError e), w1, [].
        split; [destruct e; reflexivity |].
        split; [reflexivity |]. left.
        split; [destruct e; discriminate |].
        split; [rewrite app_nil_r; reflexivity | apply queueAdvanced_refl]. }
    destruct Hinner as (nodeInteractionFuture2 & w2 & events2 & Hinner
                        & Hevents2 & Hcases).
    rewrite Hinner in Hround. unfold compose in Hround.
    destruct (completions_effect (beforeClearPendingSync schedule) w2)
      as (w3 & completed3 & Hrun3 & _).
    rewrite Hrun3 in Hround. cbn [bind] in Hround.
    injection Hround as Hfuture Hw'. subst nodeInteractionFuture2.
    destruct (queueAdvanced_completions (onlyNormal schedule) _ w2 w3
                (fun Hnormal => proj2 (proj2 (proj2 (onlyNormal_parts Hnormal)))) Hrun3)
      as [Hhistory3 Hadvanced3].
    destruct (clearPendingSync_fields (unprocessedElements w3))
      as (Hqueue' & Hbytes' & Hmax' & Hpending' & Hdirty' & Hconsumer').
    cbv zeta in Hqueue', Hbytes', Hmax', Hpending', Hdirty', Hconsumer'.
    assert (Hhistory' : history w' = history w3) by (subst w'; reflexivity).
    assert (Hobject : unprocessedElements w'
                      = UnprocessedElements.clearPendingSync (unprocessedElements w3))
      by (subst w'; reflexivity).
    split; [rewrite Hobject; exact Hpending' |].
    (* from the object the round found to the one it leaves *)
    assert (Hbridge :
      forall added,
        queueAdvanced (onlyNormal schedule) added (unprocessedElements w0) (unprocessedElements w3) ->
        queueAdvanced (onlyNormal schedule) added (unprocessedElements w) (unprocessedElements w')).
    { intros added ([completed Hqueue] & _ & Hmax & Hconsumer & Haccounted & Hdirty).
      rewrite Hobject.
      split; [exists completed; rewrite Hqueue'; exact Hqueue |].
      split; [rewrite Hpending', Hpending0; reflexivity |].
      split; [rewrite Hmax'; exact Hmax |].
      split; [rewrite Hconsumer'; exact Hconsumer |].
      split.
      - intros Hbefore. unfold bytesAccounted in *.
        rewrite Hqueue', Hbytes'. apply Haccounted. exact Hbefore.
      - intros Hnormal Hclean. rewrite Hdirty'.
        rewrite (Hdirty Hnormal Hclean). reflexivity. }
    exists (events1 ++ events2).
    split; [rewrite existsb_app, Hevents1, Hevents2; reflexivity |].
    destruct Hcases as [(Hother & Hhistory2 & Hadvanced2)
                       | (Hsuccess & merged & last & id & Hback & Hhistory2 & Hadvanced2)].
    + left. split; [exact Hother |].
      split; [rewrite Hhistory', Hhistory3, Hhistory2, Hhistory1, <- app_assoc;
              reflexivity |].
      apply Hbridge.
      apply (queueAdvanced_trans (onlyNormal schedule) _ _ (unprocessedElements w1));
        [exact Hadvanced1 |].
      apply (queueAdvanced_trans (onlyNormal schedule) _ _ (unprocessedElements w2));
        assumption.
    + right. split; [exact Hsuccess |]. exists merged, last, id.
      split; [exact Hback |].
      split; [rewrite Hhistory', Hhistory3, Hhistory2, Hhistory1, <- !app_assoc;
              reflexivity |].
      apply Hbridge.
      apply (queueAdvanced_trans (onlyNormal schedule) _ _ (unprocessedElements w1));
        [exact Hadvanced1 |].
      apply (queueAdvanced_then (onlyNormal schedule) _ _ (unprocessedElements w2));
        assumption.
  - left. split; [reflexivity |].
    unfold operator_call_interleaved in Hround.
    unfold UnprocessedElements.shouldStartSync in Hround, Hgate.
    destruct (_ || _); simpl in Hgate; [| discriminate].
    cbn [negb fst snd] in Hround. rewrite set_unprocessedElements_same in Hround.
    injection Hround as Hfuture Hw. split; [symmetry; exact Hfuture | symmetry; exact Hw].
Qed.

End InterleavedRound.

(** ** The round without completions *)

Lemma CompleteChainBlocksFrom_sequential (aggregator : RangeAggregator.t) (w : World) :
  CompleteChainBlocksFrom_interleaved noCompletions aggregator w
  = CompleteChainBlocksFrom aggregator w.
Proof.
  unfold CompleteChainBlocksFrom_interleaved, CompleteChainBlocksFrom.
  destruct (RangeAggregator.empty aggregator); [reflexivity |].
  cbv zeta. cbn [beforeAdd noCompletions]. rewrite completions_none. reflexivity.
Qed.

Lemma ChainBlocksFrom_sequential (fuel : nat) (futureSupplier : FutureSupplier)
  (forkDepth : Z) :
  forall (height : Height) (aggregator : RangeAggregator.t) (w : World),
    ChainBlocksFrom_interleaved noCompletions fuel futureSupplier height forkDepth
      aggregator w
    = ChainBlocksFrom fuel futureSupplier height forkDepth aggregator w.
Proof.
  induction fuel as [| fuel IH]; intros height aggregator w; [reflexivity |].
  rewrite ChainBlocksFrom_interleaved_unfold, ChainBlocksFrom_unfold. cbv zeta.
  destruct (fst (futureSupplier height w)) as [range | e]; [| reflexivity].
  destruct (model.empty range); [apply CompleteChainBlocksFrom_sequential |].
  destruct (model.back range) as [last |]; [| reflexivity].
  destruct (forkDepth <=? _); [apply CompleteChainBlocksFrom_sequential | apply IH].
Qed.

(** With no completion in between, the round is [operator_call]. *)
Lemma operator_call_sequential (CompareChains : CompareChainsFunc) (fuel : nat)
  (this : DefaultChainSynchronizer) (remoteApi : RemoteApi) (w : World) :
  operator_call_interleaved CompareChains noCompletions fuel this remoteApi w
  = operator_call CompareChains fuel this remoteApi w.
Proof.
  assert (Hcompared :
    forall w0,
      compareChains_interleaved CompareChains noCompletions this remoteApi w0
      = Returns (compareChains CompareChains this remoteApi w0)).
  { intros w0. unfold compareChains_interleaved, compareChains.
    cbn [beforeEmpty beforeMaxHeight noCompletions].
    rewrite completions_none. cbn [bind].
    destruct (UnprocessedElements.empty (unprocessedElements w0)); [reflexivity |].
    rewrite completions_none. reflexivity. }
  assert (Hsync :
    forall compareResult w1,
      syncWithPeer_interleaved noCompletions fuel this remoteApi compareResult w1
      = syncWithPeer fuel this remoteApi compareResult w1).
  { intros compareResult w1. unfold syncWithPeer_interleaved, syncWithPeer.
    destruct (Code compareResult); try reflexivity;
      apply ChainBlocksFrom_sequential. }
  unfold operator_call_interleaved, operator_call.
  destruct (UnprocessedElements.shouldStartSync (unprocessedElements w))
    as [started elements].
  destruct started; [| reflexivity]. cbn [negb]. cbv zeta.
  rewrite Hcompared.
  destruct (compareChains CompareChains this remoteApi
              (set_unprocessedElements elements w)) as [compareChainsFuture w1].
  unfold compose at 2 4.
  assert (Hinner :
    try_catch_runtime_error
      (compareResult <- get compareChainsFuture ;;
       syncWithPeer_interleaved noCompletions fuel this remoteApi compareResult w1)
      (fun _ => Returns (make_ready_future Failure, w1))
    = try_catch_runtime_error
        (compareResult <- get compareChainsFuture ;;
         syncWithPeer fuel this remoteApi compareResult w1)
        (fun _ => Returns (make_ready_future Failure, w1))).
  { destruct compareChainsFuture as [compareResult | e]; [| reflexivity].
    cbn [get bind]. rewrite Hsync. reflexivity. }
  rewrite Hinner.
  match goal with
  | |- compose ?inner _ = _ => destruct inner as [[nodeInteractionFuture w2] | | |]
  end; try reflexivity;
    unfold compose; cbn [beforeClearPendingSync noCompletions];
    rewrite completions_none; reflexivity.
Qed.

(** ** What a round leaves behind, whatever completes meanwhile *)



(** X10. Whatever completion callbacks fire while a round runs: a round
    that is refused at the gate resolves to Neutral and changes nothing;
    a round that passed the gate returns with the gate released; and
    when every completion reported meanwhile is normal it returns with
    the dirty flag clear. *)
Theorem round_gate_with_completions (CompareChains : CompareChainsFunc)
  (schedule : Interleaving) (this : DefaultChainSynchronizer) (remoteApi : RemoteApi)
  (fuel : nat) (w w' : World) (nodeInteractionFuture : NodeInteractionFuture)
  (Hround : operator_call_interleaved CompareChains schedule fuel this remoteApi w
            = Returns (nodeInteractionFuture, w')) :
  let started := fst (UnprocessedElements.shouldStartSync (unprocessedElements w)) in
  (started = false -> nodeInteractionFuture = ready Neutral /\ w' = w)
  /\ (started = true ->
      UnprocessedElements.m_hasPendingSync (unprocessedElements w') = false)
  /\ (started = true ->
      onlyNormal schedule = true ->
      UnprocessedElements.m_dirty (unprocessedElements w') = false).
Proof.
  intros started. subst started.
  destruct (operator_call_interleaved_effect _ _ _ _ _ _ _ _ Hround)
    as [(Hgate & Hneutral & Hsame) | (Hgate & Hpending & events & _ & Hcases)];
    rewrite Hgate.
  - split; [intros _; split; assumption |]. split; discriminate.
  - split; [discriminate |]. split; [intros _; exact Hpending |].
    intros _ Hnormal.
    destruct (gate_open_state _ Hgate) as (_ & Hclean & _).
    destruct Hcases as [(_ & _ & Hadvanced)
                       | (_ & merged & last & id & _ & _ & Hadvanced)];
      destruct Hadvanced as (_ & _ & _ & _ & _ & Hdirty);
      exact (Hdirty Hnormal Hclean).
Qed.

Lemma round_gate_with_completions_witness :
  UnprocessedElements.m_hasPendingSync
    (unprocessedElements InterleavedScenario.afterAbortedRound) = false.
Proof.
  refine (proj1 (proj2
            (round_gate_with_completions
               (Scenario.verdict Remote_Is_Not_Synced 100 5)
               InterleavedScenario.abortedBeforeAdd Scenario.synchronizer
               (Scenario.peer 120 40) 3 Scenario.threeQueued
               InterleavedScenario.afterAbortedRound (ready Neutral) _)) _).
  - vm_compute. reflexivity.
  - vm_compute. reflexivity.
Defined.

(** The oldest of three queued ranges is reported aborted while a round
    is pulling: the round finds the dirty flag set when it hands off its
    blocks, [add] refuses them, and the round resolves to Neutral with
    the aborted element gone, the dirty flag set and the gate released. *)
Example aborted_completion_refuses_handoff :
  operator_call_interleaved (Scenario.verdict Remote_Is_Not_Synced 100 5)
    InterleavedScenario.abortedBeforeAdd 3 Scenario.synchronizer (Scenario.peer 120 40)
    Scenario.threeQueued
  = Returns (ready Neutral, InterleavedScenario.afterAbortedRound)
  /\ List.length (UnprocessedElements.m_elements (unprocessedElements Scenario.threeQueued))
     = 3%nat
  /\ List.length
       (UnprocessedElements.m_elements
          (unprocessedElements InterleavedScenario.afterAbortedRound)) = 2%nat
  /\ UnprocessedElements.m_dirty (unprocessedElements InterleavedScenario.afterAbortedRound)
     = true
  /\ UnprocessedElements.m_hasPendingSync
       (unprocessedElements InterleavedScenario.afterAbortedRound) = false
  /\ existsb isConsumerCall
       (skipn (List.length (history Scenario.threeQueued))
          (history InterleavedScenario.afterAbortedRound)) = false.
Proof. vm_compute. repeat split; reflexivity. Qed.

(** ** The emptiness test and the read of the newest height *)

Lemma completeInOrder_drains (statuses : list disruptor.CompletionStatus) :
  forall this : UnprocessedElements.t,
    (List.length (UnprocessedElements.m_elements this) <= List.length statuses)%nat ->
    exists after,
      completeInOrder statuses this = Returns after
      /\ UnprocessedElements.m_elements after = [].
Proof.
  induction statuses as [| status rest IH]; intros this Hlength.
  - destruct (UnprocessedElements.m_elements this) eqn:Hqueue.
    + exists this. split; [reflexivity | exact Hqueue].
    + simpl in Hlength. lia.
  - destruct (UnprocessedElements.m_elements this) as [| info queue] eqn:Hqueue.
    + exists this. split; [simpl; rewrite Hqueue; reflexivity | exact Hqueue].
    + simpl. rewrite Hqueue. cbn [UnprocessedElements.front].
      rewrite (remove_unfold (Id info) status this info queue Hqueue), Z.eqb_refl.
      cbn [bind]. apply IH. cbn [UnprocessedElements.m_elements].
      simpl in Hlength. lia.
Qed.

Lemma operator_call_interleaved_pull (CompareChains : CompareChainsFunc)
  (schedule : Interleaving) (this : DefaultChainSynchronizer) (remoteApi : RemoteApi)
  (fuel : nat) (w w' w1 : World) (nodeInteractionFuture : NodeInteractionFuture)
  (compareResult : CompareChainsResult) :
  fst (UnprocessedElements.shouldStartSync (unprocessedElements w)) = true ->
  compareChains_interleaved CompareChains schedule this remoteApi
    (set_unprocessedElements
       (snd (UnprocessedElements.shouldStartSync (unprocessedElements w))) w)
  = Returns (ready compareResult, w1) ->
  operator_call_interleaved CompareChains schedule fuel this remoteApi w
  = Returns (nodeInteractionFuture, w') ->
  exists w2,
    syncWithPeer_interleaved schedule fuel this remoteApi compareResult w1
    = Returns (nodeInteractionFuture, w2)
    /\ history w' = history w2.
Proof.
  intros Hgate Hcompared Hround.
  unfold operator_call_interleaved in Hround.
  destruct (UnprocessedElements.shouldStartSync (unprocessedElements w))
    as [started elements].
  cbn [fst snd] in Hgate, Hcompared. subst started.
  cbn [negb] in Hround. cbv zeta in Hround.
  rewrite Hcompared in Hround. unfold compose at 2 in Hround.
  cbn [get bind] in Hround.
  pose proof (syncWithPeer_interleaved_neverThrows schedule fuel this remoteApi
                compareResult w1) as Hsync.
  destruct (syncWithPeer_interleaved schedule fuel this remoteApi compareResult w1)
    as [[nodeInteractionFuture2 w2] | e | |];
    cbn [try_catch_runtime_error] in Hround;
    [| exfalso; exact (Hsync e eq_refl) | discriminate | discriminate].
  unfold compose in Hround.
  destruct (completions_effect (beforeClearPendingSync schedule) w2)
    as (w3 & completed & Hrun & Hhistory & _).
  rewrite Hrun in Hround. cbn [bind] in Hround.
  injection Hround as Hfuture Hw'. subst nodeInteractionFuture2 w'.
  exists w2. split; [reflexivity |]. exact Hhistory.
Qed.

(** X18. [compareChains] tests [empty()] and reads [maxHeight()] in two
    critical sections.  When the queue is not empty at the test but all
    its elements complete before the read, the synthesized verdict has
    the common height 0 of an empty queue, and the round asks the peer
    for the blocks from height 1 on. *)
Theorem fast_path_height_race (CompareChains : CompareChainsFunc)
  (schedule : Interleaving) (this : DefaultChainSynchronizer) (remoteApi : RemoteApi)
  (fuel : nat) (w w' : World) (nodeInteractionFuture : NodeInteractionFuture)
  (Hgate : fst (UnprocessedElements.shouldStartSync (unprocessedElements w)) = true)
  (Hqueued : UnprocessedElements.empty (unprocessedElements w) = false)
  (Hnone : beforeEmpty schedule = [])
  (Hdrained :
     (List.length (UnprocessedElements.m_elements (unprocessedElements w))
      <= List.length (beforeMaxHeight schedule))%nat)
  (Hround : operator_call_interleaved CompareChains schedule fuel this remoteApi w
            = Returns (nodeInteractionFuture, w')) :
  (exists w1,
     compareChains_interleaved CompareChains schedule this remoteApi
       (set_unprocessedElements
          (snd (UnprocessedElements.shouldStartSync (unprocessedElements w))) w)
     = Returns (ready {| Code := Remote_Is_Not_Synced;
                         CommonBlockHeight := 0;
                         ForkDepth := 0 |}, w1)
     /\ UnprocessedElements.m_elements (unprocessedElements w1) = []
     /\ history w1 = history w)
  /\ exists events,
       history w' = history w ++ blocksFrom_called 1 (m_blocksFromOptions this) :: events
       /\ existsb isComparison events = false.
Proof.
  assert (Hafter : snd (UnprocessedElements.shouldStartSync (unprocessedElements w))
                   = UnprocessedElements.set_hasPendingSync true (unprocessedElements w)).
  { unfold UnprocessedElements.shouldStartSync in *.
    destruct (_ || _); [discriminate | reflexivity]. }
  assert (Hcompared :
    exists w1,
      compareChains_interleaved CompareChains schedule this remoteApi
        (set_unprocessedElements
           (snd (UnprocessedElements.shouldStartSync (unprocessedElements w))) w)
      = Returns (ready {| Code := Remote_Is_Not_Synced;
                          CommonBlockHeight := 0;
                          ForkDepth := 0 |}, w1)
      /\ UnprocessedElements.m_elements (unprocessedElements w1) = []
      /\ history w1 = history w).
  { rewrite Hafter. unfold compareChains_interleaved.
    rewrite Hnone, completions_none. cbn [bind].
    change (UnprocessedElements.empty
              (unprocessedElements
                 (set_unprocessedElements
                    (UnprocessedElements.set_hasPendingSync true (unprocessedElements w))
                    w)))
      with (UnprocessedElements.empty (unprocessedElements w)).
    rewrite Hqueued. unfold completions.
    destruct (completeInOrder_drains (beforeMaxHeight schedule)
                (UnprocessedElements.set_hasPendingSync true (unprocessedElements w))
                Hdrained) as (after & Hrun & Hempty).
    cbn [unprocessedElements set_unprocessedElements]. rewrite Hrun. cbn [bind].
    exists (set_unprocessedElements after w).
    split; [| split; [exact Hempty | reflexivity]].
    unfold UnprocessedElements.maxHeight.
    cbn [unprocessedElements set_unprocessedElements]. rewrite Hempty. reflexivity. }
  split; [exact Hcompared |].
  destruct Hcompared as (w1 & Hcompared & _ & Hhistory1).
  destruct (operator_call_interleaved_pull _ _ _ _ _ _ _ _ _ _ Hgate Hcompared Hround)
    as (w2 & Hsync & Hhistory').
  unfold syncWithPeer_interleaved in Hsync. cbn [Code CommonBlockHeight ForkDepth] in Hsync.
  cbv zeta in Hsync.
  destruct (ChainBlocksFrom_interleaved_effect _ _ _ _ _ _ _ _ _ _ Hsync)
    as (requests & Hrequests & Heffect).
  assert (Hrequested : existsb isComparison requests = false).
  { clear - Hrequests. induction requests as [| request rest IH]; [reflexivity |].
    simpl in *. apply andb_true_iff in Hrequests. destruct Hrequests as [Hrequest Hrest].
    rewrite (IH Hrest). destruct request; try discriminate. reflexivity. }
  change (Height_add 0 1) with 1 in Heffect.
  destruct Heffect as [[_ Hw2] | [aggregator Hcomplete]].
  - exists requests. rewrite Hhistory'. subst w2. cbn [history].
    rewrite Hhistory1. split; [reflexivity | exact Hrequested].
  - apply CompleteChainBlocksFrom_interleaved_effect in Hcomplete.
    cbn [history] in Hcomplete.
    destruct Hcomplete as [(_ & Hhistory2 & _)
                          | (_ & merged & last & id & _ & Hhistory2 & _)].
    + exists requests. rewrite Hhistory', Hhistory2, Hhistory1.
      split; [reflexivity | exact Hrequested].
    + exists (requests ++ [blockRangeConsumer_called merged RemoveOnCompletion]).
      rewrite Hhistory', Hhistory2, Hhistory1, <- app_assoc.
      split; [reflexivity |]. rewrite existsb_app, Hrequested. reflexivity.
Qed.

Lemma fast_path_height_race_witness :
  exists events,
    history InterleavedScenario.afterDrainedRound
    = history Scenario.afterHandoff
      ++ blocksFrom_called 1 (m_blocksFromOptions Scenario.synchronizer) :: events
    /\ existsb isComparison events = false.
Proof.
  refine (proj2
            (fast_path_height_race (Scenario.verdict Remote_Is_Not_Synced 100 5)
               InterleavedScenario.drainedBeforeMaxHeight Scenario.synchronizer
               (Scenario.peer 120 40) 3 Scenario.afterHandoff
               InterleavedScenario.afterDrainedRound (ready Success) _ _ _ _ _)).
  - vm_compute. reflexivity.
  - vm_compute. reflexivity.
  - reflexivity.
  - vm_compute. lia.
  - vm_compute. reflexivity.
Defined.

(** ** Rounds with completions in between come to an end *)

Lemma CompleteChainBlocksFrom_interleaved_returns (schedule : Interleaving)
  (aggregator : RangeAggregator.t) (w : World) :
  aggregatorConsistent aggregator ->
  exists interaction w',
    CompleteChainBlocksFrom_interleaved schedule aggregator w
    = Returns (ready interaction, w').
Proof.
  intros Hconsistent. unfold CompleteChainBlocksFrom_interleaved, RangeAggregator.empty.
  destruct (Z.eqb_spec 0 (RangeAggregator.m_numBlocks aggregator)) as [Hzero | Hsome].
  - exists Neutral, w. reflexivity.
  - assert (Hmerged : RangeAggregator.merge aggregator <> []).
    { apply aggregatorConsistent_merge; [exact Hconsistent | lia]. }
    destruct (completions_effect (beforeAdd schedule) w) as (w1 & completed & Hrun & _).
    cbv zeta. rewrite Hrun. cbn [bind].
    destruct (unprocessedElements_add_defined _ w1 Hmerged)
      as (admitted & w' & Hadd & _).
    rewrite Hadd. simpl.
    exists (if admitted then Success else Neutral), w'. reflexivity.
Qed.

Lemma ChainBlocksFrom_interleaved_terminates (schedule : Interleaving)
  (futureSupplier : FutureSupplier) (forkDepth : Z)
  (Hreplies : repliesBounded futureSupplier) (Hdepth : forkDepth <= 2 ^ 63) :
  forall (n : nat) (height : Height) (aggregator : RangeAggregator.t) (w : World),
    aggregatorConsistent aggregator ->
    0 <= RangeAggregator.numBlocks aggregator <= 2 ^ 63 ->
    forkDepth - RangeAggregator.numBlocks aggregator <= Z.of_nat n ->
    exists result,
      ChainBlocksFrom_interleaved schedule (S n) futureSupplier height forkDepth
        aggregator w = Returns result.
Proof.
  induction n as [| n IH]; intros height aggregator w Hconsistent Hcount Hmeasure;
    rewrite ChainBlocksFrom_interleaved_unfold; cbv zeta;
    destruct (futureSupplier height w) as [blocksFuture w1] eqn:Hreply;
    cbn [fst snd];
    (destruct blocksFuture as [range | e]; [| destruct e; eexists; reflexivity]);
    (destruct range as [| block rest] eqn:Hrange;
     [ cbn [model.empty];
       destruct (CompleteChainBlocksFrom_interleaved_returns schedule aggregator w1
                   Hconsistent)
         as (interaction & w' & Hcomplete);
       eexists; exact Hcomplete |]);
    rewrite <- Hrange in *;
    assert (Hnonempty : range <> []) by (rewrite Hrange; discriminate);
    destruct (model_back_nonempty range Hnonempty) as (front & last & _ & Hback);
    pose proof Hnonempty as Hempty; apply model_empty_false in Hempty;
    rewrite Hempty, Hback;
    pose proof (aggregatorConsistent_add range aggregator Hconsistent Hnonempty) as Hadded;
    pose proof (Hreplies height w range w1 Hreply) as Hlength;
    assert (Hpositive : 1 <= Z.of_nat (List.length range))
      by (rewrite Hrange; simpl List.length; lia);
    assert (Hgrows :
      RangeAggregator.numBlocks (RangeAggregator.add range aggregator)
      = RangeAggregator.numBlocks aggregator + Z.of_nat (List.length range))
      by (unfold RangeAggregator.numBlocks, RangeAggregator.add, model.size in *;
          cbn [RangeAggregator.m_numBlocks];
          rewrite (size_t_small (Z.of_nat (List.length range))) by lia;
          apply size_t_small; lia);
    destruct (Z.leb_spec forkDepth
                (RangeAggregator.numBlocks (RangeAggregator.add range aggregator)))
      as [Hreached | Hmore];
    try (destruct (CompleteChainBlocksFrom_interleaved_returns schedule _ w1 Hadded)
           as (interaction & w' & Hcomplete);
         eexists; exact Hcomplete).
  - lia.
  - apply IH; [exact Hadded | lia | lia].
Qed.

Lemma syncWithPeer_interleaved_returns (schedule : Interleaving)
  (this : DefaultChainSynchronizer) (remoteApi : RemoteApi)
  (fuel : nat) (compareResult : CompareChainsResult) (w : World) :
  repliesBounded (CreateFutureSupplier remoteApi (m_blocksFromOptions this)) ->
  ForkDepth compareResult <= Z.of_nat fuel <= 2 ^ 63 ->
  exists result,
    syncWithPeer_interleaved schedule (S fuel) this remoteApi compareResult w
    = Returns result.
Proof.
  intros Hreplies Hdepth.
  destruct (syncWithPeer_returns this remoteApi fuel compareResult w Hreplies Hdepth)
    as [result Hplain].
  unfold syncWithPeer_interleaved. unfold syncWithPeer in Hplain.
  destruct (Code compareResult); try (exists result; exact Hplain).
  cbv zeta. apply ChainBlocksFrom_interleaved_terminates.
  - exact Hreplies.
  - lia.
  - apply aggregatorConsistent_make.
  - simpl. lia.
  - simpl. lia.
Qed.

(** The verdict a round with completions in between works with is the
    one of the comparison or a synthesized one with fork depth 0. *)
Lemma compareChains_interleaved_verdict (CompareChains : CompareChainsFunc)
  (schedule : Interleaving) (this : DefaultChainSynchronizer) (remoteApi : RemoteApi)
  (w : World) :
  exists compareChainsFuture w1,
    compareChains_interleaved CompareChains schedule this remoteApi w
    = Returns (compareChainsFuture, w1)
    /\ ((exists history,
           compareChainsFuture
           = CompareChains (m_pLocalChainApi this) (pChainApi remoteApi)
               (m_compareChainOptions this) history)
        \/ exists height,
             compareChainsFuture
             = ready {| Code := Remote_Is_Not_Synced;
                        CommonBlockHeight := height;
                        ForkDepth := 0 |}).
Proof.
  unfold compareChains_interleaved.
  destruct (completions_effect (beforeEmpty schedule) w) as (w1 & c1 & Hrun1 & _).
  rewrite Hrun1. cbn [bind].
  destruct (UnprocessedElements.empty (unprocessedElements w1)).
  - eexists. eexists. split; [reflexivity |]. left. eexists. reflexivity.
  - destruct (completions_effect (beforeMaxHeight schedule) w1)
      as (w2 & c2 & Hrun2 & _).
    rewrite Hrun2. cbn [bind]. eexists. eexists. split; [reflexivity |].
    right. eexists. reflexivity.
Qed.

Lemma operator_call_interleaved_returns (CompareChains : CompareChainsFunc)
  (schedule : Interleaving) (this : DefaultChainSynchronizer) (remoteApi : RemoteApi)
  (fuel : nat) (w : World) :
  repliesBounded (CreateFutureSupplier remoteApi (m_blocksFromOptions this)) ->
  Z.of_nat fuel <= 2 ^ 63 ->
  (forall localApi options history compareResult,
     CompareChains localApi (pChainApi remoteApi) options history = ready compareResult ->
     ForkDepth compareResult <= Z.of_nat fuel) ->
  exists result,
    operator_call_interleaved CompareChains schedule (S fuel) this remoteApi w
    = Returns result.
Proof.
  intros Hreplies Hfuel Hverdicts. unfold operator_call_interleaved.
  destruct (UnprocessedElements.shouldStartSync (unprocessedElements w))
    as [started elements].
  destruct started; [| eexists; reflexivity]. cbn [negb]. cbv zeta.
  destruct (compareChains_interleaved_verdict CompareChains schedule this remoteApi
              (set_unprocessedElements elements w))
    as (compareChainsFuture & w1 & Hcompared & Hverdict).
  rewrite Hcompared. unfold compose at 2.
  assert (Hinner :
    exists nodeInteractionFuture w2,
      match
        try_catch_runtime_error
          (compareResult <- get compareChainsFuture ;;
           syncWithPeer_interleaved schedule (S fuel) this remoteApi compareResult w1)
          (fun _ => Returns (make_ready_future Failure, w1))
      with
      | Throws e => Returns (failed e, w1)
      | other => other
      end = Returns (nodeInteractionFuture, w2)).
  { destruct compareChainsFuture as [compareResult | e].
    - cbn [get bind].
      assert (Hdepth : ForkDepth compareResult <= Z.of_nat fuel).
      { destruct Hverdict as [[history Hfuture] | [height Hfuture]].
        - apply (Hverdicts _ _ _ _ (eq_sym Hfuture)).
        - injection Hfuture as Hresult. subst compareResult. simpl. lia. }
      destruct (syncWithPeer_interleaved_returns schedule this remoteApi fuel
                  compareResult w1 Hreplies) as [[nodeInteractionFuture w2] Hsync];
        [lia |].
      rewrite Hsync. exists nodeInteractionFuture, w2. reflexivity.
    - destruct e; eexists; eexists; reflexivity. }
  destruct Hinner as (nodeInteractionFuture & w2 & Hinner).
  match goal with
  | |- exists result, compose ?inner _ = _ =>
      change inner with
        (match
           try_catch_runtime_error
             (compareResult <- get compareChainsFuture ;;
              syncWithPeer_interleaved schedule (S fuel) this remoteApi compareResult w1)
             (fun _ => Returns (make_ready_future Failure, w1))
         with
         | Throws e => Returns (failed e, w1)
         | other => other
         end)
  end.
  rewrite Hinner. unfold compose.
  destruct (completions_effect (beforeClearPendingSync schedule) w2)
    as (w3 & completed & Hrun & _).
  rewrite Hrun. cbn [bind]. eexists. reflexivity.
Qed.

(** X19. A round comes to an end whatever completion callbacks fire
    meanwhile: when every reply to a block request holds fewer than
    [2^63] blocks and the fork depths the comparison reports are
    covered by the fuel, the round with completions in between returns
    a future: it neither throws nor reaches undefined behaviour. *)
Theorem round_with_completions_returns (CompareChains : CompareChainsFunc)
  (schedule : Interleaving) (this : DefaultChainSynchronizer) (remoteApi : RemoteApi)
  (fuel : nat) (w : World)
  (Hreplies : repliesBounded (CreateFutureSupplier remoteApi (m_blocksFromOptions this)))
  (Hfuel : Z.of_nat fuel <= 2 ^ 63)
  (Hverdicts :
     forall localApi options history compareResult,
       CompareChains localApi (pChainApi remoteApi) options history = ready compareResult ->
       ForkDepth compareResult <= Z.of_nat fuel) :
  exists nodeInteractionFuture w',
    operator_call_interleaved CompareChains schedule (S fuel) this remoteApi w
    = Returns (nodeInteractionFuture, w').
Proof.
  destruct (operator_call_interleaved_returns CompareChains schedule this remoteApi fuel w
              Hreplies Hfuel Hverdicts) as [[nodeInteractionFuture w'] Hround].
  exists nodeInteractionFuture, w'. exact Hround.
Qed.

Lemma round_with_completions_returns_witness :
  exists nodeInteractionFuture w',
    operator_call_interleaved (Scenario.verdict Remote_Is_Not_Synced 100 50)
      InterleavedScenario.abortedBeforeAdd 51 Scenario.synchronizer
      (Scenario.peer 150 30) Scenario.threeQueued
    = Returns (nodeInteractionFuture, w').
Proof.
  refine (round_with_completions_returns (Scenario.verdict Remote_Is_Not_Synced 100 50)
            InterleavedScenario.abortedBeforeAdd Scenario.synchronizer
            (Scenario.peer 150 30) 50 Scenario.threeQueued _ _ _).
  - apply scenario_peer_bounded. simpl. lia.
  - simpl. lia.
  - intros localApi options history compareResult Hverdict.
    injection Hverdict as Hresult. subst compareResult. simpl. lia.
Defined.
